(** * Dense spectral decomposition of transition matrices

    A shallow embedding of [msmtools/analysis/dense/decomposition.py] and the
    properties its specification states about it.

    Conventions of the embedding.
    - A [float64] is an exact real number ([R]): rounding is not modelled.
      A division by zero, which numpy answers with [inf] or [nan] and a
      warning, is the total division of [R]; the theorems that depend on a
      divisor say that it is not zero.
    - A [complex128] is a pair of reals ([complex]).
    - A one-dimensional array is a list, a two-dimensional array is the list
      of its rows.
    - The routines of scipy and numpy that the module only calls ([eig],
      [eigvals], [eigvalsh], [solve], [lu_factor], [lu_solve]) and the sibling
      predicate [is_reversible] are parameters of the embedding.
    - A raised exception is the [Raise] case of [result]. *)

From Stdlib Require Import String.
From Stdlib Require Import Reals Lra Lia List ZArith Bool Arith.
From Stdlib Require Import Sorting.Sorted Sorting.Permutation.
From Stdlib Require Import Field RealField.
Import ListNotations.

Set Implicit Arguments.

(** ** Exceptions and results *)

Inductive exn : Type :=
| RuntimeError (maxiter : nat) (r : R)
    (* "Failed to converge after %d iterations, residuum is %e" % (maxiter, r) *)
| ValueError_indices (k : list Z)
    (* ValueError("given indices do not exist: ", k) *)
| ValueError_norm
    (* ValueError("Keyword 'norm' has to be either 'standard' or 'reversible'") *)
| IndexError
| LinAlgError.

Inductive result (A : Type) : Type :=
| Ok (a : A)
| Raise (e : exn).

Arguments Ok {A} a.
Arguments Raise {A} e.

Definition bind {A B : Type} (m : result A) (f : A -> result B) : result B :=
  match m with
  | Ok a => f a
  | Raise e => Raise e
  end.

Notation "x <- m ;; f" := (bind m (fun x => f))
  (at level 61, m at next level, right associativity).

(** ** Python sequences *)

Module Py.

(** The stop of a slice of a sequence of length [len]: a stop beyond the
    end is the end, a negative stop counts from the end. *)
Definition stop (len : nat) (k : Z) : nat :=
  if (0 <=? k)%Z then Nat.min (Z.to_nat k) len
  else Z.to_nat (Z.of_nat len + k).

Section Seq.
Context {A : Type}.

(** [l[n]]: a negative index counts from the end; [None] is IndexError. *)
Definition getitem (l : list A) (n : Z) : option A :=
  let len := Z.of_nat (length l) in
  if (0 <=? n)%Z then nth_error l (Z.to_nat n)
  else if (- len <=? n)%Z then nth_error l (Z.to_nat (len + n))
  else None.

(** [[l[n] for n in k]]: the first index that fails ends the comprehension. *)
Fixpoint getitems (l : list A) (k : list Z) : option (list A) :=
  match k with
  | [] => Some []
  | n :: k' =>
      match getitem l n with
      | None => None
      | Some x =>
          match getitems l k' with
          | None => None
          | Some xs => Some (x :: xs)
          end
      end
  end.

(** [l[:k]] and [l[0:k]]. *)
Definition slice_to (k : Z) (l : list A) : list A :=
  firstn (stop (length l) k) l.

(** Whether [n] is an index of a sequence of length [len]. *)
Definition index_ok (len : nat) (n : Z) : bool :=
  ((- Z.of_nat len <=? n) && (n <? Z.of_nat len))%Z.

(** The position a valid index denotes. *)
Definition position (len : nat) (n : Z) : nat :=
  if (0 <=? n)%Z then Z.to_nat n else Z.to_nat (Z.of_nat len + n).

End Seq.

End Py.

(** The selector [k] of [eigenvalues] and [eigenvectors]: absent, an integer
    or a collection of indices. *)
Inductive selector : Type :=
| KNone
| KInt (k : Z)
| KList (k : list Z).

Open Scope R_scope.

(** ** Complex numbers *)

Record complex : Type := mkC { re : R; im : R }.

Definition RtoC (x : R) : complex := mkC x 0.

(** [np.abs] of a complex number. *)
Definition Cabs (z : complex) : R := sqrt (re z * re z + im z * im z).

(** ** Scalars of an eigenvector array

    [eig] gives a [float64] array of eigenvectors when every eigenvalue is
    real and a [complex128] array otherwise; the code is the same for both. *)

Class Scalar (K : Type) : Type := {
  k0 : K;
  k1 : K;
  kadd : K -> K -> K;
  kmul : K -> K -> K;
  ksub : K -> K -> K;
  kopp : K -> K;
  kdiv : K -> K -> K;
  kinv : K -> K;
  kabs : K -> R;      (* np.abs *)
  ksign : K -> K;     (* np.sign *)
  ksqrt : K -> K      (* np.sqrt *)
}.

(** [np.sign] of a float. *)
Definition Rsign (x : R) : R :=
  if Rlt_dec 0 x then 1 else if Rlt_dec x 0 then -1 else 0.

#[export] Instance float64 : Scalar R := {|
  k0 := 0; k1 := 1;
  kadd := Rplus; kmul := Rmult; ksub := Rminus; kopp := Ropp;
  kdiv := Rdiv; kinv := Rinv;
  kabs := Rabs; ksign := Rsign; ksqrt := sqrt
|}.

(** The arithmetic of [complex128]; [np.sign] of a complex number is the
    sign of its real part, or of its imaginary part when the real part is
    zero, and [np.sqrt] is the square root of non-negative real part. *)
Definition Cadd (x y : complex) : complex := mkC (re x + re y) (im x + im y).
Definition Csub (x y : complex) : complex := mkC (re x - re y) (im x - im y).
Definition Copp (x : complex) : complex := mkC (- re x) (- im x).
Definition Cmul (x y : complex) : complex :=
  mkC (re x * re y - im x * im y) (re x * im y + im x * re y).
Definition Cinv (x : complex) : complex :=
  mkC (re x / (re x * re x + im x * im x)) (- im x / (re x * re x + im x * im x)).
Definition Cdiv (x y : complex) : complex := Cmul x (Cinv y).

Definition Csign (x : complex) : complex :=
  if Req_dec_T (re x) 0 then RtoC (Rsign (im x)) else RtoC (Rsign (re x)).

Definition Csqrt (x : complex) : complex :=
  mkC (sqrt ((Cabs x + re x) / 2))
      ((if Rlt_dec (im x) 0 then -1 else 1) * sqrt ((Cabs x - re x) / 2)).

#[export] Instance complex128 : Scalar complex := {|
  k0 := RtoC 0; k1 := RtoC 1;
  kadd := Cadd; kmul := Cmul; ksub := Csub; kopp := Copp;
  kdiv := Cdiv; kinv := Cinv;
  kabs := Cabs; ksign := Csign; ksqrt := Csqrt
|}.

(** ** numpy *)

Module np.

(** Comparison of floats, and of complex numbers as numpy sorts them: by the
    real part, then by the imaginary part. *)
Definition Rleb (x y : R) : bool := if Rle_dec x y then true else false.

Definition Cleb (x y : complex) : bool :=
  if Rlt_dec (re x) (re y) then true
  else if Rlt_dec (re y) (re x) then false
  else Rleb (im x) (im y).

Section Sort.
Context {A : Type} (leb : A -> A -> bool).

Fixpoint insert (x : A * nat) (l : list (A * nat)) : list (A * nat) :=
  match l with
  | [] => [x]
  | y :: l' => if leb (fst x) (fst y) then x :: l else y :: insert x l'
  end.

Definition enumerate (a : list A) : list (A * nat) :=
  combine a (seq 0 (length a)).

(** [np.argsort(a)]: the indices that sort [a] in ascending order.  Equal
    keys keep their order, as in numpy's sort of a short array. *)
Definition argsort (a : list A) : list nat :=
  map snd (fold_right insert [] (enumerate a)).

End Sort.

(** [a[ind]] for an array of indices. *)
Definition take {A : Type} (a : list A) (ind : list nat) : list A :=
  flat_map (fun i => match nth_error a i with Some x => [x] | None => [] end) ind.

(** [M[:, ind]]. *)
Definition take_cols {A : Type} (M : list (list A)) (ind : list nat) : list (list A) :=
  map (fun row => take row ind) M.

(** [np.isclose(a, b, rtol, atol)]. *)
Definition isclose (a b rtol atol : R) : bool :=
  Rleb (Rabs (a - b)) (atol + rtol * Rabs b).

(** [np.allclose(a, b)] for an array [a] and a number [b], with numpy's
    default tolerances. *)
Definition allclose (a : list R) (b : R) : bool :=
  forallb (fun x => isclose x b (1 / 10 ^ 5) (1 / 10 ^ 8)) a.

(** An elementwise operation on two arrays of one shape. *)
Fixpoint map2 {A B C : Type} (f : A -> B -> C) (u : list A) (v : list B) : list C :=
  match u, v with
  | x :: u', y :: v' => f x y :: map2 f u' v'
  | _, _ => []
  end.

Section Arrays.
Context {K : Type} {SK : Scalar K}.

Definition sum (v : list K) : K := fold_right kadd k0 v.

(** [M[:, j]]. *)
Definition col (j : nat) (M : list (list K)) : list K :=
  map (fun row => nth j row k0) M.

Fixpoint update (j : nat) (x : K) (row : list K) : list K :=
  match row, j with
  | [], _ => []
  | _ :: row', O => x :: row'
  | y :: row', S j' => y :: update j' x row'
  end.

(** [M[:, j] = v]. *)
Fixpoint set_col (j : nat) (v : list K) (M : list (list K)) : list (list K) :=
  match M, v with
  | row :: M', x :: v' => update j x row :: set_col j v' M'
  | _, _ => M
  end.

Definition ncols (M : list (list K)) : nat := length (hd [] M).

Definition transpose (M : list (list K)) : list (list K) :=
  map (fun j => col j M) (seq 0 (ncols M)).

Definition eye (d : nat) : list (list K) :=
  map (fun i => map (fun j => if Nat.eqb i j then k1 else k0) (seq 0 d)) (seq 0 d).

Definition zeros (d : nat) : list K := repeat k0 d.

Definition ones (d : nat) : list K := repeat k1 d.

(** [v * c], [c * v] and [v / c] for a number [c]. *)
Definition scale (v : list K) (c : K) : list K := map (fun x => kmul x c) v.
Definition times (c : K) (v : list K) : list K := map (fun x => kmul c x) v.
Definition divide (v : list K) (c : K) : list K := map (fun x => kdiv x c) v.

Definition vdot (u v : list K) : K := sum (map2 kmul u v).

(** [np.dot(A, B)] for matrices, and for a matrix and a vector. *)
Definition dot (A B : list (list K)) : list (list K) :=
  map (fun row => map (fun j => vdot row (col j B)) (seq 0 (ncols B))) A.

Definition matvec (A : list (list K)) (x : list K) : list K :=
  map (fun row => vdot row x) A.

(** [np.diag(M)] of a matrix: its diagonal. *)
Definition diagonal (M : list (list K)) : list K :=
  map (fun i => nth i (nth i M []) k0) (seq 0 (Nat.min (length M) (ncols M))).

(** [M[i, j]]. *)
Definition entry (M : list (list K)) (i j : nat) : K := nth j (nth i M []) k0.

End Arrays.

(** [a[mask]] for an array of booleans. *)
Fixpoint compress {A : Type} (mask : list bool) (a : list A) : list A :=
  match mask, a with
  | true :: mask', x :: a' => x :: compress mask' a'
  | false :: mask', _ :: a' => compress mask' a'
  | _, _ => []
  end.

(** [a[mask] = v] for a number [v], and for an array [v] with one entry for
    each selected place. *)
Fixpoint put_mask_const {A : Type} (a : list A) (mask : list bool) (v : A) : list A :=
  match a, mask with
  | x :: a', b :: mask' => (if b then v else x) :: put_mask_const a' mask' v
  | _, _ => a
  end.

Fixpoint put_mask {A : Type} (a : list A) (mask : list bool) (v : list A) : list A :=
  match a, mask with
  | x :: a', true :: mask' =>
      match v with
      | y :: v' => y :: put_mask a' mask' v'
      | [] => a
      end
  | x :: a', false :: mask' => x :: put_mask a' mask' v
  | _, _ => a
  end.

(** [np.diag(w)] of a vector: the diagonal matrix. *)
Definition diag {A : Type} (zero : A) (w : list A) : list (list A) :=
  map (fun i => map (fun j => if Nat.eqb i j then nth i w zero else zero)
                    (seq 0 (length w)))
      (seq 0 (length w)).

(** [np.linalg.norm(x)]. *)
Definition linalg_norm (x : list R) : R := sqrt (sum (map (fun a => a * a) x)).

End np.

(** ** The module *)

Inductive warning : Type :=
| ImaginaryEigenValueWarning   (* 'Using eigenvalues with non-zero imaginary part' *)
| SpectralWarning.             (* 'Multiple eigenvalues with magnitude one.' *)

(** A float of the result of [timescales_from_eigenvalues]: a number or
    [np.inf]. *)
Inductive timescale : Type :=
| Finite (t : R)
| Inf.

Section Decomposition.

(** The dtype of the eigenvector arrays. *)
Context {K : Type} {SK : Scalar K}.

(** [scipy.linalg]: the LU factorisation and the solve against it, the
    eigenvalue routines and the linear solver ([None]: LinAlgError, the
    matrix is singular). *)
Variable LU : Type.
Variable lu_factor : list (list R) -> LU.
Variable lu_solve : LU -> list R -> list R.
Variable eigvals : list (list R) -> list complex.
Variable eigvalsh : list (list R) -> list R.
Variable eig : list (list R) -> list complex * list (list K).
Variable eig_left : list (list R) -> list complex * list (list K).
Variable solve : list (list K) -> list (list K) -> option (list (list K)).
Variable solve_vector : list (list K) -> list K -> option (list K).

(** [msmtools.analysis.is_reversible]. *)
Variable is_reversible : list (list R) -> bool.

(** The loop of [backward_iteration]: [n] iterations are left; the result is
    the iterate returned, or the last [r] when the loop ends.
    [1.0 / np.linalg.norm(x)] is the division of [R]: for a vector [x] of
    norm zero numpy has [r = inf] and an iterate of [nan], which no real
    number stands for, so the loop is described for solves of norm other
    than zero only. *)
Fixpoint backward_loop (lupiv : LU) (tol : R) (n : nat) (y : list R) (r : R)
  : list R + R :=
  match n with
  | O => inr r
  | S n' =>
      let x := lu_solve lupiv y in
      let r := 1 / np.linalg_norm x in
      let y := np.scale x r in
      if np.Rleb r tol then inl y else backward_loop lupiv tol n' y r
  end.

(** The same holds of [r0 = 1.0 / np.linalg.norm(x0)]: the function is
    described for an initial guess [x0] of norm other than zero. *)
Definition backward_iteration (A : list (list R)) (mu : R) (x0 : list R)
  (tol : R) (maxiter : nat) : result (list R) :=
  let T := np.map2 (np.map2 Rminus) A
             (map (np.times mu) (np.eye (length A))) in
  let lupiv := lu_factor T in
  let r0 := 1 / np.linalg_norm x0 in
  let y0 := np.scale x0 r0 in
  let y := np.times 1 y0 in
  let r := 1 * r0 in
  match backward_loop lupiv tol maxiter y r with
  | inl y => Ok y
  | inr r => Raise (RuntimeError maxiter r)
  end.

(** The defaults [tol=1e-14], [maxiter=100] and [eps=1e-15]. *)
Definition default_tol : R := 1 / 10 ^ 14.
Definition default_maxiter : nat := 100.
Definition default_eps : R := 1 / 10 ^ 15.

Definition stationary_distribution_from_backward_iteration
  (P : list (list R)) (eps : R) : result (list R) :=
  let A := np.transpose P in
  let mu := 1 - eps in
  let x0 := np.ones (length P) in
  y <- backward_iteration A mu x0 default_tol default_maxiter ;;
  let pi := np.divide y (np.sum y) in
  Ok pi.

Definition stationary_distribution_from_eigenvector (T : list (list R))
  : list R :=
  let '(val, L) := eig_left T in
  let perm := rev (np.argsort np.Cleb val) in
  let val := np.take val perm in
  let L := np.take_cols L perm in
  let nu := map kabs (np.col 0 L) in
  let mu := np.divide nu (np.sum nu) in
  mu.

(** With [reversible] set, [np.sqrt(mu)] and the division by it are those
    of [R]: an entry of [mu] that is not positive gives [nan] or [inf] in
    numpy's [S], on which scipy's [eigvalsh] raises; the branch is described
    for a positive [mu] only. *)
Definition eigenvalues (T : list (list R)) (k : selector) (reversible : bool)
  (mu : option (list R)) : result (list complex) :=
  evals <-
    (if reversible then
       mu <- match mu with
             | None => stationary_distribution_from_backward_iteration T default_eps
             | Some mu => Ok mu
             end ;;
       let smu := map sqrt mu in
       let S := np.map2 (fun a row => np.map2 Rdiv (np.times a row) smu) smu T in
       Ok (map RtoC (eigvalsh S))
     else Ok (eigvals T)) ;;
  let ind := rev (np.argsort np.Rleb (map Cabs evals)) in
  let evals := np.take evals ind in
  match k with
  | KList k =>
      match Py.getitems evals k with
      | Some l => Ok l
      | None => Raise (ValueError_indices k)
      end
  | KInt k => Ok (Py.slice_to k evals)
  | KNone => Ok evals
  end.

Definition eigenvectors (T : list (list R)) (k : selector) (right : bool)
  : result (list (list K)) :=
  let eigvec :=
    if right then
      let '(val, R) := eig T in
      let perm := rev (np.argsort np.Rleb (map Cabs val)) in
      np.take_cols R perm
    else
      let '(val, L) := eig_left T in
      let perm := rev (np.argsort np.Rleb (map Cabs val)) in
      np.take_cols L perm in
  match k with
  | KNone => Ok eigvec
  | KInt k => Ok (map (Py.slice_to k) eigvec)
  | KList [] => Raise IndexError   (* np.asarray([]) is an array of floats *)
  | KList ind =>
      if forallb (Py.index_ok (np.ncols eigvec)) ind
      then Ok (np.take_cols eigvec (map (Py.position (np.ncols eigvec)) ind))
      else Raise IndexError
  end.

(** The divisions by [np.sum(L[:, 0])], by [np.sum(nu)], by
    [np.sign(R[0, 0])] and by [np.sqrt(s)] are those of [R]: where a divisor
    is zero (or an overlap of [s] negative) numpy fills the columns with
    [nan] and [inf], which no real number stands for; what is proved of the
    entries that depend on a divisor is proved for a divisor other than
    zero. *)
Definition rdl_decomposition (T : list (list R)) (k : option Z) (norm : string)
  : result (list (list K) * list (list complex) * list (list K)) :=
  let d := length T in
  let '(w, R) := eig T in
  let ind := rev (np.argsort np.Rleb (map Cabs w)) in
  let w := np.take w ind in
  let R := np.take_cols R ind in
  let D := np.diag (RtoC 0) w in
  let norm :=
    if String.eqb norm "auto" then
      if is_reversible T then "reversible"%string else "standard"%string
    else norm in
  if String.eqb norm "standard" then
    match solve (np.transpose R) (np.eye d) with
    | None => Raise LinAlgError
    | Some L =>
        let R' := np.set_col 0 (np.scale (np.col 0 R) (np.sum (np.col 0 L))) R in
        let L' := np.set_col 0 (np.divide (np.col 0 L) (np.sum (np.col 0 L))) L in
        match k with
        | None => Ok (R', D, np.transpose L')
        | Some k =>
            Ok (map (Py.slice_to k) R',
                map (Py.slice_to k) (Py.slice_to k D),
                np.transpose (map (Py.slice_to k) L'))
        end
    end
  else if String.eqb norm "reversible" then
    let b := np.update 0 k1 (np.zeros d) in
    let A := np.transpose R in
    match solve_vector A b with
    | None => Raise LinAlgError
    | Some nu =>
        let mu := np.divide nu (np.sum nu) in
        let R1 := np.set_col 0 (np.divide (np.col 0 R) (ksign (np.entry R 0 0))) R in
        let L1 := np.map2 np.times mu R1 in
        let s := np.diagonal (np.dot (np.transpose L1) R1) in
        let R2 := map (fun row => np.map2 kdiv row (map ksqrt s)) R1 in
        let L2 := map (fun row => np.map2 kdiv row (map ksqrt s)) L1 in
        match k with
        | None => Ok (R2, D, np.transpose L2)
        | Some k =>
            Ok (map (Py.slice_to k) R2,
                map (Py.slice_to k) (Py.slice_to k D),
                np.transpose (map (Py.slice_to k) L2))
        end
    end
  else Raise ValueError_norm.

Definition timescales_from_eigenvalues (evals : list complex) (tau : R)
  : list timescale * list warning :=
  let warn1 :=
    if negb (np.allclose (map im evals) 0) then [ImaginaryEigenValueWarning]
    else [] in
  let ind_abs_one :=
    map (fun a => np.isclose a 1 0 (1 / 10 ^ 14)) (map Cabs evals) in
  let warn2 :=
    if (1 <? length (filter (fun b : bool => b) ind_abs_one))%nat
    then [SpectralWarning] else [] in
  let ts := repeat (Finite 0) (length evals) in
  let ts := np.put_mask_const ts ind_abs_one Inf in
  let other := map negb ind_abs_one in
  let ts := np.put_mask ts other
              (map (fun a => Finite (((-1) * tau) / ln a))
                   (map Cabs (np.compress other evals))) in
  (ts, warn1 ++ warn2).

Definition timescales (T : list (list R)) (tau : R) (k : option Z)
  (reversible : bool) (mu : option (list R))
  : result (list timescale * list warning) :=
  values <- eigenvalues T KNone reversible mu ;;
  let ind := rev (np.argsort np.Rleb (map Cabs values)) in
  let values := np.take values ind in
  let values :=
    match k with
    | None => values
    | Some k => Py.slice_to k values
    end in
  Ok (timescales_from_eigenvalues values tau).

(** *** Notions the properties are stated with *)

(** The eigenvalues and right eigenvectors [rdl_decomposition] works with:
    those of [eig], sorted by decreasing magnitude of the eigenvalue. *)
Definition sorted_eig (T : list (list R)) : list complex * list (list K) :=
  let '(w, R) := eig T in
  let ind := rev (np.argsort np.Rleb (map Cabs w)) in
  (np.take w ind, np.take_cols R ind).

(** The norm [rdl_decomposition] works with, once 'auto' is resolved. *)
Definition resolved_norm (T : list (list R)) (norm : string) : string :=
  if String.eqb norm "auto" then
    if is_reversible T then "reversible"%string else "standard"%string
  else norm.

(** The number of eigenpairs [rdl_decomposition] keeps of [d]. *)
Definition kept (d : nat) (k : option Z) : nat :=
  match k with
  | None => d
  | Some k => Py.stop d k
  end.

(** The two halves of [eigenvectors]: the columns sorted by the magnitude of
    their eigenvalues, and the selection. *)
Definition sorted_columns (val : list complex) (V : list (list K)) : list (list K) :=
  np.take_cols V (rev (np.argsort np.Rleb (map Cabs val))).

Definition sorted_eigenvectors (T : list (list R)) (right : bool) : list (list K) :=
  let '(val, V) := if right then eig T else eig_left T in
  sorted_columns val V.

Definition select_columns (k : selector) (eigvec : list (list K))
  : result (list (list K)) :=
  match k with
  | KNone => Ok eigvec
  | KInt k => Ok (map (Py.slice_to k) eigvec)
  | KList [] => Raise IndexError
  | KList ind =>
      if forallb (Py.index_ok (np.ncols eigvec)) ind
      then Ok (np.take_cols eigvec (map (Py.position (np.ncols eigvec)) ind))
      else Raise IndexError
  end.

(** The two halves of [eigenvalues]: the eigenvalues as the solver gives
    them, and the selection from the sorted array. *)
Definition raw_eigenvalues (T : list (list R)) (reversible : bool)
  (mu : option (list R)) : result (list complex) :=
  if reversible then
    mu <- match mu with
          | None => stationary_distribution_from_backward_iteration T default_eps
          | Some mu => Ok mu
          end ;;
    let smu := map sqrt mu in
    let S := np.map2 (fun a row => np.map2 Rdiv (np.times a row) smu) smu T in
    Ok (map RtoC (eigvalsh S))
  else Ok (eigvals T).

Definition select (k : selector) (evals : list complex) : result (list complex) :=
  match k with
  | KList k =>
      match Py.getitems evals k with
      | Some l => Ok l
      | None => Raise (ValueError_indices k)
      end
  | KInt k => Ok (Py.slice_to k evals)
  | KNone => Ok evals
  end.

(** One solve and renormalisation, and the state after [n] of them. *)
Definition iteration_step (lupiv : LU) (s : list R * R) : list R * R :=
  let x := lu_solve lupiv (fst s) in
  let r := 1 / np.linalg_norm x in
  (np.scale x r, r).

Definition iterate (lupiv : LU) (s : list R * R) (n : nat) : list R * R :=
  Nat.iter n (iteration_step lupiv) s.

(** The state [backward_iteration] enters its loop with. *)
Definition initial_state (x0 : list R) : list R * R :=
  let r0 := 1 / np.linalg_norm x0 in
  (np.times 1 (np.scale x0 r0), 1 * r0).

(** The matrix [A - mu * np.eye(A.shape[0])] and its factorisation, which
    [backward_iteration] solves against. *)
Definition shift_matrix (A : list (list R)) (mu : R) : list (list R) :=
  np.map2 (np.map2 Rminus) A (map (np.times mu) (np.eye (length A))).

Definition shifted (A : list (list R)) (mu : R) : LU :=
  lu_factor (shift_matrix A mu).

(** The left eigenvector [stationary_distribution_from_eigenvector]
    normalises: the one of the greatest eigenvalue. *)
Definition leading_left_eigenvector (T : list (list R)) : list K :=
  let '(val, L) := eig_left T in
  np.col 0 (np.take_cols L (rev (np.argsort np.Cleb val))).

End Decomposition.

(** The array sorted the way the module sorts: [a[np.argsort(f(a))[::-1]]]. *)
Definition sorted_desc {A : Type} (f : A -> R) (a : list A) : list A :=
  np.take a (rev (np.argsort np.Rleb (map f a))).

(** A matrix of [n] rows of [m] entries. *)
Definition shape {K : Type} (n m : nat) (M : list (list K)) : Prop :=
  length M = n /\ Forall (fun row => length row = m) M.

Section ReversibleNorm.

Context {K : Type} {SK : Scalar K}.

(** The steps of the norm 'reversible': the right-hand side [b], the matrix
    [R] after the sign of its first column is fixed, [L = mu[:, newaxis] * R],
    the entry [(i, j)] of [L^T R] before the columns are renormalised, and
    the division of the columns by the numbers of [s]. *)
Definition unit_vector (d : nat) : list K := np.update 0 k1 (np.zeros d).

Definition sign_fixed (R0 : list (list K)) : list (list K) :=
  np.set_col 0 (np.divide (np.col 0 R0) (ksign (np.entry R0 0 0))) R0.

Definition weighted (mu : list K) (R1 : list (list K)) : list (list K) :=
  np.map2 np.times mu R1.

Definition overlap (mu : list K) (R1 : list (list K)) (i j : nat) : K :=
  np.vdot (np.col i (weighted mu R1)) (np.col j R1).

Definition divide_columns (M : list (list K)) (s : list K) : list (list K) :=
  map (fun row => np.map2 kdiv row s) M.

(** The two matrices each norm ends with, before [k] of their columns are
    kept: [R] and [L] after the rescaling of their first columns by the sum
    of [L[:, 0]] (norm 'standard', from the answer [L] of the solver), and
    after the division of their columns by [sqrt(s)] (norm 'reversible',
    from the answer [nu] of the solver). *)
Definition standard_normalised (R0 L : list (list K))
  : list (list K) * list (list K) :=
  let c := np.sum (np.col 0 L) in
  (np.set_col 0 (np.scale (np.col 0 R0) c) R0,
   np.set_col 0 (np.divide (np.col 0 L) c) L).

Definition reversible_normalised (R0 : list (list K)) (nu : list K)
  : list (list K) * list (list K) :=
  let mu := np.divide nu (np.sum nu) in
  let R1 := sign_fixed R0 in
  let L1 := weighted mu R1 in
  let s := np.diagonal (np.dot (np.transpose L1) R1) in
  (divide_columns R1 (map ksqrt s), divide_columns L1 (map ksqrt s)).

(** The triple returned for [k], from the eigenvalues and the two matrices. *)
Definition truncated (k : option Z) (w : list complex) (RL : list (list K) * list (list K))
  : list (list K) * list (list complex) * list (list K) :=
  match k with
  | None => (fst RL, np.diag (RtoC 0) w, np.transpose (snd RL))
  | Some k => (map (Py.slice_to k) (fst RL),
               map (Py.slice_to k) (Py.slice_to k (np.diag (RtoC 0) w)),
               np.transpose (map (Py.slice_to k) (snd RL)))
  end.

End ReversibleNorm.

(** A valid transition matrix: [d] rows of [d] entries that are not negative
    and sum to one. *)
Definition row_stochastic (P : list (list R)) : Prop :=
  Forall (fun row => length row = length P /\
                     Forall (fun x => 0 <= x) row /\
                     np.sum row = 1) P.

(** The matrix [eigenvalues] gives to the symmetric solver:
    [smu[:,None] * T / smu] for [smu = np.sqrt(mu)]. *)
Definition symmetrized (mu : list R) (T : list (list R)) : list (list R) :=
  let smu := map sqrt mu in
  np.map2 (fun a row => np.map2 Rdiv (np.times a row) smu) smu T.

(** The order of the floats of a result of timescales: [np.inf] is above
    every number. *)
Definition timescale_le (s t : timescale) : Prop :=
  match s, t with
  | _, Inf => True
  | Inf, Finite _ => False
  | Finite a, Finite b => a <= b
  end.

(** The indices of a collection that are out of range for a sequence of
    length [d]. *)
Definition failing_indices (d : nat) (k : list Z) : list Z :=
  filter (fun n => negb (Py.index_ok d n)) k.

(** ** Inputs of the examples *)

Module Example.

(** A chain of three states, with the eigenvalues 1, 1/2 and 1/4 and the
    right eigenvectors (1,1,1), (1,-1,0) and (0,1,-1), each of norm one as
    LAPACK returns them. *)
Definition T3 : list (list R) :=
  [[8 / 12; 2 / 12; 2 / 12];
   [1 / 12; 7 / 12; 4 / 12];
   [3 / 12; 3 / 12; 6 / 12]].

Definition w3 : list complex := [RtoC 1; RtoC (1 / 2); RtoC (1 / 4)].

Definition R3 : list (list R) :=
  [[/ sqrt 3;   / sqrt 2;          0];
   [/ sqrt 3; - / sqrt 2;   / sqrt 2];
   [/ sqrt 3;          0; - / sqrt 2]].

Definition eigvals3 (_ : list (list R)) : list complex := w3.
Definition eig3 (_ : list (list R)) : list complex * list (list R) := (w3, R3).

(** The inverse of the transpose of [R3], with the left eigenvectors
    (1,1,1)/3, (2,-1,-1)/3 and (1,1,-2)/3 in its columns, and a solver that
    answers with it. *)
Definition L3 : list (list R) :=
  [[sqrt 3 / 3;   2 * sqrt 2 / 3;       sqrt 2 / 3];
   [sqrt 3 / 3;     - sqrt 2 / 3;       sqrt 2 / 3];
   [sqrt 3 / 3;     - sqrt 2 / 3; - 2 * sqrt 2 / 3]].

Definition solve3 (_ _ : list (list R)) : option (list (list R)) := Some L3.

(** The answer of the solver to [R3^T nu = e_0]. *)
Definition nu3 : list R := [/ sqrt 3; / sqrt 3; / sqrt 3].

Definition solve_vector3 (_ : list (list R)) (_ : list R) : option (list R) :=
  Some nu3.

(** A reversible chain of two states, with the stationary distribution
    (1/3, 2/3), the eigenvalues 1 and 1/4 and the right eigenvectors (1,1)
    and (2,-1), each of norm one; the answer of the solver to
    [R2^T nu = e_0]. *)
Definition T2 : list (list R) :=
  [[1 / 2; 1 / 2];
   [1 / 4; 3 / 4]].

Definition w2 : list complex := [RtoC 1; RtoC (1 / 4)].

Definition R2 : list (list R) :=
  [[/ sqrt 2;   2 / sqrt 5];
   [/ sqrt 2; - / sqrt 5]].

Definition nu2 : list R := [sqrt 2 / 3; 2 * sqrt 2 / 3].

Definition eig2 (_ : list (list R)) : list complex * list (list R) := (w2, R2).

Definition solve_vector2 (_ : list (list R)) (_ : list R) : option (list R) :=
  Some nu2.

(** The chain of two states that never moves: the eigenvalue 1 twice, the
    eigenvectors (1,0) and (0,1).  The sort by decreasing magnitude swaps
    the two columns; [nuI] is the answer of the solver to the system of the
    swapped columns, [[0, 1], [1, 0]] nu = e_0. *)
Definition I2 : list (list R) :=
  [[1; 0];
   [0; 1]].

Definition wI : list complex := [RtoC 1; RtoC 1].

Definition eigI (_ : list (list R)) : list complex * list (list R) := (wI, I2).

Definition nuI : list R := [0; 1].

(** A matrix with the eigenvalues 1/2 and 1 on its diagonal (its first row
    does not sum to one): here no two magnitudes are equal, and the sort
    swaps the columns as well. *)
Definition D2 : list (list R) :=
  [[1 / 2; 0];
   [0;     1]].

Definition wD : list complex := [RtoC (1 / 2); RtoC 1].

Definition eigD (_ : list (list R)) : list complex * list (list R) := (wD, I2).

Definition solve_vectorI (_ : list (list R)) (_ : list R) : option (list R) :=
  Some nuI.

(** A chain of two states whose second state is absorbing and whose first
    state is left with the probability [a]. *)
Definition P_absorbing (a : R) : list (list R) :=
  [[1 - a; a];
   [0;     1]].

(** The solve of a system of two equations (Cramer's rule), in the place of
    the LU factorisation and of the solve against it. *)
Definition lu_factor2 (M : list (list R)) : list (list R) := M.

Definition lu_solve2 (M : list (list R)) (y : list R) : list R :=
  match M, y with
  | [[a; b]; [c; d]], [y1; y2] =>
      [(d * y1 - b * y2) / (a * d - b * c); (a * y2 - c * y1) / (a * d - b * c)]
  | _, _ => y
  end.

(** The left eigenvectors of [T2], (1,2) and (1,-1), each of norm one. *)
Definition Lleft2 : list (list R) :=
  [[1 / sqrt 5;   / sqrt 2];
   [2 / sqrt 5; - / sqrt 2]].

Definition eig_left2 (_ : list (list R)) : list complex * list (list R) :=
  (w2, Lleft2).

(** The eigenvalues of the symmetrized [T2], in the ascending order of
    [eigvalsh]. *)
Definition eigvalsh2 (_ : list (list R)) : list R := [1 / 4; 1].

(** The chain of two states that always moves: reversible and doubly
    stochastic, with the eigenvalues 1 and -1 of equal magnitude and the
    eigenvectors (1,1) and (-1,1), each of norm one.  The sort by decreasing
    magnitude brings the eigenvalue -1 first; [Lflip] is the inverse of the
    transpose of the sorted matrix [[-a, a], [a, a]], [a = 1/sqrt 2], which
    is that matrix itself. *)
Definition Tflip : list (list R) :=
  [[0; 1];
   [1; 0]].

Definition wflip : list complex := [RtoC 1; RtoC (-1)].

Definition Rflip : list (list R) :=
  [[/ sqrt 2; - / sqrt 2];
   [/ sqrt 2;   / sqrt 2]].

Definition eigflip (_ : list (list R)) : list complex * list (list R) :=
  (wflip, Rflip).

Definition Lflip : list (list R) :=
  [[- / sqrt 2; / sqrt 2];
   [  / sqrt 2; / sqrt 2]].

Definition solveflip (_ _ : list (list R)) : option (list (list R)) := Some Lflip.

(** Stand-ins for the routines an example does not reach. *)
Definition lu_factor0 (_ : list (list R)) : unit := tt.
Definition lu_solve0 (_ : unit) (y : list R) : list R := y.
Definition eigvalsh0 (_ : list (list R)) : list R := [].
Definition solve_vector0 (_ : list (list R)) (_ : list R) : option (list R) := None.
Definition is_reversible0 (_ : list (list R)) : bool := false.
Definition solve0 (_ _ : list (list R)) : option (list (list R)) := None.

End Example.
(** * Properties *)

Lemma Rleb_true (x y : R) : np.Rleb x y = true <-> x <= y.
Proof. unfold np.Rleb. destruct (Rle_dec x y); split; intros; congruence || assumption. Qed.

Lemma Rleb_false (x y : R) : np.Rleb x y = false <-> y < x.
Proof.
  unfold np.Rleb. destruct (Rle_dec x y); split; intros; try congruence; try lra.
Qed.

(** ** The two dtypes are fields *)

Lemma complex_eq (x y : complex) : re x = re y -> im x = im y -> x = y.
Proof. destruct x, y. simpl. now intros -> ->. Qed.

Lemma complex_field :
  field_theory (RtoC 0) (RtoC 1) Cadd Cmul Csub Copp Cdiv Cinv (@eq complex).
Proof.
  constructor.
  - constructor; intros; apply complex_eq; simpl; ring.
  - intros H. apply (f_equal re) in H. simpl in H. lra.
  - reflexivity.
  - intros [a b] Hp.
    assert (Hn : a * a + b * b <> 0).
    { intros E. apply Hp. apply complex_eq; simpl; nra. }
    apply complex_eq; simpl; field; assumption.
Qed.

Lemma float64_field :
  @field_theory R k0 k1 kadd kmul ksub kopp kdiv kinv (@eq R).
Proof. exact Rfield. Qed.

Lemma complex128_field :
  @field_theory complex k0 k1 kadd kmul ksub kopp kdiv kinv (@eq complex).
Proof. exact complex_field. Qed.

(** ** backward_iteration *)

Section BackwardIteration.

Variable LU : Type.
Variable lu_factor : list (list R) -> LU.
Variable lu_solve : LU -> list R -> list R.


Lemma iterate_S lupiv s n :
  iterate lu_solve lupiv s (S n) = iterate lu_solve lupiv (iteration_step lu_solve lupiv s) n.
Proof. unfold iterate. now rewrite Nat.iter_succ_r. Qed.

Lemma backward_loop_spec lupiv tol n :
  forall y r,
    match backward_loop lu_solve lupiv tol n y r with
    | inr r' =>
        (forall m, (1 <= m <= n)%nat -> tol < snd (iterate lu_solve lupiv (y, r) m)) /\
        r' = snd (iterate lu_solve lupiv (y, r) n)
    | inl y' =>
        exists m, (1 <= m <= n)%nat /\
          snd (iterate lu_solve lupiv (y, r) m) <= tol /\
          (forall j, (1 <= j < m)%nat -> tol < snd (iterate lu_solve lupiv (y, r) j)) /\
          y' = fst (iterate lu_solve lupiv (y, r) m)
    end.
Proof.
  induction n as [|n IH]; intros y r; cbn [backward_loop].
  - split; [intros m Hm; lia | reflexivity].
  - destruct (np.Rleb (1 / np.linalg_norm (lu_solve lupiv y)) tol) eqn:E.
    + exists 1%nat. apply Rleb_true in E.
      repeat split; try (intros; lia); try assumption.
    + apply Rleb_false in E.
      specialize (IH (np.scale (lu_solve lupiv y) (1 / np.linalg_norm (lu_solve lupiv y)))
                     (1 / np.linalg_norm (lu_solve lupiv y))).
      destruct (backward_loop lu_solve lupiv tol n _ _) as [y'|r'].
      * destruct IH as (m & Hm & Hle & Hlt & Hy).
        exists (S m). rewrite !iterate_S. repeat split; try lia; try assumption.
        intros j Hj. destruct j as [|j]; [lia|]. rewrite iterate_S.
        destruct j as [|j]; [exact E|]. apply Hlt. lia.
      * destruct IH as (Hall & Hr). split.
        -- intros m Hm. destruct m as [|m]; [lia|]. rewrite iterate_S.
           destruct m as [|m]; [exact E|]. apply Hall. lia.
        -- rewrite iterate_S. exact Hr.
Qed.


End BackwardIteration.

(** ** Sorting by decreasing magnitude *)

Section ArgsortFacts.

Context {A : Type} (f : A -> R).

Local Abbreviation keyed := (StronglySorted (fun p q : R * nat => fst p <= fst q)).

Lemma insert_perm (x : R * nat) (l : list (R * nat)) :
  Permutation (np.insert np.Rleb x l) (x :: l).
Proof.
  induction l as [|y l IH]; simpl; [reflexivity|].
  destruct (np.Rleb (fst x) (fst y)); [reflexivity|].
  rewrite IH. apply perm_swap.
Qed.

Lemma insert_sorted (x : R * nat) (l : list (R * nat)) :
  keyed l -> keyed (np.insert np.Rleb x l).
Proof.
  induction l as [|y l IH]; intros Hs; simpl.
  - constructor; constructor.
  - destruct (np.Rleb (fst x) (fst y)) eqn:E.
    + apply Rleb_true in E. constructor; [assumption|].
      inversion Hs as [|? ? Hs' Hall]; subst. constructor; [assumption|].
      eapply Forall_impl; [|exact Hall]. simpl. intros; lra.
    + apply Rleb_false in E. inversion Hs as [|? ? Hs' Hall]; subst.
      constructor; [now apply IH|].
      eapply Permutation_Forall; [symmetry; apply insert_perm|].
      constructor; [lra|assumption].
Qed.

Lemma sort_perm (l : list (R * nat)) :
  Permutation (fold_right (np.insert np.Rleb) [] l) l.
Proof.
  induction l as [|x l IH]; simpl; [reflexivity|].
  rewrite insert_perm. now constructor.
Qed.

Lemma sort_sorted (l : list (R * nat)) :
  keyed (fold_right (np.insert np.Rleb) [] l).
Proof.
  induction l as [|x l IH]; simpl; [constructor|]. now apply insert_sorted.
Qed.

Lemma enumerate_nth (keys : list R) :
  Forall (fun p => nth_error keys (snd p) = Some (fst p)) (np.enumerate keys).
Proof.
  unfold np.enumerate.
  assert (H : forall (pre l : list R),
             Forall (fun p => nth_error (pre ++ l) (snd p) = Some (fst p))
                    (combine l (seq (length pre) (length l)))).
  { intros pre l. revert pre. induction l as [|x l IH]; intros pre; simpl.
    - constructor.
    - constructor.
      + simpl. rewrite nth_error_app2 by lia. now rewrite Nat.sub_diag.
      + specialize (IH (pre ++ [x])). rewrite <- app_assoc in IH. simpl in IH.
        rewrite length_app in IH. simpl in IH.
        now rewrite Nat.add_1_r in IH. }
  exact (H [] keys).
Qed.

Lemma take_keys (a : list A) (ps : list (R * nat)) :
  Forall (fun p => nth_error (map f a) (snd p) = Some (fst p)) ps ->
  map f (np.take a (map snd ps)) = map fst ps.
Proof.
  induction 1 as [|p ps Hp _ IH]; simpl; [reflexivity|].
  rewrite nth_error_map in Hp.
  destruct (nth_error a (snd p)) as [x|]; simpl in Hp; [|discriminate].
  simpl. injection Hp as Hp. now rewrite Hp, IH.
Qed.

Lemma take_length_perm (a : list A) (ind : list nat) :
  Permutation ind (seq 0 (length a)) -> length (np.take a ind) = length a.
Proof.
  intros Hp.
  assert (H : forall l, Forall (fun i => (i < length a)%nat) l ->
                        length (np.take a l) = length l).
  { induction 1 as [|i l Hi _ IH]; simpl; [reflexivity|].
    apply nth_error_Some in Hi. destruct (nth_error a i); [|congruence].
    simpl. fold (np.take a l). now rewrite IH. }
  rewrite H.
  - rewrite (Permutation_length Hp). apply length_seq.
  - apply Forall_forall. intros i Hi.
    apply (Permutation_in _ Hp) in Hi. apply in_seq in Hi. lia.
Qed.

Lemma take_rev (a : list A) (ind : list nat) :
  np.take a (rev ind) = rev (np.take a ind).
Proof.
  unfold np.take. induction ind as [|i ind IH]; simpl; [reflexivity|].
  rewrite flat_map_app, IH. simpl. rewrite app_nil_r.
  destruct (nth_error a i); simpl; [reflexivity|now rewrite app_nil_r].
Qed.

Lemma argsort_perm (a : list A) :
  Permutation (np.argsort np.Rleb (map f a)) (seq 0 (length a)).
Proof.
  unfold np.argsort. rewrite sort_perm. unfold np.enumerate.
  rewrite length_map.
  assert (H : forall (l : list R) (s : list nat),
             length l = length s -> map snd (combine l s) = s).
  { induction l as [|x l IH]; intros [|y s] Hl; simpl in *; try congruence.
    f_equal. apply IH. congruence. }
  rewrite H; [reflexivity|]. now rewrite length_seq, length_map.
Qed.


Lemma sorted_desc_length (a : list A) : length (sorted_desc f a) = length a.
Proof.
  unfold sorted_desc. apply take_length_perm.
  rewrite <- Permutation_rev. apply argsort_perm.
Qed.

Lemma sorted_desc_keys (a : list A) :
  StronglySorted (fun x y => y <= x) (map f (sorted_desc f a)).
Proof.
  unfold sorted_desc. rewrite take_rev, map_rev.
  unfold np.argsort.
  rewrite take_keys.
  - pose proof (sort_sorted (np.enumerate (map f a))) as Hs.
    induction Hs as [|p l Hs IH Hall]; simpl; [constructor|].
    assert (Hrev : forall (l1 : list R) (x : R),
               StronglySorted (fun x y => y <= x) l1 ->
               Forall (fun y => x <= y) l1 ->
               StronglySorted (fun x y => y <= x) (l1 ++ [x])).
    { induction l1 as [|y l1 IH1]; intros x Hs1 Hx; simpl.
      - constructor; constructor.
      - inversion Hs1; subst. inversion Hx; subst.
        constructor; [now apply IH1|].
        apply Forall_app. split; [assumption|]. constructor; [assumption|constructor]. }
    apply Hrev; [exact IH|].
    apply Forall_forall. intros y Hy. rewrite <- in_rev in Hy.
    apply in_map_iff in Hy. destruct Hy as (q & <- & Hq).
    rewrite Forall_forall in Hall. now apply Hall.
  - eapply Permutation_Forall; [symmetry; apply sort_perm|].
    apply enumerate_nth.
Qed.

(** Adjacent entries of a list sorted in decreasing order. *)
Lemma strongly_sorted_adjacent (l : list R) (d : R) :
  StronglySorted (fun x y => y <= x) l ->
  forall i, (S i < length l)%nat -> nth (S i) l d <= nth i l d.
Proof.
  induction 1 as [|x l Hs IH Hall]; intros i Hi; simpl in Hi; [lia|].
  destruct i as [|i].
  - simpl. destruct l as [|y l]; simpl in *; [lia|]. now inversion Hall.
  - change (nth (S (S i)) (x :: l) d) with (nth (S i) l d).
    change (nth (S i) (x :: l) d) with (nth i l d). apply IH. lia.
Qed.

Lemma sorted_desc_adjacent (a : list A) (d : A) :
  forall i, (S i < length (sorted_desc f a))%nat ->
    f (nth (S i) (sorted_desc f a) d) <= f (nth i (sorted_desc f a) d).
Proof.
  intros i Hi. rewrite <- !(map_nth f).
  apply strongly_sorted_adjacent; [apply sorted_desc_keys|now rewrite length_map].
Qed.

End ArgsortFacts.

(** ** Python indexing *)

Section Indexing.

Context {A : Type}.

Lemma getitem_ok (l : list A) (n : Z) (d : A) :
  Py.index_ok (length l) n = true ->
  Py.getitem l n = Some (nth (Py.position (length l) n) l d).
Proof.
  unfold Py.index_ok, Py.getitem, Py.position. intros H.
  apply andb_true_iff in H. destruct H as [H1 H2].
  apply Z.leb_le in H1. apply Z.ltb_lt in H2.
  destruct (0 <=? n)%Z eqn:E.
  - apply Z.leb_le in E. apply nth_error_nth'. lia.
  - apply Z.leb_gt in E. apply Z.leb_le in H1. rewrite H1.
    apply nth_error_nth'. lia.
Qed.

Lemma getitem_out_of_range (l : list A) (n : Z) :
  Py.index_ok (length l) n = false -> Py.getitem l n = None.
Proof.
  unfold Py.index_ok, Py.getitem. intros H.
  apply andb_false_iff in H.
  destruct (0 <=? n)%Z eqn:E.
  - apply Z.leb_le in E. destruct H as [H|H].
    + apply Z.leb_gt in H. lia.
    + apply Z.ltb_ge in H. apply nth_error_None. lia.
  - apply Z.leb_gt in E. destruct H as [H|H].
    + now rewrite H.
    + apply Z.ltb_ge in H. lia.
Qed.

Lemma getitems_spec (l : list A) (k : list Z) (d : A) :
  Py.getitems l k =
    if forallb (Py.index_ok (length l)) k
    then Some (map (fun n => nth (Py.position (length l) n) l d) k)
    else None.
Proof.
  induction k as [|n k IH]; simpl; [reflexivity|].
  destruct (Py.index_ok (length l) n) eqn:E; simpl.
  - rewrite (getitem_ok l n d E), IH.
    now destruct (forallb (Py.index_ok (length l)) k).
  - now rewrite (getitem_out_of_range l n E).
Qed.

Lemma slice_to_all (l : list A) (k : Z) :
  (Z.of_nat (length l) <= k)%Z -> Py.slice_to k l = l.
Proof.
  intros H. unfold Py.slice_to, Py.stop.
  assert (E : (0 <=? k)%Z = true) by (apply Z.leb_le; lia).
  rewrite E. apply firstn_all2. lia.
Qed.

Lemma stop_le (len : nat) (k : Z) : (Py.stop len k <= len)%nat.
Proof. unfold Py.stop. destruct (0 <=? k)%Z eqn:E; [lia|]. apply Z.leb_gt in E. lia. Qed.

End Indexing.

(** ** eigenvalues and eigenvectors *)

Lemma Cabs_RtoC (x : R) : Cabs (RtoC x) = Rabs x.
Proof.
  unfold Cabs, RtoC. simpl. rewrite Rmult_0_r, Rplus_0_r.
  rewrite <- (sqrt_Rsqr_abs x). reflexivity.
Qed.

Section Eigenvalues.

Variable LU : Type.
Variable lu_factor : list (list R) -> LU.
Variable lu_solve : LU -> list R -> list R.
Variable eigvals : list (list R) -> list complex.
Variable eigvalsh : list (list R) -> list R.

Local Abbreviation eigenvalues_ := (eigenvalues lu_factor lu_solve eigvals eigvalsh).

(** The eigenvalues before they are sorted. *)
Lemma eigenvalues_unfold T k reversible mu :
  eigenvalues_ T k reversible mu =
    (evals <- raw_eigenvalues lu_factor lu_solve eigvals eigvalsh T reversible mu ;;
     select k (sorted_desc Cabs evals)).
Proof. reflexivity. Qed.

Lemma raw_eigenvalues_general T mu :
  raw_eigenvalues lu_factor lu_solve eigvals eigvalsh T false mu = Ok (eigvals T).
Proof. reflexivity. Qed.

(** C2. Without a selector, the eigenvalues returned are in the order of
    non-increasing absolute value, whether [reversible] is set or not; the
    only failure is the one of the backward iteration that computes the
    stationary distribution when [reversible] is set and [mu] is absent. *)
Theorem eigenvalues_ordered_by_magnitude :
  forall (T : list (list R)) (reversible : bool) (mu : option (list R)),
    match eigenvalues_ T KNone reversible mu with
    | Ok res =>
        forall i, (S i < length res)%nat ->
          Cabs (nth (S i) res (RtoC 0)) <= Cabs (nth i res (RtoC 0))
    | Raise e =>
        reversible = true /\ mu = None /\
        stationary_distribution_from_backward_iteration lu_factor lu_solve T default_eps
          = Raise e
    end.
Proof.
  intros T reversible mu. rewrite eigenvalues_unfold.
  destruct reversible.
  - unfold raw_eigenvalues. destruct mu as [mu|]; simpl.
    + apply sorted_desc_adjacent.
    + destruct (stationary_distribution_from_backward_iteration _ _ _ _) as [pi|e];
        simpl; [apply sorted_desc_adjacent|auto].
  - rewrite raw_eigenvalues_general. simpl. apply sorted_desc_adjacent.
Qed.

Lemma eigenvalues_indices T (k : list Z) mu :
  eigenvalues_ T (KList k) false mu =
    let sorted := sorted_desc Cabs (eigvals T) in
    if forallb (Py.index_ok (length (eigvals T))) k
    then Ok (map (fun n => nth (Py.position (length (eigvals T)) n) sorted (RtoC 0)) k)
    else Raise (ValueError_indices k).
Proof.
  rewrite eigenvalues_unfold, raw_eigenvalues_general. simpl.
  rewrite (getitems_spec _ k (RtoC 0)), sorted_desc_length.
  now destruct (forallb _ k).
Qed.

(** C7 (amended). With a collection of indices and the general solver,
    [eigenvalues] returns the entries of the array sorted by magnitude at
    the positions given when every index is in range; when one is not, it
    raises the ValueError, which carries the whole collection as given. *)
Theorem eigenvalues_index_collection :
  forall (T : list (list R)) (k : list Z) (mu : option (list R)),
    let sorted := sorted_desc Cabs (eigvals T) in
    let d := length (eigvals T) in
    length sorted = d /\
    eigenvalues_ T (KList k) false mu =
      if forallb (Py.index_ok d) k
      then Ok (map (fun n => nth (Py.position d n) sorted (RtoC 0)) k)
      else Raise (ValueError_indices k).
Proof.
  intros T k mu sorted d. split.
  - apply sorted_desc_length.
  - apply eigenvalues_indices.
Qed.

Lemma eigenvalues_leading T (k : Z) mu :
  (Z.of_nat (length (eigvals T)) <= k)%Z ->
  eigenvalues_ T (KInt k) false mu = Ok (sorted_desc Cabs (eigvals T)).
Proof.
  intros Hk. rewrite eigenvalues_unfold, raw_eigenvalues_general. simpl.
  rewrite slice_to_all; [reflexivity|]. now rewrite sorted_desc_length.
Qed.

Context {K : Type}.
Variable eig : list (list R) -> list complex * list (list K).
Variable eig_left : list (list R) -> list complex * list (list K).

(** The eigenvectors before the selection. *)
Lemma eigenvectors_unfold T k right :
  eigenvectors eig eig_left T k right =
    select_columns k (sorted_eigenvectors eig eig_left T right).
Proof.
  unfold eigenvectors, sorted_eigenvectors, select_columns, sorted_columns.
  destruct right; [destruct (eig T)|destruct (eig_left T)]; reflexivity.
Qed.

Lemma sorted_columns_shape (val : list complex) (V : list (list K)) :
  Forall (fun row => length row = length val) V ->
  length (sorted_columns val V) = length V /\
  Forall (fun row => length row = length val) (sorted_columns val V).
Proof.
  intros HV. unfold sorted_columns, np.take_cols. split.
  - apply length_map.
  - apply Forall_forall. intros row' Hin. apply in_map_iff in Hin.
    destruct Hin as (row & <- & Hin). rewrite Forall_forall in HV.
    rewrite <- (HV row Hin).
    apply (take_length_perm row). rewrite <- Permutation_rev.
    rewrite (HV row Hin). apply (argsort_perm Cabs).
Qed.

End Eigenvalues.

Section Selectors.

Variable LU : Type.
Variable lu_factor : list (list R) -> LU.
Variable lu_solve : LU -> list R -> list R.
Variable eigvals : list (list R) -> list complex.
Variable eigvalsh : list (list R) -> list R.
Context {K : Type}.
Variable eig : list (list R) -> list complex * list (list K).
Variable eig_left : list (list R) -> list complex * list (list K).

(** C10. For a [d x d] matrix and an integer [k > d], [eigenvalues] and
    [eigenvectors] raise nothing: they return all [d] eigenvalues and all
    [d] columns, what they return without a selector. *)
Theorem integer_selector_beyond_size :
  forall (T : list (list R)) (k : Z) (right : bool) (d : nat)
         (val : list complex) (V : list (list K)),
    length (eigvals T) = d ->
    (if right then eig T else eig_left T) = (val, V) ->
    length val = d ->
    Forall (fun row => length row = d) V ->
    (Z.of_nat d < k)%Z ->
    (exists evals,
        eigenvalues lu_factor lu_solve eigvals eigvalsh T (KInt k) false None = Ok evals /\
        eigenvalues lu_factor lu_solve eigvals eigvalsh T KNone false None = Ok evals /\
        length evals = d) /\
    (exists eigvec,
        eigenvectors eig eig_left T (KInt k) right = Ok eigvec /\
        eigenvectors eig eig_left T KNone right = Ok eigvec /\
        length eigvec = length V /\
        Forall (fun row => length row = d) eigvec).
Proof.
  intros T k right d val V Hd Heig Hval HV Hk. split.
  - exists (sorted_desc Cabs (eigvals T)). repeat split.
    + apply eigenvalues_leading. lia.
    + rewrite sorted_desc_length. exact Hd.
  - assert (Hs : sorted_eigenvectors eig eig_left T right = sorted_columns val V).
    { unfold sorted_eigenvectors. now rewrite Heig. }
    rewrite <- Hval in HV.
    destruct (@sorted_columns_shape K val V HV) as [Hlen Hrows].
    exists (sorted_columns val V). rewrite !eigenvectors_unfold, Hs. simpl.
    repeat split; try assumption.
    + f_equal. rewrite <- (map_id (sorted_columns val V)) at 2.
      apply map_ext_in. intros row Hin. rewrite Forall_forall in Hrows.
      apply slice_to_all. rewrite (Hrows row Hin). lia.
    + now rewrite <- Hval.
Qed.

End Selectors.

Lemma integer_selector_beyond_size_witness :
  (exists evals,
      eigenvalues Example.lu_factor0 Example.lu_solve0 Example.eigvals3 Example.eigvalsh0
        Example.T3 (KInt 5) false None = Ok evals /\
      eigenvalues Example.lu_factor0 Example.lu_solve0 Example.eigvals3 Example.eigvalsh0
        Example.T3 KNone false None = Ok evals /\
      length evals = 3%nat) /\
  (exists eigvec,
      eigenvectors Example.eig3 Example.eig3 Example.T3 (KInt 5) true = Ok eigvec /\
      eigenvectors Example.eig3 Example.eig3 Example.T3 KNone true = Ok eigvec /\
      length eigvec = length Example.R3 /\
      Forall (fun row => length row = 3%nat) eigvec).
Proof.
  apply (@integer_selector_beyond_size unit Example.lu_factor0 Example.lu_solve0
           Example.eigvals3 Example.eigvalsh0 R Example.eig3 Example.eig3
           Example.T3 5%Z true 3%nat Example.w3 Example.R3).
  - reflexivity.
  - reflexivity.
  - reflexivity.
  - repeat constructor.
  - lia.
Defined.

(** C7 as stated fails: for the indices 0 and 99 on a matrix of three states
    the error carries both, though the index 0 is in range. *)
Lemma eigenvalues_error_names_valid_index :
  failing_indices 3 [0; 99]%Z = [99%Z] /\
  eigenvalues Example.lu_factor0 Example.lu_solve0 Example.eigvals3 Example.eigvalsh0
    Example.T3 (KList [0; 99]%Z) false None
    = Raise (ValueError_indices [0; 99]%Z) /\
  eigenvalues Example.lu_factor0 Example.lu_solve0 Example.eigvals3 Example.eigvalsh0
    Example.T3 (KList [0; 99]%Z) false None
    <> Raise (ValueError_indices (failing_indices 3 [0; 99]%Z)).
Proof.
  assert (E : eigenvalues Example.lu_factor0 Example.lu_solve0 Example.eigvals3
                Example.eigvalsh0 Example.T3 (KList [0; 99]%Z) false None
              = Raise (ValueError_indices [0; 99]%Z)).
  { rewrite eigenvalues_indices. reflexivity. }
  repeat split.
  - exact E.
  - rewrite E. intros H. inversion H.
Qed.

(** ** timescales_from_eigenvalues *)

(** What the masked assignments of [timescales_from_eigenvalues] amount to. *)
Lemma masked_assignments {A B : Type} (p : A -> bool) (g : A -> B) (z inf : B)
  (evals : list A) :
  np.put_mask
    (np.put_mask_const (repeat z (length evals)) (map p evals) inf)
    (map negb (map p evals))
    (map g (np.compress (map negb (map p evals)) evals))
  = map (fun x => if p x then inf else g x) evals.
Proof.
  induction evals as [|x evals IH]; simpl; [reflexivity|].
  destruct (p x); simpl; now rewrite IH.
Qed.

Lemma timescales_from_eigenvalues_map (evals : list complex) (tau : R) :
  fst (timescales_from_eigenvalues evals tau) =
    map (fun z => if np.isclose (Cabs z) 1 0 (1 / 10 ^ 14) then Inf
                  else Finite (((-1) * tau) / ln (Cabs z))) evals.
Proof.
  unfold timescales_from_eigenvalues. cbn [fst].
  rewrite !map_map.
  rewrite <- (masked_assignments
                (fun z => np.isclose (Cabs z) 1 0 (1 / 10 ^ 14))
                (fun z => Finite (((-1) * tau) / ln (Cabs z)))
                (Finite 0) Inf evals).
  now rewrite !map_map.
Qed.

Lemma isclose_abs (a atol : R) :
  np.isclose a 1 0 atol = true <-> Rabs (a - 1) <= atol.
Proof.
  unfold np.isclose. rewrite Rleb_true, Rmult_0_l, Rplus_0_r. reflexivity.
Qed.

Lemma ln_2_pos : 0 < ln 2.
Proof. rewrite <- ln_1. apply ln_increasing; lra. Qed.

(** C3. [timescales_from_eigenvalues] gives one entry for each eigenvalue, in
    the order of the eigenvalues: [inf] where the magnitude is within 1e-14
    of one, and [-tau / ln |lambda|] elsewhere; for the eigenvalues 1 and
    0.5 and [tau = 1] the result is [inf] and [1 / ln 2]. *)
Theorem timescales_from_eigenvalues_entries :
  forall (evals : list complex) (tau : R),
    let ts := fst (timescales_from_eigenvalues evals tau) in
    length ts = length evals /\
    (forall i, (i < length evals)%nat ->
       let a := Cabs (nth i evals (RtoC 0)) in
       (Rabs (a - 1) <= 1 / 10 ^ 14 -> nth i ts (Finite 0) = Inf) /\
       (1 / 10 ^ 14 < Rabs (a - 1) -> nth i ts (Finite 0) = Finite (- tau / ln a))) /\
    fst (timescales_from_eigenvalues [RtoC 1; RtoC (1 / 2)] 1)
      = [Inf; Finite (1 / ln 2)].
Proof.
  intros evals tau ts. unfold ts. rewrite !timescales_from_eigenvalues_map.
  split; [apply length_map|]. split.
  - intros i Hi. cbv zeta.
    set (h := fun z => if np.isclose (Cabs z) 1 0 (1 / 10 ^ 14) then Inf
                       else Finite (((-1) * tau) / ln (Cabs z))).
    rewrite (nth_indep _ (Finite 0) (h (RtoC 0))) by (now rewrite length_map).
    rewrite map_nth. unfold h.
    set (a := Cabs (nth i evals (RtoC 0))). split; intros Ha.
    + apply isclose_abs in Ha. now rewrite Ha.
    + destruct (np.isclose a 1 0 (1 / 10 ^ 14)) eqn:E.
      * apply isclose_abs in E. lra.
      * f_equal. unfold Rdiv. ring.
  - cbn [map]. rewrite !Cabs_RtoC.
    replace (np.isclose (Rabs 1) 1 0 (1 / 10 ^ 14)) with true.
    2:{ symmetry. apply isclose_abs. rewrite Rabs_R1, Rminus_diag, Rabs_R0.
        apply Rlt_le, Rdiv_lt_0_compat; [lra|apply pow_lt; lra]. }
    replace (np.isclose (Rabs (1 / 2)) 1 0 (1 / 10 ^ 14)) with false.
    2:{ symmetry. destruct (np.isclose _ _ _ _) eqn:E; [|reflexivity].
        apply isclose_abs in E. rewrite (Rabs_pos_eq (1 / 2)) in E by lra.
        rewrite Rabs_left in E by lra.
        assert (1 / 10 ^ 14 < 1 / 2); [|lra].
        apply Rmult_lt_reg_r with (10 ^ 14); [apply pow_lt; lra|].
        unfold Rdiv. rewrite Rmult_assoc, Rinv_l by (apply pow_nonzero; lra). lra. }
    rewrite (Rabs_pos_eq (1 / 2)) by lra.
    assert (E : ((-1) * 1) / ln (1 / 2) = 1 / ln 2).
    { replace (1 / 2) with (/ 2) by lra. rewrite ln_Rinv by lra.
      pose proof ln_2_pos. field. lra. }
    now rewrite E.
Qed.

(** ** rdl_decomposition *)

Section NormKeyword.

Context {K : Type} {SK : Scalar K}.
Variable eig : list (list R) -> list complex * list (list K).
Variable solve : list (list K) -> list (list K) -> option (list (list K)).
Variable solve_vector : list (list K) -> list K -> option (list K).
Variable is_reversible : list (list R) -> bool.

(** C8. [rdl_decomposition] raises the ValueError of the keyword [norm]
    exactly when [norm] is none of 'standard', 'reversible' and 'auto'.  For
    these three it returns a triple, unless the linear solver raises
    (LinAlgError, a singular matrix of eigenvectors); it returns one whenever
    the solver answers. *)
Theorem rdl_decomposition_norm_keyword :
  forall (T : list (list R)) (k : option Z) (norm : string),
    let res := rdl_decomposition eig solve solve_vector is_reversible T k norm in
    let recognised :=
      norm = "standard"%string \/ norm = "reversible"%string \/ norm = "auto"%string in
    (res = Raise ValueError_norm <-> ~ recognised) /\
    (recognised -> (exists t, res = Ok t) \/ res = Raise LinAlgError) /\
    (recognised ->
     (forall A B, solve A B <> None) -> (forall A b, solve_vector A b <> None) ->
     exists t, res = Ok t).
Proof.
  intros T k norm res recognised. unfold recognised, res, rdl_decomposition.
  destruct (eig T) as [w R0].
  set (R1 := np.take_cols R0 _).
  destruct (String.eqb_spec norm "auto") as [Ha|Ha].
  - assert (Hrec : norm = "standard"%string \/ norm = "reversible"%string \/
                   norm = "auto"%string) by auto.
    destruct (is_reversible T); simpl.
    + destruct (solve_vector (np.transpose R1) _) as [nu|] eqn:E.
      * destruct k; (split; [split; [discriminate|tauto]|]);
          (split; [intros _; left; eexists; reflexivity
                  |intros _ _ _; eexists; reflexivity]).
      * split; [split; [discriminate|tauto]|].
        split; [intros _; now right|].
        intros _ _ Hv. exfalso. exact (Hv _ _ E).
    + destruct (solve (np.transpose R1) _) as [L|] eqn:E.
      * destruct k; (split; [split; [discriminate|tauto]|]);
          (split; [intros _; left; eexists; reflexivity
                  |intros _ _ _; eexists; reflexivity]).
      * split; [split; [discriminate|tauto]|].
        split; [intros _; now right|].
        intros _ Hs _. exfalso. exact (Hs _ _ E).
  - destruct (String.eqb_spec norm "standard") as [Hs|Hs].
    + destruct (solve (np.transpose R1) _) as [L|] eqn:E.
      * destruct k; (split; [split; [discriminate|tauto]|]);
          (split; [intros _; left; eexists; reflexivity
                  |intros _ _ _; eexists; reflexivity]).
      * split; [split; [discriminate|tauto]|].
        split; [intros _; now right|].
        intros _ Hs' _. exfalso. exact (Hs' _ _ E).
    + destruct (String.eqb_spec norm "reversible") as [Hr|Hr].
      * destruct (solve_vector (np.transpose R1) _) as [nu|] eqn:E.
        -- destruct k; (split; [split; [discriminate|tauto]|]);
             (split; [intros _; left; eexists; reflexivity
                     |intros _ _ _; eexists; reflexivity]).
        -- split; [split; [discriminate|tauto]|].
           split; [intros _; now right|].
           intros _ _ Hv. exfalso. exact (Hv _ _ E).
      * split; [split; [tauto|reflexivity]|].
        split; intros; exfalso; tauto.
Qed.

End NormKeyword.

(** ** Arrays over a field *)

Lemma nth_map_seq {B : Type} (g : nat -> B) (n i : nat) (d : B) :
  (i < n)%nat -> nth i (map g (seq 0 n)) d = g i.
Proof.
  intros Hi. rewrite (nth_indep _ d (g 0%nat)) by (now rewrite length_map, length_seq).
  rewrite map_nth, seq_nth by assumption. reflexivity.
Qed.

Section ArrayFacts.

Context {K : Type} {SK : Scalar K}.
Hypothesis K_field : field_theory k0 k1 kadd kmul ksub kopp kdiv kinv (@eq K).

Add Field K_field_structure : K_field.

Lemma kdiv_def (x y : K) : kdiv x y = kmul x (kinv y).
Proof. apply (Fdiv_def K_field). Qed.

Lemma sum_scale (v : list K) (c : K) : np.sum (np.scale v c) = kmul (np.sum v) c.
Proof.
  induction v as [|x v IH]; simpl; [ring|].
  fold (np.scale v c). fold (np.sum (np.scale v c)). fold (np.sum v).
  rewrite IH. ring.
Qed.

Lemma sum_divide (v : list K) (c : K) : np.sum (np.divide v c) = kdiv (np.sum v) c.
Proof.
  induction v as [|x v IH]; simpl.
  - rewrite kdiv_def. ring.
  - fold (np.divide v c). fold (np.sum (np.divide v c)). fold (np.sum v).
    rewrite IH, !kdiv_def. ring.
Qed.

Lemma vdot_nil_r (u : list K) : np.vdot u [] = k0.
Proof. destruct u; reflexivity. Qed.

Lemma vdot_cons (x y : K) (u v : list K) :
  np.vdot (x :: u) (y :: v) = kadd (kmul x y) (np.vdot u v).
Proof. reflexivity. Qed.

Lemma vdot_comm (u v : list K) : np.vdot u v = np.vdot v u.
Proof.
  revert v. induction u as [|x u IH]; intros [|y v]; try reflexivity.
  rewrite !vdot_cons, IH. ring.
Qed.

Lemma vdot_scale_r (u v : list K) (c : K) :
  np.vdot u (np.scale v c) = kmul (np.vdot u v) c.
Proof.
  revert v. induction u as [|x u IH]; intros [|y v]; simpl;
    try (unfold np.vdot; simpl; ring).
  fold (np.scale v c). rewrite !vdot_cons, IH. ring.
Qed.

Lemma vdot_divide_l (u v : list K) (c : K) :
  np.vdot (np.divide u c) v = kdiv (np.vdot u v) c.
Proof.
  revert v. induction u as [|x u IH]; intros [|y v]; simpl;
    try (unfold np.vdot; simpl; rewrite kdiv_def; ring).
  fold (np.divide u c). rewrite !vdot_cons, IH, !kdiv_def. ring.
Qed.

Lemma nth_update_same (j : nat) (x : K) (row : list K) (d : K) :
  (j < length row)%nat -> nth j (np.update j x row) d = x.
Proof.
  revert j. induction row as [|y row IH]; intros [|j] Hj; simpl in *;
    try lia; [reflexivity|]. apply IH. lia.
Qed.

Lemma nth_update_other (j j' : nat) (x : K) (row : list K) (d : K) :
  j <> j' -> nth j' (np.update j x row) d = nth j' row d.
Proof.
  revert j j'. induction row as [|y row IH]; intros [|j] [|j'] Hj; simpl;
    try reflexivity; try congruence. apply IH. congruence.
Qed.

Lemma length_update (j : nat) (x : K) (row : list K) :
  length (np.update j x row) = length row.
Proof.
  revert j. induction row as [|y row IH]; intros [|j]; simpl; try reflexivity.
  now rewrite IH.
Qed.

Lemma col_set_col_same (j : nat) (v : list K) (M : list (list K)) :
  length v = length M -> Forall (fun row => (j < length row)%nat) M ->
  np.col j (np.set_col j v M) = v.
Proof.
  revert v. induction M as [|row M IH]; intros [|x v] Hl HM; simpl in *;
    try reflexivity; try discriminate.
  inversion HM; subst. f_equal.
  - now apply nth_update_same.
  - apply IH; [congruence|assumption].
Qed.

Lemma col_set_col_other (j j' : nat) (v : list K) (M : list (list K)) :
  j <> j' -> np.col j' (np.set_col j v M) = np.col j' M.
Proof.
  intros Hj. revert v. induction M as [|row M IH]; intros [|x v]; simpl;
    try reflexivity.
  f_equal; [now apply nth_update_other|apply IH].
Qed.

Lemma shape_set_col (n m j : nat) (v : list K) (M : list (list K)) :
  shape n m M -> shape n m (np.set_col j v M).
Proof.
  intros [Hn Hm]. subst n. revert v.
  induction M as [|row M IH]; intros [|x v]; simpl; try (split; [reflexivity|assumption]).
  inversion Hm; subst. destruct (IH H2 v) as [Hl Hf]. split.
  - simpl. now rewrite Hl.
  - constructor; [now rewrite length_update|assumption].
Qed.

Lemma length_col (j : nat) (M : list (list K)) : length (np.col j M) = length M.
Proof. apply length_map. Qed.

Lemma ncols_shape (n m : nat) (M : list (list K)) :
  shape n m M -> (1 <= n)%nat -> np.ncols M = m.
Proof.
  intros [Hn Hm] H1. unfold np.ncols. destruct M as [|row M]; simpl in *; [lia|].
  now inversion Hm.
Qed.

Lemma row_transpose (i : nat) (M : list (list K)) :
  (i < np.ncols M)%nat -> nth i (np.transpose M) [] = np.col i M.
Proof.
  intros Hi. unfold np.transpose.
  exact (nth_map_seq (fun j => np.col j M) [] Hi).
Qed.

Lemma length_transpose (M : list (list K)) : length (np.transpose M) = np.ncols M.
Proof. unfold np.transpose. now rewrite length_map, length_seq. Qed.

Lemma entry_dot (A B : list (list K)) (i j : nat) :
  (i < length A)%nat -> (j < np.ncols B)%nat ->
  np.entry (np.dot A B) i j = np.vdot (nth i A []) (np.col j B).
Proof.
  intros Hi Hj. unfold np.entry, np.dot.
  rewrite (nth_indep _ [] ((fun row => map (fun j => np.vdot row (np.col j B))
                                           (seq 0 (np.ncols B))) []))
    by (now rewrite length_map).
  rewrite (map_nth (fun row => map (fun j => np.vdot row (np.col j B))
                                   (seq 0 (np.ncols B)))).
  exact (nth_map_seq (fun j => np.vdot (nth i A []) (np.col j B)) k0 Hj).
Qed.

Lemma entry_eye (d i j : nat) :
  (i < d)%nat -> (j < d)%nat ->
  np.entry (np.eye d) i j = if Nat.eqb i j then k1 else k0.
Proof.
  intros Hi Hj. unfold np.entry, np.eye.
  rewrite (nth_map_seq (fun i => map (fun j => if Nat.eqb i j then k1 else k0)
                                     (seq 0 d)) [] Hi).
  exact (nth_map_seq (fun j => if Nat.eqb i j then k1 else k0) k0 Hj).
Qed.

Lemma col_firstn (m j : nat) (M : list (list K)) :
  (j < m)%nat -> np.col j (map (firstn m) M) = np.col j M.
Proof.
  intros Hj. unfold np.col. rewrite map_map. apply map_ext. intros row.
  rewrite nth_firstn. apply Nat.ltb_lt in Hj. now rewrite Hj.
Qed.

Lemma shape_firstn (n d m : nat) (M : list (list K)) :
  shape n d M -> (m <= d)%nat -> shape n m (map (firstn m) M).
Proof.
  intros [Hn Hd] Hm. split; [now rewrite length_map|].
  apply Forall_forall. intros row' Hin. apply in_map_iff in Hin.
  destruct Hin as (row & <- & Hin). rewrite Forall_forall in Hd.
  rewrite length_firstn, (Hd row Hin). lia.
Qed.

Lemma slice_rows (n d : nat) (k : Z) (M : list (list K)) :
  shape n d M -> map (Py.slice_to k) M = map (firstn (Py.stop d k)) M.
Proof.
  intros [Hn Hd]. apply map_ext_in. intros row Hin.
  rewrite Forall_forall in Hd. unfold Py.slice_to. now rewrite (Hd row Hin).
Qed.

Lemma firstn_rows_all (n d : nat) (M : list (list K)) :
  shape n d M -> map (firstn d) M = M.
Proof.
  intros [Hn Hd]. rewrite <- (map_id M) at 2. apply map_ext_in. intros row Hin.
  rewrite Forall_forall in Hd. apply firstn_all2. rewrite (Hd row Hin). lia.
Qed.

End ArrayFacts.

Section StandardNorm.

Context {K : Type} {SK : Scalar K}.
Hypothesis K_field : field_theory k0 k1 kadd kmul ksub kopp kdiv kinv (@eq K).
Variable eig : list (list R) -> list complex * list (list K).
Variable solve : list (list K) -> list (list K) -> option (list (list K)).
Variable solve_vector : list (list K) -> list K -> option (list K).
Variable is_reversible : list (list R) -> bool.

Add Field K_field_standard : K_field.

Local Abbreviation delta := (fun i j : nat => if Nat.eqb i j then k1 else k0).

(** The rescaling of the first column of [R] and of the first column of [L]. *)
Lemma rescale_first_pair (d : nat) (R0 L : list (list K)) :
  (1 <= d)%nat -> shape d d R0 -> shape d d L ->
  (forall a b, (a < d)%nat -> (b < d)%nat ->
     np.vdot (np.col a L) (np.col b R0) = delta a b) ->
  let c := np.sum (np.col 0 L) in
  c <> k0 ->
  let R' := np.set_col 0 (np.scale (np.col 0 R0) c) R0 in
  let L' := np.set_col 0 (np.divide (np.col 0 L) c) L in
  (forall a b, (a < d)%nat -> (b < d)%nat ->
     np.vdot (np.col a L') (np.col b R') = delta a b) /\
  np.sum (np.col 0 L') = k1.
Proof.
  intros Hd HR HL Hbi c Hc R' L'.
  assert (HcolR : np.col 0 R' = np.scale (np.col 0 R0) c).
  { apply col_set_col_same.
    - unfold np.scale. now rewrite length_map, length_col.
    - destruct HR as [_ HR]. eapply Forall_impl; [|exact HR]. simpl. intros; lia. }
  assert (HcolL : np.col 0 L' = np.divide (np.col 0 L) c).
  { apply col_set_col_same.
    - unfold np.divide. now rewrite length_map, length_col.
    - destruct HL as [_ HL]. eapply Forall_impl; [|exact HL]. simpl. intros; lia. }
  split.
  - intros a b Ha Hb.
    destruct a as [|a], b as [|b].
    + rewrite HcolR, HcolL, vdot_divide_l, vdot_scale_r by assumption.
      rewrite (Hbi 0%nat 0%nat) by lia. simpl. field. exact Hc.
    + unfold R'. rewrite col_set_col_other by lia.
      rewrite HcolL, vdot_divide_l by assumption.
      rewrite (Hbi 0%nat (S b)) by lia. simpl. field. exact Hc.
    + unfold L'. rewrite col_set_col_other by lia.
      rewrite HcolR, vdot_scale_r by assumption.
      rewrite (Hbi (S a) 0%nat) by lia. simpl. ring.
    + unfold R', L'. rewrite !col_set_col_other by lia. now apply Hbi.
  - rewrite HcolL, sum_divide by assumption. fold c. field. exact Hc.
Qed.

(** What the solver's answer says of the columns of [R] and [L]. *)
Lemma solved_columns (d : nat) (R0 L : list (list K)) :
  (1 <= d)%nat -> shape d d R0 -> shape d d L ->
  np.dot (np.transpose R0) L = np.eye d ->
  forall a b, (a < d)%nat -> (b < d)%nat ->
    np.vdot (np.col a L) (np.col b R0) = delta a b.
Proof.
  intros Hd HR HL Hdot a b Ha Hb.
  assert (HnR : np.ncols R0 = d) by (eapply ncols_shape; eassumption).
  assert (HnL : np.ncols L = d) by (eapply ncols_shape; eassumption).
  assert (E : np.entry (np.dot (np.transpose R0) L) b a = np.entry (np.eye d) b a)
    by now rewrite Hdot.
  rewrite entry_dot in E by (rewrite ?length_transpose; lia).
  rewrite row_transpose in E by lia.
  rewrite entry_eye in E by assumption.
  rewrite vdot_comm by assumption. rewrite E.
  rewrite Nat.eqb_sym. reflexivity.
Qed.

(** The product of the rows kept of [L] and the columns kept of [R]. *)
Lemma kept_product (d m : nat) (R' L' : list (list K)) :
  (1 <= d)%nat -> (m <= d)%nat -> shape d d R' -> shape d d L' ->
  forall i j, (i < m)%nat -> (j < m)%nat ->
    np.entry (np.dot (np.transpose (map (firstn m) L')) (map (firstn m) R')) i j
    = np.vdot (np.col i L') (np.col j R').
Proof.
  intros Hd Hm HR HL i j Hi Hj.
  assert (HnR : np.ncols (map (firstn m) R') = m)
    by (eapply ncols_shape; [eapply shape_firstn; eassumption|assumption]).
  assert (HnL : np.ncols (map (firstn m) L') = m)
    by (eapply ncols_shape; [eapply shape_firstn; eassumption|assumption]).
  rewrite entry_dot by (rewrite ?length_transpose; lia).
  rewrite row_transpose by lia.
  now rewrite !col_firstn by assumption.
Qed.

Lemma rdl_standard_unfold (T : list (list R)) (k : option Z)
  (w : list complex) (R0 L : list (list K)) :
  sorted_eig eig T = (w, R0) ->
  solve (np.transpose R0) (np.eye (length T)) = Some L ->
  let c := np.sum (np.col 0 L) in
  let R' := np.set_col 0 (np.scale (np.col 0 R0) c) R0 in
  let L' := np.set_col 0 (np.divide (np.col 0 L) c) L in
  rdl_decomposition eig solve solve_vector is_reversible T k "standard" =
    Ok match k with
       | None => (R', np.diag (RtoC 0) w, np.transpose L')
       | Some k => (map (Py.slice_to k) R',
                    map (Py.slice_to k) (Py.slice_to k (np.diag (RtoC 0) w)),
                    np.transpose (map (Py.slice_to k) L'))
       end.
Proof.
  unfold sorted_eig, rdl_decomposition. destruct (eig T) as [w0 R00].
  intros E Hs. injection E as <- <-. simpl. rewrite Hs. now destruct k.
Qed.

(** X22. With the norm 'standard', when the solver answers with [L] such
    that [R^T L] is the identity and the sum of the first column of [L] is
    not zero, the triple returned has [L R] the identity, and the first row
    of [L] sums to one: the rescaling of the first pair by the sum and its
    inverse keeps the products of the rows of [L] and the columns of [R]. *)
Theorem rdl_standard_left_right_identity :
  forall (T : list (list R)) (k : option Z) (w : list complex)
         (R0 L : list (list K)),
    let d := length T in
    (1 <= d)%nat ->
    sorted_eig eig T = (w, R0) ->
    shape d d R0 ->
    solve (np.transpose R0) (np.eye d) = Some L ->
    shape d d L ->
    np.dot (np.transpose R0) L = np.eye d ->
    np.sum (np.col 0 L) <> k0 ->
    exists R' D L',
      rdl_decomposition eig solve solve_vector is_reversible T k "standard"
        = Ok (R', D, L') /\
      let m := kept d k in
      (forall i j, (i < m)%nat -> (j < m)%nat ->
         np.entry (np.dot L' R') i j = if Nat.eqb i j then k1 else k0) /\
      ((1 <= m)%nat -> np.sum (nth 0 L' []) = k1).
Proof.
  intros T k w R0 L d Hd Heig HR Hsolve HL Hdot Hc.
  pose proof (solved_columns Hd HR HL Hdot) as Hbi.
  destruct (rescale_first_pair Hd HR HL Hbi Hc) as [Hbi' Hsum].
  set (c := np.sum (np.col 0 L)) in *.
  set (R' := np.set_col 0 (np.scale (np.col 0 R0) c) R0) in *.
  set (L' := np.set_col 0 (np.divide (np.col 0 L) c) L) in *.
  assert (HR' : shape d d R') by (now apply shape_set_col).
  assert (HL' : shape d d L') by (now apply shape_set_col).
  assert (Hres : rdl_decomposition eig solve solve_vector is_reversible T k "standard"
                 = Ok (map (firstn (kept d k)) R',
                       match k with
                       | None => np.diag (RtoC 0) w
                       | Some k => map (Py.slice_to k) (Py.slice_to k (np.diag (RtoC 0) w))
                       end,
                       np.transpose (map (firstn (kept d k)) L'))).
  { rewrite (@rdl_standard_unfold T k w R0 L Heig Hsolve). fold c R' L'.
    destruct k as [k|]; simpl.
    - now rewrite (slice_rows k HR'), (slice_rows k HL').
    - now rewrite (firstn_rows_all HR'), (firstn_rows_all HL'). }
  assert (Hm : (kept d k <= d)%nat).
  { destruct k as [k|]; simpl; [apply stop_le|lia]. }
  do 3 eexists. split; [exact Hres|]. cbv zeta. split.
  - intros i j Hi Hj. rewrite (kept_product Hd Hm HR' HL') by assumption.
    apply Hbi'; lia.
  - intros H1.
    assert (HnL : np.ncols (map (firstn (kept d k)) L') = kept d k)
      by (eapply ncols_shape; [eapply shape_firstn; eassumption|assumption]).
    rewrite row_transpose by lia. rewrite col_firstn by lia. exact Hsum.
Qed.

End StandardNorm.

(** ** The sort of eigenvalues that are in decreasing order already *)

Lemma insert_last (p : R * nat) (l : list (R * nat)) :
  Forall (fun q => fst q < fst p) l -> np.insert np.Rleb p l = l ++ [p].
Proof.
  induction 1 as [|q l Hq _ IH]; simpl; [reflexivity|].
  assert (E : np.Rleb (fst p) (fst q) = false) by (now apply Rleb_false).
  now rewrite E, IH.
Qed.

Lemma sort_decreasing (keys : list R) :
  StronglySorted (fun x y => y < x) keys ->
  forall s, fold_right (np.insert np.Rleb) [] (combine keys (seq s (length keys)))
            = rev (combine keys (seq s (length keys))).
Proof.
  induction 1 as [|x keys Hs IH Hall]; intros s; simpl; [reflexivity|].
  rewrite IH. apply insert_last.
  apply Forall_forall. intros q Hq. rewrite <- in_rev in Hq.
  destruct q as [y i]. apply in_combine_l in Hq. simpl.
  rewrite Forall_forall in Hall. now apply Hall.
Qed.

Lemma argsort_decreasing (keys : list R) :
  StronglySorted (fun x y => y < x) keys ->
  rev (np.argsort np.Rleb keys) = seq 0 (length keys).
Proof.
  intros Hs. unfold np.argsort, np.enumerate.
  rewrite (sort_decreasing Hs), map_rev, rev_involutive.
  assert (H : forall (l : list R) (s : list nat),
             length l = length s -> map snd (combine l s) = s).
  { induction l as [|x l IH]; intros [|y s] Hl; simpl in *; try congruence.
    f_equal. apply IH. congruence. }
  apply H. now rewrite length_seq.
Qed.

Lemma take_all {A : Type} (a : list A) : np.take a (seq 0 (length a)) = a.
Proof.
  assert (H : forall pre l : list A,
             np.take (pre ++ l) (seq (length pre) (length l)) = l).
  { intros pre l. revert pre. induction l as [|x l IH]; intros pre; simpl;
      [reflexivity|].
    rewrite nth_error_app2 by lia. rewrite Nat.sub_diag. simpl. f_equal.
    specialize (IH (pre ++ [x])). rewrite <- app_assoc, length_app in IH.
    simpl in IH. rewrite Nat.add_1_r in IH. exact IH. }
  exact (H [] a).
Qed.

Lemma take_cols_all {A : Type} (d : nat) (M : list (list A)) :
  Forall (fun row => length row = d) M -> np.take_cols M (seq 0 d) = M.
Proof.
  intros HM. unfold np.take_cols. rewrite <- (map_id M) at 2.
  apply map_ext_in. intros row Hin. rewrite Forall_forall in HM.
  rewrite <- (HM row Hin). apply take_all.
Qed.

Lemma sorted_eig_decreasing {K : Type}
  (eig : list (list R) -> list complex * list (list K))
  (T : list (list R)) (w : list complex) (V : list (list K)) :
  eig T = (w, V) ->
  StronglySorted (fun x y => y < x) (map Cabs w) ->
  Forall (fun row => length row = length w) V ->
  sorted_eig eig T = (w, V).
Proof.
  intros E Hs HV. unfold sorted_eig. rewrite E.
  rewrite (argsort_decreasing Hs), length_map.
  now rewrite take_all, (take_cols_all HV).
Qed.

(** ** The chain of three states *)

Lemma w3_decreasing : StronglySorted (fun x y => y < x) (map Cabs Example.w3).
Proof.
  unfold Example.w3. cbn [map]. rewrite !Cabs_RtoC.
  rewrite !Rabs_pos_eq by lra.
  repeat constructor; lra.
Qed.

Lemma sorted_eig3 : sorted_eig Example.eig3 Example.T3 = (Example.w3, Example.R3).
Proof.
  apply sorted_eig_decreasing; [reflexivity|apply w3_decreasing|].
  repeat constructor.
Qed.

Lemma sqrt2_neq_0 : sqrt 2 <> 0.
Proof. assert (0 < sqrt 2) by (apply sqrt_lt_R0; lra). lra. Qed.

Lemma sqrt3_neq_0 : sqrt 3 <> 0.
Proof. assert (0 < sqrt 3) by (apply sqrt_lt_R0; lra). lra. Qed.

Lemma L3_inverse :
  np.dot (np.transpose Example.R3) Example.L3 = np.eye 3.
Proof.
  pose proof sqrt2_neq_0. pose proof sqrt3_neq_0.
  unfold Example.R3, Example.L3.
  cbv [np.dot np.transpose np.eye np.col np.ncols np.vdot np.sum np.map2
       map seq hd length nth fold_right Nat.eqb kadd kmul k0 k1 float64].
  repeat (f_equal; try (field; assumption)).
Qed.

Lemma rdl_standard_left_right_identity_witness :
  exists R' D L',
    rdl_decomposition Example.eig3 Example.solve3 Example.solve_vector0
      Example.is_reversible0 Example.T3 (Some 2%Z) "standard" = Ok (R', D, L') /\
    let m := kept 3 (Some 2%Z) in
    (forall i j, (i < m)%nat -> (j < m)%nat ->
       np.entry (np.dot L' R') i j = if Nat.eqb i j then 1 else 0) /\
    ((1 <= m)%nat -> np.sum (nth 0 L' []) = 1).
Proof.
  apply (@rdl_standard_left_right_identity R float64 Rfield Example.eig3
           Example.solve3 Example.solve_vector0 Example.is_reversible0
           Example.T3 (Some 2%Z) Example.w3 Example.R3 Example.L3).
  - simpl. lia.
  - apply sorted_eig3.
  - split; [reflexivity|repeat constructor].
  - reflexivity.
  - split; [reflexivity|repeat constructor].
  - apply L3_inverse.
  - pose proof sqrt3_neq_0.
    cbv [np.sum np.col map nth fold_right Example.L3 kadd k0 float64].
    assert (0 < sqrt 3) by (apply sqrt_lt_R0; lra). lra.
Defined.

(** ** The norm 'reversible' *)

Lemma length_map2 {A B C : Type} (f : A -> B -> C) (u : list A) (v : list B) :
  length (np.map2 f u v) = Nat.min (length u) (length v).
Proof.
  revert v. induction u as [|x u IH]; intros [|y v]; simpl; try reflexivity.
  now rewrite IH.
Qed.

Lemma nth_map2 {A B C : Type} (f : A -> B -> C) (u : list A) (v : list B)
  (i : nat) (a : A) (b : B) (c : C) :
  (i < length u)%nat -> (i < length v)%nat ->
  nth i (np.map2 f u v) c = f (nth i u a) (nth i v b).
Proof.
  revert v i. induction u as [|x u IH]; intros [|y v] [|i] Hu Hv; simpl in *;
    try lia; [reflexivity|]. apply IH; lia.
Qed.

Section ReversibleFacts.

Context {K : Type} {SK : Scalar K}.
Hypothesis K_field : field_theory k0 k1 kadd kmul ksub kopp kdiv kinv (@eq K).

Add Field K_field_reversible : K_field.

Lemma vdot_divide_r (u v : list K) (c : K) :
  np.vdot u (np.divide v c) = kdiv (np.vdot u v) c.
Proof.
  rewrite (vdot_comm K_field), (vdot_divide_l K_field). f_equal.
  apply (vdot_comm K_field).
Qed.

Lemma shape_weighted (d : nat) (mu : list K) (R1 : list (list K)) :
  length mu = d -> shape d d R1 -> shape d d (weighted mu R1).
Proof.
  intros Hmu [Hn Hd]. unfold weighted. split.
  - rewrite length_map2. lia.
  - clear Hmu Hn. revert mu.
    induction Hd as [|row R1 Hrow _ IH]; intros [|x mu]; simpl; constructor.
    + unfold np.times. now rewrite length_map.
    + apply IH.
Qed.

Lemma entry_weighted (d : nat) (mu : list K) (R1 : list (list K)) (a i : nat) :
  length mu = d -> shape d d R1 -> (a < d)%nat -> (i < d)%nat ->
  np.entry (weighted mu R1) a i = kmul (nth a mu k0) (np.entry R1 a i).
Proof.
  intros Hmu [Hn Hd] Ha Hi. unfold np.entry, weighted.
  rewrite (nth_map2 np.times mu R1 k0 [] []) by lia.
  unfold np.times.
  assert (Hrow : length (nth a R1 []) = d).
  { rewrite Forall_forall in Hd. apply Hd. apply nth_In. lia. }
  rewrite (nth_indep _ k0 (kmul (nth a mu k0) k0)) by (rewrite length_map; lia).
  now rewrite (map_nth (fun x => kmul (nth a mu k0) x)).
Qed.

Lemma shape_divide_columns (d : nat) (M : list (list K)) (s : list K) :
  length s = d -> shape d d M -> shape d d (divide_columns M s).
Proof.
  intros Hs [Hn Hd]. unfold divide_columns. split; [now rewrite length_map|].
  apply Forall_forall. intros row' Hin. apply in_map_iff in Hin.
  destruct Hin as (row & <- & Hin). rewrite Forall_forall in Hd.
  rewrite length_map2, (Hd row Hin). lia.
Qed.

Lemma col_divide_columns (d : nat) (M : list (list K)) (s : list K) (j : nat) :
  length s = d -> shape d d M -> (j < d)%nat ->
  np.col j (divide_columns M s) = np.divide (np.col j M) (nth j s k0).
Proof.
  intros Hs [Hn Hd] Hj. unfold np.col, divide_columns, np.divide.
  rewrite !map_map. apply map_ext_in. intros row Hin.
  rewrite Forall_forall in Hd.
  apply nth_map2; [rewrite (Hd row Hin)|]; lia.
Qed.

Lemma entry_col (M : list (list K)) (a j : nat) :
  (a < length M)%nat -> nth a (np.col j M) k0 = np.entry M a j.
Proof.
  intros Ha. unfold np.col, np.entry.
  rewrite (nth_indep _ k0 ((fun row => nth j row k0) [])) by (now rewrite length_map).
  rewrite (map_nth (fun row => nth j row k0)). reflexivity.
Qed.

Lemma diagonal_overlap (d : nat) (mu : list K) (R1 : list (list K)) :
  (1 <= d)%nat -> length mu = d -> shape d d R1 ->
  let s := np.diagonal (np.dot (np.transpose (weighted mu R1)) R1) in
  length s = d /\ forall j, (j < d)%nat -> nth j s k0 = overlap mu R1 j j.
Proof.
  intros Hd Hmu HR s.
  pose proof (@shape_weighted d mu R1 Hmu HR) as HL.
  assert (HnL : np.ncols (weighted mu R1) = d) by (eapply ncols_shape; eassumption).
  assert (HnR : np.ncols R1 = d) by (eapply ncols_shape; eassumption).
  assert (Hlen : length (np.dot (np.transpose (weighted mu R1)) R1) = d).
  { unfold np.dot. now rewrite length_map, length_transpose. }
  assert (Hnc : np.ncols (np.dot (np.transpose (weighted mu R1)) R1) = d).
  { unfold np.ncols, np.dot, np.transpose. rewrite HnL, HnR.
    destruct d as [|d]; [lia|]. simpl. now rewrite length_map, length_seq. }
  unfold s, np.diagonal. rewrite Hlen, Hnc, Nat.min_id. split.
  - now rewrite length_map, length_seq.
  - intros j Hj.
    rewrite (nth_map_seq (fun i => nth i (nth i (np.dot (np.transpose (weighted mu R1)) R1) []) k0)
               k0 Hj).
    fold (np.entry (np.dot (np.transpose (weighted mu R1)) R1) j j).
    rewrite entry_dot by (rewrite ?length_transpose; lia).
    rewrite row_transpose by lia. reflexivity.
Qed.

End ReversibleFacts.

Section ReversibleNormTheorem.

Context {K : Type} {SK : Scalar K}.
Hypothesis K_field : field_theory k0 k1 kadd kmul ksub kopp kdiv kinv (@eq K).
Variable eig : list (list R) -> list complex * list (list K).
Variable solve : list (list K) -> list (list K) -> option (list (list K)).
Variable solve_vector : list (list K) -> list K -> option (list K).
Variable is_reversible : list (list R) -> bool.

Add Field K_field_reversible_norm : K_field.

Lemma rdl_reversible_unfold (T : list (list R)) (k : option Z)
  (w : list complex) (R0 : list (list K)) (nu : list K) :
  sorted_eig eig T = (w, R0) ->
  solve_vector (np.transpose R0) (unit_vector (length T)) = Some nu ->
  let mu := np.divide nu (np.sum nu) in
  let R1 := sign_fixed R0 in
  let L1 := weighted mu R1 in
  let s := np.diagonal (np.dot (np.transpose L1) R1) in
  let R2 := divide_columns R1 (map ksqrt s) in
  let L2 := divide_columns L1 (map ksqrt s) in
  rdl_decomposition eig solve solve_vector is_reversible T k "reversible" =
    Ok match k with
       | None => (R2, np.diag (RtoC 0) w, np.transpose L2)
       | Some k => (map (Py.slice_to k) R2,
                    map (Py.slice_to k) (Py.slice_to k (np.diag (RtoC 0) w)),
                    np.transpose (map (Py.slice_to k) L2))
       end.
Proof.
  unfold sorted_eig, rdl_decomposition. destruct (eig T) as [w0 R00].
  intros E Hs. injection E as <- <-.
  unfold unit_vector in Hs. simpl in Hs |- *. rewrite Hs. now destruct k.
Qed.

(** The triple of the norm 'reversible', from the overlaps of the columns. *)
Lemma reversible_entries (d m : nat) (mu : list K) (R1 : list (list K)) :
  (1 <= d)%nat -> (m <= d)%nat -> length mu = d -> shape d d R1 ->
  let L1 := weighted mu R1 in
  let s := np.diagonal (np.dot (np.transpose L1) R1) in
  let R' := map (firstn m) (divide_columns R1 (map ksqrt s)) in
  let L' := np.transpose (map (firstn m) (divide_columns L1 (map ksqrt s))) in
  (forall i a, (i < m)%nat -> (a < d)%nat ->
     np.entry L' i a = kmul (nth a mu k0) (np.entry R' a i)) /\
  (forall i j, (i < m)%nat -> (j < m)%nat ->
     np.entry (np.dot L' R') i j =
       kdiv (kdiv (overlap mu R1 i j) (ksqrt (overlap mu R1 j j)))
            (ksqrt (overlap mu R1 i i))) /\
  (forall a i, (a < d)%nat -> (i < m)%nat ->
     np.entry R' a i = kdiv (np.entry R1 a i) (ksqrt (overlap mu R1 i i))).
Proof.
  intros Hd Hm Hmu HR L1 s R' L'.
  pose proof (@shape_weighted K SK d mu R1 Hmu HR) as HL1. fold L1 in HL1.
  destruct (@diagonal_overlap K SK d mu R1 Hd Hmu HR) as [Hslen Hs].
  fold L1 in Hslen, Hs. fold s in Hslen, Hs.
  assert (Hq : length (map ksqrt s) = d) by (now rewrite length_map).
  assert (Hqn : forall j, (j < d)%nat ->
            nth j (map ksqrt s) k0 = ksqrt (overlap mu R1 j j)).
  { intros j Hj. rewrite (nth_indep _ k0 (ksqrt k0)) by lia.
    rewrite map_nth. now rewrite Hs. }
  pose proof (@shape_divide_columns K SK d R1 (map ksqrt s) Hq HR) as HR2.
  pose proof (@shape_divide_columns K SK d L1 (map ksqrt s) Hq HL1) as HL2.
  set (R2 := divide_columns R1 (map ksqrt s)) in *.
  set (L2 := divide_columns L1 (map ksqrt s)) in *.
  assert (HnL : np.ncols (map (firstn m) L2) = m)
    by (eapply ncols_shape; [eapply shape_firstn; eassumption|assumption]).
  assert (Hdiv : forall (M : list (list K)) a i, shape d d M ->
            (a < d)%nat -> (i < m)%nat ->
            np.entry (map (firstn m) (divide_columns M (map ksqrt s))) a i
            = kdiv (np.entry M a i) (ksqrt (overlap mu R1 i i))).
  { intros M a i HM Ha Hi.
    pose proof (@shape_divide_columns K SK d M (map ksqrt s) Hq HM) as [HM2 _].
    destruct HM as [HMn HMd].
    rewrite <- entry_col by (rewrite length_map; lia).
    rewrite col_firstn by assumption.
    rewrite (@col_divide_columns K SK d M (map ksqrt s) i Hq (conj HMn HMd)) by lia.
    unfold np.divide.
    rewrite (nth_indep _ k0 ((fun x => kdiv x (nth i (map ksqrt s) k0)) k0))
      by (rewrite length_map, length_col; lia).
    rewrite (map_nth (fun x => kdiv x (nth i (map ksqrt s) k0))).
    rewrite entry_col by lia. now rewrite Hqn by lia. }
  split; [|split].
  - intros i a Hi Ha. unfold L'. unfold np.entry at 1.
    rewrite row_transpose by lia.
    rewrite entry_col by (rewrite length_map; destruct HL2; lia).
    unfold R', L2, R2.
    rewrite !Hdiv by assumption.
    unfold L1. rewrite (@entry_weighted K SK d mu R1 a i Hmu HR) by lia.
    rewrite !(kdiv_def K_field). ring.
  - intros i j Hi Hj. unfold L', R'.
    rewrite (@kept_product K SK d m R2 L2 Hd Hm HR2 HL2 i j Hi Hj).
    unfold L2, R2.
    rewrite (@col_divide_columns K SK d L1 (map ksqrt s) i Hq HL1) by lia.
    rewrite (@col_divide_columns K SK d R1 (map ksqrt s) j Hq HR) by lia.
    rewrite (vdot_divide_l K_field), (vdot_divide_r K_field).
    rewrite !Hqn by lia. reflexivity.
  - intros a i Ha Hi. unfold R', R2. now apply Hdiv.
Qed.

(** What [rdl_decomposition] returns with the norm 'reversible'. *)
Lemma rdl_reversible_general (T : list (list R)) (k : option Z)
  (w : list complex) (R0 : list (list K)) (nu : list K) :
  let d := length T in
  (1 <= d)%nat ->
  sorted_eig eig T = (w, R0) ->
  shape d d R0 ->
  solve_vector (np.transpose R0) (unit_vector d) = Some nu ->
  length nu = d ->
  let mu := np.divide nu (np.sum nu) in
  let R1 := sign_fixed R0 in
  exists R' D L',
    rdl_decomposition eig solve solve_vector is_reversible T k "reversible"
      = Ok (R', D, L') /\
    let m := kept d k in
    (forall i a, (i < m)%nat -> (a < d)%nat ->
       np.entry L' i a = kmul (nth a mu k0) (np.entry R' a i)) /\
    (forall i j, (i < m)%nat -> (j < m)%nat ->
       np.entry (np.dot L' R') i j =
         kdiv (kdiv (overlap mu R1 i j) (ksqrt (overlap mu R1 j j)))
              (ksqrt (overlap mu R1 i i))) /\
    (forall a i, (a < d)%nat -> (i < m)%nat ->
       np.entry R' a i = kdiv (np.entry R1 a i) (ksqrt (overlap mu R1 i i))).
Proof.
  intros d Hd Heig HR Hsolve Hnu mu R1.
  assert (Hmu : length mu = d).
  { unfold mu, np.divide. now rewrite length_map. }
  assert (HR1 : shape d d R1) by (now apply shape_set_col).
  assert (Hm : (kept d k <= d)%nat).
  { destruct k as [k|]; simpl; [apply stop_le|lia]. }
  pose proof (@shape_weighted K SK d mu R1 Hmu HR1) as HL1.
  destruct (@diagonal_overlap K SK d mu R1 Hd Hmu HR1) as [Hslen _].
  set (s := np.diagonal (np.dot (np.transpose (weighted mu R1)) R1)) in *.
  assert (Hq : length (map ksqrt s) = d) by (now rewrite length_map).
  pose proof (@shape_divide_columns K SK d R1 (map ksqrt s) Hq HR1) as HR2.
  pose proof (@shape_divide_columns K SK d (weighted mu R1) (map ksqrt s) Hq HL1) as HL2.
  do 3 eexists. split.
  - rewrite (@rdl_reversible_unfold T k w R0 nu Heig Hsolve).
    fold mu R1 s.
    instantiate (1 := np.transpose (map (firstn (kept d k))
                         (divide_columns (weighted mu R1) (map ksqrt s)))).
    instantiate (1 := match k with
                      | None => np.diag (RtoC 0) w
                      | Some k => map (Py.slice_to k) (Py.slice_to k (np.diag (RtoC 0) w))
                      end).
    instantiate (1 := map (firstn (kept d k)) (divide_columns R1 (map ksqrt s))).
    destruct k as [k|]; simpl.
    + now rewrite (slice_rows k HR2), (slice_rows k HL2).
    + now rewrite (firstn_rows_all HR2), (firstn_rows_all HL2).
  - cbv zeta. apply (@reversible_entries d (kept d k) mu R1); assumption.
Qed.

(** With the norm 'reversible', when the overlaps
    [s_j = sum_a mu_a R_aj^2] have square roots that are not zero and the
    columns of [R] are orthogonal for the weights [mu]
    ([sum_a mu_a R_ai R_aj = 0] for [i <> j]), the triple returned has
    [L = diag(mu) R], with [mu] the l1-normalised answer of the solver to
    [R^T nu = e_0], and [L^T R] the identity. *)
Theorem rdl_reversible_orthonormal :
  forall (T : list (list R)) (k : option Z) (w : list complex)
         (R0 : list (list K)) (nu : list K),
    let d := length T in
    (1 <= d)%nat ->
    sorted_eig eig T = (w, R0) ->
    shape d d R0 ->
    solve_vector (np.transpose R0) (unit_vector d) = Some nu ->
    length nu = d ->
    let mu := np.divide nu (np.sum nu) in
    let R1 := sign_fixed R0 in
    (forall j, (j < d)%nat ->
       overlap mu R1 j j <> k0 /\
       kmul (ksqrt (overlap mu R1 j j)) (ksqrt (overlap mu R1 j j))
         = overlap mu R1 j j) ->
    (forall i j, (i < d)%nat -> (j < d)%nat -> i <> j -> overlap mu R1 i j = k0) ->
    exists R' D L',
      rdl_decomposition eig solve solve_vector is_reversible T k "reversible"
        = Ok (R', D, L') /\
      let m := kept d k in
      (forall i a, (i < m)%nat -> (a < d)%nat ->
         np.entry L' i a = kmul (nth a mu k0) (np.entry R' a i)) /\
      (forall i j, (i < m)%nat -> (j < m)%nat ->
         np.entry (np.dot L' R') i j = if Nat.eqb i j then k1 else k0).
Proof.
  intros T k w R0 nu d Hd Heig HR Hsolve Hnu mu R1 Hdiag Hoff.
  destruct (@rdl_reversible_general T k w R0 nu Hd Heig HR Hsolve Hnu)
    as (R' & D & L' & Hres & Hentries & Hprod & _).
  fold d mu R1 in Hentries, Hprod.
  assert (Hm : (kept d k <= d)%nat).
  { destruct k as [k|]; simpl; [apply stop_le|lia]. }
  exists R', D, L'. split; [exact Hres|]. split; [exact Hentries|].
  intros i j Hi Hj. rewrite (Hprod i j Hi Hj).
  destruct (Nat.eqb_spec i j) as [->|Hij].
  - destruct (Hdiag j ltac:(lia)) as [Hne Hsq].
    assert (Hq0 : ksqrt (overlap mu R1 j j) <> k0).
    { intros E. rewrite E in Hsq. apply Hne. rewrite <- Hsq. ring. }
    set (o := overlap mu R1 j j) in *. set (q := ksqrt o) in *.
    rewrite <- Hsq. field. exact Hq0.
  - rewrite (Hoff i j) by lia. rewrite !(kdiv_def K_field). ring.
Qed.

End ReversibleNormTheorem.

(** ** The norm 'reversible' on the examples *)

Lemma Rsign_pos (x : R) : 0 < x -> Rsign x = 1.
Proof. intros H. unfold Rsign. destruct (Rlt_dec 0 x); [reflexivity|contradiction]. Qed.

Lemma Rsign_0 : Rsign 0 = 0.
Proof.
  unfold Rsign. destruct (Rlt_dec 0 0) as [H|_]; [lra|].
  destruct (Rlt_dec 0 0) as [H|_]; [lra|reflexivity].
Qed.

Lemma sqrt5_neq_0 : sqrt 5 <> 0.
Proof. assert (0 < sqrt 5) by (apply sqrt_lt_R0; lra). lra. Qed.

Lemma inv_sqrt_sq (x : R) : 0 < x -> / sqrt x * / sqrt x = / x.
Proof.
  intros Hx. rewrite <- Rinv_mult. now rewrite sqrt_sqrt by lra.
Qed.

Lemma w2_decreasing : StronglySorted (fun x y => y < x) (map Cabs Example.w2).
Proof.
  unfold Example.w2. cbn [map]. rewrite !Cabs_RtoC.
  rewrite !Rabs_pos_eq by lra.
  repeat constructor; lra.
Qed.

Lemma sorted_eig2 : sorted_eig Example.eig2 Example.T2 = (Example.w2, Example.R2).
Proof.
  apply sorted_eig_decreasing; [reflexivity|apply w2_decreasing|].
  repeat constructor.
Qed.

Lemma sign_fixed_R2 : sign_fixed Example.R2 = Example.R2.
Proof.
  unfold sign_fixed, np.entry, Example.R2. cbn [nth ksign float64].
  rewrite Rsign_pos by (apply Rinv_0_lt_compat, sqrt_lt_R0; lra).
  cbv [np.set_col np.divide np.col np.update map nth kdiv float64].
  pose proof sqrt2_neq_0. repeat (f_equal; try (field; assumption)).
Qed.

Lemma mu2 : np.divide Example.nu2 (np.sum Example.nu2) = [1 / 3; 2 / 3].
Proof.
  assert (Hsum : np.sum Example.nu2 = sqrt 2).
  { cbv [np.sum Example.nu2 fold_right kadd k0 float64]. field. }
  rewrite Hsum.
  cbv [np.divide Example.nu2 map kdiv float64].
  pose proof sqrt2_neq_0. repeat (f_equal; try (field; assumption)).
Qed.

Lemma sign_fixed_R3 : sign_fixed Example.R3 = Example.R3.
Proof.
  unfold sign_fixed, np.entry, Example.R3. cbn [nth ksign float64].
  rewrite Rsign_pos by (apply Rinv_0_lt_compat, sqrt_lt_R0; lra).
  cbv [np.set_col np.divide np.col np.update map nth kdiv float64].
  pose proof sqrt3_neq_0. repeat (f_equal; try (field; assumption)).
Qed.

Lemma mu3 : np.divide Example.nu3 (np.sum Example.nu3) = [1 / 3; 1 / 3; 1 / 3].
Proof.
  pose proof sqrt3_neq_0.
  assert (Hsum : np.sum Example.nu3 = 3 / sqrt 3).
  { cbv [np.sum Example.nu3 fold_right kadd k0 float64]. now field. }
  rewrite Hsum.
  cbv [np.divide Example.nu3 map kdiv float64].
  repeat (f_equal; try (field; assumption)).
Qed.

Ltac overlap_unfold :=
  cbv [overlap weighted np.vdot np.sum np.col np.map2 np.times map nth
       fold_right Example.R2 Example.R3 kadd kmul k0 float64].

Lemma overlaps2 :
  overlap [1 / 3; 2 / 3] Example.R2 0 0 = 1 / 2 /\
  overlap [1 / 3; 2 / 3] Example.R2 1 1 = 2 / 5 /\
  overlap [1 / 3; 2 / 3] Example.R2 0 1 = 0 /\
  overlap [1 / 3; 2 / 3] Example.R2 1 0 = 0.
Proof.
  pose proof (inv_sqrt_sq (x := 2) ltac:(lra)) as H2.
  pose proof (inv_sqrt_sq (x := 5) ltac:(lra)) as H5.
  overlap_unfold. unfold Rdiv.
  set (a := / sqrt 2) in *. set (b := / sqrt 5) in *.
  repeat split; nra.
Qed.

Lemma overlaps3 :
  overlap [1 / 3; 1 / 3; 1 / 3] Example.R3 1 1 = 1 / 3 /\
  overlap [1 / 3; 1 / 3; 1 / 3] Example.R3 2 2 = 1 / 3 /\
  overlap [1 / 3; 1 / 3; 1 / 3] Example.R3 1 2 = - (1 / 6).
Proof.
  pose proof (inv_sqrt_sq (x := 2) ltac:(lra)) as H2.
  overlap_unfold.
  set (a := / sqrt 2) in *.
  repeat split; nra.
Qed.

Lemma rdl_reversible_orthonormal_witness :
  exists R' D L',
    rdl_decomposition Example.eig2 Example.solve0 Example.solve_vector2
      Example.is_reversible0 Example.T2 None "reversible" = Ok (R', D, L') /\
    let m := kept 2 None in
    (forall i a, (i < m)%nat -> (a < 2)%nat ->
       np.entry L' i a =
         nth a (np.divide Example.nu2 (np.sum Example.nu2)) 0 * np.entry R' a i) /\
    (forall i j, (i < m)%nat -> (j < m)%nat ->
       np.entry (np.dot L' R') i j = if Nat.eqb i j then 1 else 0).
Proof.
  destruct overlaps2 as (H00 & H11 & H01 & H10).
  apply (@rdl_reversible_orthonormal R float64 Rfield Example.eig2 Example.solve0
           Example.solve_vector2 Example.is_reversible0
           Example.T2 None Example.w2 Example.R2 Example.nu2).
  - simpl. lia.
  - apply sorted_eig2.
  - split; [reflexivity|repeat constructor].
  - reflexivity.
  - reflexivity.
  - rewrite mu2, sign_fixed_R2. intros j Hj. simpl in Hj.
    destruct j as [|[|j]]; [rewrite H00|rewrite H11|lia];
      (split; [cbn [k0 float64]; lra|cbn [kmul ksqrt float64]; apply sqrt_sqrt; lra]).
  - rewrite mu2, sign_fixed_R2. intros i j Hi Hj Hij. simpl in Hi, Hj.
    destruct i as [|[|i]], j as [|[|j]]; try lia; assumption.
Defined.

Lemma Rleb_refl (x : R) : np.Rleb x x = true.
Proof. apply Rleb_true. lra. Qed.

Lemma sorted_eigI :
  sorted_eig Example.eigI Example.I2 = (Example.wI, [[0; 1]; [1; 0]]).
Proof.
  unfold sorted_eig, Example.eigI, Example.wI, np.argsort, np.enumerate.
  cbn [map length seq combine fold_right np.insert fst].
  rewrite Rleb_refl. reflexivity.
Qed.

(** The products of the norm 'reversible' at two chains: for the chain of
    three states, which is not reversible, the product of [L] and [R] has
    -1/2 in the row 1 and the column 2; for the chain of two states that
    never moves the second overlap is 0, and the product has not 1 in the
    row 1 and the column 1. *)
Lemma rdl_reversible_products :
  (exists R' D L',
     rdl_decomposition Example.eig3 Example.solve0 Example.solve_vector3
       Example.is_reversible0 Example.T3 None "reversible" = Ok (R', D, L') /\
     np.entry (np.dot L' R') 1 2 = - (1 / 2) /\
     np.entry (np.dot L' R') 1 2 <> (if Nat.eqb 1 2 then 1 else 0)) /\
  (exists R' D L',
     rdl_decomposition Example.eigI Example.solve0 Example.solve_vectorI
       Example.is_reversible0 Example.I2 None "reversible" = Ok (R', D, L') /\
     np.entry (np.dot L' R') 1 1 <> 1).
Proof.
  split.
  - destruct overlaps3 as (H11 & H22 & H12).
    destruct (@rdl_reversible_general R float64 Rfield Example.eig3 Example.solve0
                Example.solve_vector3 Example.is_reversible0
                Example.T3 None Example.w3 Example.R3 Example.nu3)
      as (R' & D & L' & Hres & _ & Hprod & _).
    + simpl. lia.
    + apply sorted_eig3.
    + split; [reflexivity|repeat constructor].
    + reflexivity.
    + reflexivity.
    + exists R', D, L'. split; [exact Hres|].
      assert (E : np.entry (np.dot L' R') 1 2 = - (1 / 2)).
      { rewrite Hprod by (simpl; lia).
        rewrite mu3, sign_fixed_R3, H11, H22, H12.
        cbn [kdiv ksqrt float64].
        assert (Hs : sqrt (1 / 3) * sqrt (1 / 3) = 1 / 3) by (apply sqrt_sqrt; lra).
        assert (Hp : 0 < sqrt (1 / 3)) by (apply sqrt_lt_R0; lra).
        set (q := sqrt (1 / 3)) in *.
        replace (- (1 / 6) / q / q) with (- (1 / 6) / (q * q)) by (field; lra).
        rewrite Hs. lra. }
      split; [exact E|]. rewrite E. simpl. lra.
  - destruct (@rdl_reversible_general R float64 Rfield Example.eigI Example.solve0
                Example.solve_vectorI Example.is_reversible0
                Example.I2 None Example.wI [[0; 1]; [1; 0]] Example.nuI)
      as (R' & D & L' & Hres & _ & Hprod & _).
    + simpl. lia.
    + apply sorted_eigI.
    + split; [reflexivity|repeat constructor].
    + reflexivity.
    + reflexivity.
    + exists R', D, L'. split; [exact Hres|].
      assert (E : np.entry (np.dot L' R') 1 1 = 0).
      { rewrite Hprod by (simpl; lia).
        assert (Ho : overlap (np.divide Example.nuI (np.sum Example.nuI))
                       (sign_fixed [[0; 1]; [1; 0]]) 1 1 = 0).
        { cbv [overlap weighted sign_fixed np.vdot np.sum np.col np.map2 np.times
               np.set_col np.update np.divide np.entry Example.nuI map nth
               fold_right kadd kmul kdiv k0 float64].
          lra. }
        rewrite Ho. cbn [kdiv float64]. unfold Rdiv. ring. }
      rewrite E. lra.
Qed.

(** ** The sign of the first column *)

Lemma Rsign_neg (x : R) : x < 0 -> Rsign x = -1.
Proof.
  intros H. unfold Rsign. destruct (Rlt_dec 0 x); [lra|].
  destruct (Rlt_dec x 0); [reflexivity|contradiction].
Qed.

Lemma div_sign_pos (x : R) : x <> 0 -> 0 < x / Rsign x.
Proof.
  intros Hx. destruct (Rtotal_order x 0) as [H|[H|H]]; [|contradiction|].
  - rewrite Rsign_neg by assumption. lra.
  - rewrite Rsign_pos by assumption. lra.
Qed.

(** The first entry of the first column after the sign is fixed. *)
Lemma sign_fixed_first_entry (d : nat) (R0 : list (list R)) :
  (1 <= d)%nat -> shape d d R0 ->
  np.entry (sign_fixed R0) 0 0 = np.entry R0 0 0 / Rsign (np.entry R0 0 0).
Proof.
  intros Hd [Hn Hrows]. unfold sign_fixed.
  destruct R0 as [|[|x row] R0]; simpl in *; try lia.
  - inversion Hrows; subst. simpl in *. lia.
  - reflexivity.
Qed.

Section FirstEntry.

Variable eig : list (list R) -> list complex * list (list R).
Variable solve : list (list R) -> list (list R) -> option (list (list R)).
Variable solve_vector : list (list R) -> list R -> option (list R).
Variable is_reversible : list (list R) -> bool.

(** X3. With the norm 'reversible', the first entry of [R] is positive when
    the entry the solver gave is not zero and the first overlap is positive. *)
Lemma rdl_reversible_first_entry_positive
  (T : list (list R)) (k : option Z) (w : list complex)
  (R0 : list (list R)) (nu : list R) :
  let d := length T in
  (1 <= d)%nat ->
  sorted_eig eig T = (w, R0) ->
  shape d d R0 ->
  solve_vector (np.transpose R0) (unit_vector d) = Some nu ->
  length nu = d ->
  (1 <= kept d k)%nat ->
  np.entry R0 0 0 <> 0 ->
  0 < overlap (np.divide nu (np.sum nu)) (sign_fixed R0) 0 0 ->
  exists R' D L',
    rdl_decomposition eig solve solve_vector is_reversible T k "reversible"
      = Ok (R', D, L') /\
    0 < np.entry R' 0 0.
Proof.
  intros d Hd Heig HR Hsolve Hnu Hk Hx Ho.
  destruct (@rdl_reversible_general R float64 Rfield eig solve solve_vector
              is_reversible T k w R0 nu Hd Heig HR Hsolve Hnu)
    as (R' & D & L' & Hres & _ & _ & Hentry).
  exists R', D, L'. split; [exact Hres|].
  rewrite Hentry by (fold d; lia).
  rewrite (sign_fixed_first_entry Hd HR).
  cbn [kdiv ksqrt float64].
  apply Rdiv_lt_0_compat; [now apply div_sign_pos|now apply sqrt_lt_R0].
Qed.

End FirstEntry.

Lemma sorted_eigD :
  sorted_eig Example.eigD Example.D2
    = ([RtoC 1; RtoC (1 / 2)], [[0; 1]; [1; 0]]).
Proof.
  unfold sorted_eig, Example.eigD, Example.wD, np.argsort, np.enumerate.
  cbn [map length seq combine fold_right np.insert fst].
  rewrite !Cabs_RtoC, !Rabs_pos_eq by lra.
  replace (np.Rleb (1 / 2) 1) with true by (symmetry; apply Rleb_true; lra).
  reflexivity.
Qed.

(** The first entry of [R] when the sort brings a column with the first
    entry zero to the front. *)
Lemma first_entry_zero
  (eig : list (list R) -> list complex * list (list R))
  (T : list (list R)) (w : list complex) :
  length T = 2%nat ->
  sorted_eig eig T = (w, [[0; 1]; [1; 0]]) ->
  exists R' D L',
    rdl_decomposition eig Example.solve0 Example.solve_vectorI
      Example.is_reversible0 T None "reversible" = Ok (R', D, L') /\
    np.entry R' 0 0 = 0.
Proof.
  intros HT Heig.
  assert (Hsh : shape 2 2 [[0; 1]; [1; 0]])
    by (split; [reflexivity|repeat constructor]).
  destruct (@rdl_reversible_general R float64 Rfield eig Example.solve0
              Example.solve_vectorI Example.is_reversible0
              T None w [[0; 1]; [1; 0]] Example.nuI)
    as (R' & D & L' & Hres & _ & _ & Hentry); rewrite ?HT; try reflexivity;
    try assumption; try lia.
  exists R', D, L'. split; [exact Hres|].
  rewrite HT in Hentry. rewrite Hentry by (simpl; lia).
  rewrite (@sign_fixed_first_entry 2 _ ltac:(lia) Hsh).
  cbn [np.entry nth kdiv float64]. unfold Rdiv. ring.
Qed.

(** C9 at the chain that never moves: the sort by decreasing magnitude
    brings the eigenvector (0,1) first, the sign of its first entry is 0,
    and the first entry of the [R] returned is not positive (the division
    by zero gives 0 here and nan in numpy).  The same happens, without equal
    magnitudes, for the diagonal matrix of 1/2 and 1. *)
Theorem rdl_reversible_identity_chain :
  row_stochastic Example.I2 /\
  np.entry (snd (sorted_eig Example.eigI Example.I2)) 0 0 = 0 /\
  (exists R' D L',
     rdl_decomposition Example.eigI Example.solve0 Example.solve_vectorI
       Example.is_reversible0 Example.I2 None "reversible" = Ok (R', D, L') /\
     np.entry R' 0 0 = 0 /\
     ~ 0 < np.entry R' 0 0) /\
  (exists R' D L',
     rdl_decomposition Example.eigD Example.solve0 Example.solve_vectorI
       Example.is_reversible0 Example.D2 None "reversible" = Ok (R', D, L') /\
     np.entry R' 0 0 = 0 /\
     ~ 0 < np.entry R' 0 0).
Proof.
  split; [|split; [|split]].
  - unfold row_stochastic, Example.I2.
    repeat (apply Forall_cons || apply Forall_nil || split);
      cbv [np.sum fold_right kadd k0 float64 length]; try reflexivity; lra.
  - now rewrite sorted_eigI.
  - destruct (@first_entry_zero Example.eigI Example.I2 Example.wI eq_refl sorted_eigI)
      as (R' & D & L' & Hres & E).
    exists R', D, L'. repeat split; try assumption. rewrite E. lra.
  - destruct (@first_entry_zero Example.eigD Example.D2 _ eq_refl sorted_eigD)
      as (R' & D & L' & Hres & E).
    exists R', D, L'. repeat split; try assumption. rewrite E. lra.
Qed.

(** ** The chain that always moves *)

Lemma sorted_eigflip :
  sorted_eig Example.eigflip Example.Tflip
  = ([RtoC (-1); RtoC 1], [[- / sqrt 2; / sqrt 2]; [/ sqrt 2; / sqrt 2]]).
Proof.
  unfold sorted_eig, Example.eigflip, Example.wflip, np.argsort, np.enumerate.
  cbn [map length seq combine fold_right np.insert fst].
  rewrite !Cabs_RtoC.
  assert (E : Rabs (-1) = 1) by (rewrite Rabs_left by lra; lra).
  rewrite Rabs_R1, E, Rleb_refl. reflexivity.
Qed.

Lemma Tflip_eigenvectors :
  np.matvec Example.Tflip (np.col 0 Example.Rflip)
  = np.scale (np.col 0 Example.Rflip) 1 /\
  np.matvec Example.Tflip (np.col 1 Example.Rflip)
  = np.scale (np.col 1 Example.Rflip) (-1).
Proof.
  cbv [np.matvec np.vdot np.sum np.map2 np.col np.scale map nth fold_right
       Example.Tflip Example.Rflip kadd kmul k0 float64].
  split; repeat (f_equal; try ring).
Qed.

Lemma Lflip_inverse :
  np.dot (np.transpose [[- / sqrt 2; / sqrt 2]; [/ sqrt 2; / sqrt 2]]) Example.Lflip
  = np.eye 2.
Proof.
  pose proof sqrt2_neq_0.
  pose proof (inv_sqrt_sq (x := 2) ltac:(lra)) as H2.
  unfold Example.Lflip.
  cbv [np.dot np.transpose np.eye np.col np.ncols np.vdot np.sum np.map2
       map seq hd length nth fold_right Nat.eqb kadd kmul k0 k1 float64].
  set (a := / sqrt 2) in *.
  repeat (f_equal; try nra).
Qed.

(** C4 at the chain that always moves: its eigenvalues 1 and -1 have one
    magnitude, the sort brings the eigenvalue -1 first, and the left
    eigenvector of -1 that the solver finds sums to zero.  The first column
    of [R] is multiplied by this zero and the first column of [L] divided by
    it (numpy: [inf] and [nan]): in the triple returned the first
    eigenvalue of [D] is -1, the product [L R] has not 1 in its first place
    and the first row of [L] does not sum to one. *)
Theorem rdl_standard_flip_chain :
  row_stochastic Example.Tflip /\
  (np.matvec Example.Tflip (np.col 0 Example.Rflip)
   = np.scale (np.col 0 Example.Rflip) 1 /\
   np.matvec Example.Tflip (np.col 1 Example.Rflip)
   = np.scale (np.col 1 Example.Rflip) (-1)) /\
  (let R0 := snd (sorted_eig Example.eigflip Example.Tflip) in
   fst (sorted_eig Example.eigflip Example.Tflip) = [RtoC (-1); RtoC 1] /\
   Example.solveflip (np.transpose R0) (np.eye 2) = Some Example.Lflip /\
   np.dot (np.transpose R0) Example.Lflip = np.eye 2 /\
   np.sum (np.col 0 Example.Lflip) = 0) /\
  (exists R' D L',
     rdl_decomposition Example.eigflip Example.solveflip Example.solve_vector0
       Example.is_reversible0 Example.Tflip None "standard" = Ok (R', D, L') /\
     np.entry D 0 0 = RtoC (-1) /\
     np.entry (np.dot L' R') 0 0 <> 1 /\
     np.sum (nth 0 L' []) <> 1).
Proof.
  split; [|split; [|split]].
  - unfold row_stochastic, Example.Tflip.
    repeat (apply Forall_cons || apply Forall_nil || split);
      cbv [np.sum fold_right kadd k0 float64 length]; try reflexivity; lra.
  - exact Tflip_eigenvectors.
  - cbv zeta. rewrite sorted_eigflip. cbn [fst snd].
    split; [reflexivity|]. split; [reflexivity|]. split; [exact Lflip_inverse|].
    cbv [np.sum np.col map nth fold_right Example.Lflip kadd k0 float64]. ring.
  - rewrite (@rdl_standard_unfold R float64 Example.eigflip Example.solveflip
               Example.solve_vector0 Example.is_reversible0 Example.Tflip None
               _ _ Example.Lflip sorted_eigflip eq_refl).
    do 3 eexists. split; [reflexivity|]. split; [reflexivity|].
    cbv [np.entry np.dot np.transpose np.set_col np.update np.scale np.divide
         np.col np.ncols np.vdot np.sum np.map2 map seq hd length nth
         fold_right Example.Lflip kadd kmul kdiv k0 float64].
    split.
    + match goal with |- ?x <> 1 => replace x with 0 by (unfold Rdiv; ring) end.
      lra.
    + match goal with |- ?x <> 1 => replace x with 0 by (unfold Rdiv; ring) end.
      lra.
Qed.

(** ** The stationary distribution *)

Section FirstIteration.

Variable LU : Type.
Variable lu_factor : list (list R) -> LU.
Variable lu_solve : LU -> list R -> list R.

(** [backward_iteration] returns after its first solve when the reciprocal
    of the norm of the solution is below the tolerance. *)
Lemma backward_iteration_first (A : list (list R)) (mu : R) (x0 : list R)
  (tol : R) (n : nat) :
  let x := lu_solve (shifted lu_factor A mu) (fst (initial_state x0)) in
  1 / np.linalg_norm x <= tol ->
  backward_iteration lu_factor lu_solve A mu x0 tol (S n)
    = Ok (np.scale x (1 / np.linalg_norm x)).
Proof.
  intros x Hr. apply Rleb_true in Hr.
  unfold x, shifted, shift_matrix, initial_state in *. cbn [fst] in *.
  unfold backward_iteration. cbn [backward_loop]. now rewrite Hr.
Qed.

End FirstIteration.

(** The l1-normalisation forgets a factor that is not zero, and gives a sum
    of one when the sum is not zero. *)
Lemma divide_scale (x : list R) (c : R) :
  c <> 0 ->
  np.divide (np.scale x c) (np.sum (np.scale x c)) = np.divide x (np.sum x).
Proof.
  intros Hc. rewrite (@sum_scale R float64 Rfield). unfold np.divide, np.scale.
  rewrite map_map. apply map_ext. intros a. cbn [kdiv kmul float64].
  destruct (Req_dec (np.sum x) 0) as [E|E].
  - rewrite E. unfold Rdiv. rewrite Rmult_0_l, Rinv_0. ring.
  - field. split; assumption.
Qed.

Lemma sum_divide_one (y : list R) :
  np.sum y <> 0 -> np.sum (np.divide y (np.sum y)) = 1.
Proof.
  intros Hy. rewrite (@sum_divide R float64 Rfield). cbn [kdiv float64]. now field.
Qed.

Lemma lu_solve2_correct (a b c d y1 y2 : R) :
  a * d - b * c <> 0 ->
  np.matvec [[a; b]; [c; d]] (Example.lu_solve2 [[a; b]; [c; d]] [y1; y2]) = [y1; y2].
Proof.
  intros Hdet.
  cbv [np.matvec np.vdot np.sum np.map2 map fold_right Example.lu_solve2
       kadd kmul k0 float64].
  repeat (f_equal; try (field; assumption)).
Qed.

Lemma default_eps_pos : 0 < default_eps.
Proof. unfold default_eps. apply Rdiv_lt_0_compat; [lra|apply pow_lt; lra]. Qed.

Lemma default_eps_tol : default_tol = 10 * default_eps.
Proof.
  unfold default_tol, default_eps.
  change (10 ^ 15) with (10 * 10 ^ 14).
  assert (10 ^ 14 <> 0) by (apply pow_nonzero; lra). now field.
Qed.

Lemma P_absorbing_stochastic (a : R) :
  0 <= a <= 1 -> row_stochastic (Example.P_absorbing a).
Proof.
  intros Ha. unfold row_stochastic, Example.P_absorbing.
  repeat (apply Forall_cons || apply Forall_nil || split);
    cbv [np.sum fold_right kadd k0 float64 length]; try reflexivity; lra.
Qed.

(** C1 at a chain with an absorbing state that is reached with the
    probability 2e-15 in a step: the matrix is a valid transition matrix,
    the backward iteration converges in its first step, and the vector
    returned sums to one but has the entry -1/2. *)
Theorem stationary_distribution_negative_entry :
  let P := Example.P_absorbing (2 * default_eps) in
  row_stochastic P /\
  stationary_distribution_from_backward_iteration
    Example.lu_factor2 Example.lu_solve2 P default_eps = Ok [- (1 / 2); 3 / 2] /\
  ~ Forall (fun x => 0 <= x) [- (1 / 2); 3 / 2].
Proof.
  pose proof default_eps_pos as He. pose proof default_eps_tol as Htol.
  set (e := default_eps) in *.
  intros P. split; [|split].
  - apply P_absorbing_stochastic. unfold e, default_eps.
    assert (H : 2 * (1 / 10 ^ 15) <= 2 * (1 / 10 ^ 1)).
    { apply Rmult_le_compat_l; [lra|]. unfold Rdiv. rewrite !Rmult_1_l.
      apply Rinv_le_contravar; [lra|]. apply Rle_pow; [lra|lia]. }
    fold e in He. unfold e, default_eps in He. simpl in H. lra.
  - unfold stationary_distribution_from_backward_iteration.
    assert (H2 : 0 < sqrt 2) by (apply sqrt_lt_R0; lra).
    assert (H22 : sqrt 2 * sqrt 2 = 2) by (apply sqrt_sqrt; lra).
    assert (Hx : Example.lu_solve2
                   (shifted Example.lu_factor2 (np.transpose P) (1 - e))
                   (fst (initial_state (np.ones (length P))))
                 = [- (/ sqrt 2 / e); 3 * (/ sqrt 2 / e)]).
    { cbv [shifted shift_matrix Example.lu_factor2 np.transpose P Example.P_absorbing np.ncols
           np.col hd length seq map nth np.eye np.times np.map2 Nat.eqb
           initial_state fst np.ones repeat np.scale np.linalg_norm np.sum
           fold_right Example.lu_solve2 kadd kmul k0 k1 float64].
      replace (1 * 1 + (1 * 1 + 0)) with 2 by ring.
      repeat (f_equal; try (field; lra)). }
    assert (Hnorm : 3 * (/ sqrt 2 / e) <=
                    np.linalg_norm [- (/ sqrt 2 / e); 3 * (/ sqrt 2 / e)]).
    { cbv [np.linalg_norm np.sum map fold_right kadd k0 float64].
      set (t := 3 * (/ sqrt 2 / e)).
      assert (Ht : 0 <= t).
      { unfold t. apply Rmult_le_pos; [lra|].
        apply Rlt_le, Rdiv_lt_0_compat; [now apply Rinv_0_lt_compat|assumption]. }
      rewrite <- (sqrt_square t) at 1 by assumption.
      apply sqrt_le_1_alt. nra. }
    assert (Hbig : 1 / default_tol <= 3 * (/ sqrt 2 / e)).
    { rewrite Htol.
      assert (Hs : / 2 <= / sqrt 2).
      { apply Rinv_le_contravar; [assumption|nra]. }
      assert (Hie : 0 < / e) by (now apply Rinv_0_lt_compat).
      unfold Rdiv. rewrite Rinv_mult, Rmult_1_l.
      nra. }
    assert (Htp : 0 < default_tol) by (rewrite Htol; lra).
    assert (Hnp : 0 < np.linalg_norm [- (/ sqrt 2 / e); 3 * (/ sqrt 2 / e)]).
    { eapply Rlt_le_trans; [|exact Hnorm].
      eapply Rlt_le_trans; [|exact Hbig]. now apply Rdiv_lt_0_compat; [lra|]. }
    rewrite (@backward_iteration_first _ Example.lu_factor2 Example.lu_solve2
               (np.transpose P) (1 - e) (np.ones (length P)) default_tol 99).
    + rewrite Hx. cbn [bind]. f_equal.
      rewrite divide_scale.
      * cbv [np.divide np.sum map fold_right kdiv kadd k0 float64].
        repeat (f_equal; try (field; lra)).
      * apply Rgt_not_eq. now apply Rdiv_lt_0_compat; [lra|].
    + rewrite Hx.
      apply Rmult_le_reg_r with
        (np.linalg_norm [- (/ sqrt 2 / e); 3 * (/ sqrt 2 / e)]); [assumption|].
      unfold Rdiv at 1. rewrite Rmult_1_l, Rinv_l by lra.
      apply Rmult_le_reg_l with (/ default_tol); [now apply Rinv_0_lt_compat|].
      rewrite <- Rmult_assoc, Rinv_l, Rmult_1_l, Rmult_1_r by lra.
      unfold Rdiv in Hbig. rewrite Rmult_1_l in Hbig. lra.
  - intros H. inversion H; subst. lra.
Qed.

(** ** The examples are what they are said to be

    The eigenvalues, eigenvectors and solutions the examples give to the
    routines of scipy are eigenpairs and solutions indeed. *)

Ltac compute_arrays :=
  cbv [np.matvec np.vdot np.sum np.map2 np.col np.scale np.transpose np.ncols
       np.update np.zeros unit_vector map nth hd length seq repeat fold_right
       Example.T3 Example.R3 Example.nu3 Example.T2 Example.R2 Example.nu2
       Example.I2 Example.nuI kadd kmul k0 k1 float64].

Lemma T3_stochastic : row_stochastic Example.T3.
Proof.
  unfold row_stochastic, Example.T3.
  repeat (apply Forall_cons || apply Forall_nil || split);
    cbv [np.sum fold_right kadd k0 float64 length]; try reflexivity; lra.
Qed.

Lemma T3_eigenvectors :
  np.matvec Example.T3 (np.col 0 Example.R3) = np.scale (np.col 0 Example.R3) 1 /\
  np.matvec Example.T3 (np.col 1 Example.R3) = np.scale (np.col 1 Example.R3) (1 / 2) /\
  np.matvec Example.T3 (np.col 2 Example.R3) = np.scale (np.col 2 Example.R3) (1 / 4).
Proof.
  pose proof sqrt2_neq_0. pose proof sqrt3_neq_0.
  compute_arrays. repeat split; repeat (f_equal; try (field; assumption)).
Qed.

Lemma nu3_solution :
  np.matvec (np.transpose Example.R3) Example.nu3 = unit_vector 3.
Proof.
  pose proof sqrt2_neq_0. pose proof sqrt3_neq_0.
  pose proof (inv_sqrt_sq (x := 3) ltac:(lra)) as H3.
  compute_arrays. set (a := / sqrt 3) in *. set (b := / sqrt 2) in *.
  repeat (f_equal; try nra).
Qed.

(** The chain of three states is not reversible: the detailed balance fails
    for its stationary distribution (1/3, 1/3, 1/3). *)
Lemma T3_not_reversible :
  np.vdot [1 / 3; 1 / 3; 1 / 3] (np.col 0 Example.T3) = 1 / 3 /\
  np.vdot [1 / 3; 1 / 3; 1 / 3] (np.col 1 Example.T3) = 1 / 3 /\
  np.vdot [1 / 3; 1 / 3; 1 / 3] (np.col 2 Example.T3) = 1 / 3 /\
  1 / 3 * np.entry Example.T3 0 1 <> 1 / 3 * np.entry Example.T3 1 0.
Proof.
  compute_arrays. cbv [np.entry nth]. repeat split; lra.
Qed.

Lemma T2_stochastic : row_stochastic Example.T2.
Proof.
  unfold row_stochastic, Example.T2.
  repeat (apply Forall_cons || apply Forall_nil || split);
    cbv [np.sum fold_right kadd k0 float64 length]; try reflexivity; lra.
Qed.

Lemma T2_eigenvectors :
  np.matvec Example.T2 (np.col 0 Example.R2) = np.scale (np.col 0 Example.R2) 1 /\
  np.matvec Example.T2 (np.col 1 Example.R2) = np.scale (np.col 1 Example.R2) (1 / 4).
Proof.
  pose proof sqrt2_neq_0. pose proof sqrt5_neq_0.
  compute_arrays. repeat split; repeat (f_equal; try (field; assumption)).
Qed.

Lemma nu2_solution :
  np.matvec (np.transpose Example.R2) Example.nu2 = unit_vector 2.
Proof.
  pose proof sqrt2_neq_0. pose proof sqrt5_neq_0.
  compute_arrays. repeat (f_equal; try (field; assumption)).
Qed.

(** The chain of two states is reversible: the detailed balance holds for
    the distribution (1/3, 2/3). *)
Lemma T2_reversible :
  1 / 3 * np.entry Example.T2 0 1 = 2 / 3 * np.entry Example.T2 1 0.
Proof. cbv [np.entry nth Example.T2]. lra. Qed.

Lemma nuI_solution :
  np.matvec (np.transpose [[0; 1]; [1; 0]]) Example.nuI = unit_vector 2.
Proof. compute_arrays. repeat (f_equal; try lra). Qed.

(** C5 at two chains.  The norm 'reversible' divides the columns of [R]
    and [L] by the square roots of the diagonal of [L^T R] and leaves what
    is off the diagonal as it is.  For the chain of three states, whose
    eigenvalues 1, 1/2 and 1/4 differ and which is not reversible, every
    divisor is other than zero and the product of the [L] and [R] returned
    has -1/2 in the row 1 and the column 2, where the identity has 0.  For
    the chain of two states that never moves, which is reversible, an
    overlap of the diagonal is zero and the product has not 1 in the row 1
    and the column 1 (numpy: [nan]). *)
Theorem rdl_reversible_not_orthonormal :
  (row_stochastic Example.T3 /\
   (np.matvec Example.T3 (np.col 0 Example.R3) = np.scale (np.col 0 Example.R3) 1 /\
    np.matvec Example.T3 (np.col 1 Example.R3) = np.scale (np.col 1 Example.R3) (1 / 2) /\
    np.matvec Example.T3 (np.col 2 Example.R3) = np.scale (np.col 2 Example.R3) (1 / 4)) /\
   np.matvec (np.transpose Example.R3) Example.nu3 = unit_vector 3 /\
   exists R' D L',
     rdl_decomposition Example.eig3 Example.solve0 Example.solve_vector3
       Example.is_reversible0 Example.T3 None "reversible" = Ok (R', D, L') /\
     np.entry (np.dot L' R') 1 2 = - (1 / 2)) /\
  (row_stochastic Example.I2 /\
   np.matvec (np.transpose (snd (sorted_eig Example.eigI Example.I2))) Example.nuI
   = unit_vector 2 /\
   exists R' D L',
     rdl_decomposition Example.eigI Example.solve0 Example.solve_vectorI
       Example.is_reversible0 Example.I2 None "reversible" = Ok (R', D, L') /\
     np.entry (np.dot L' R') 1 1 <> 1).
Proof.
  destruct rdl_reversible_products as [(R3' & D3 & L3' & H3 & E3 & _) HI].
  split.
  - split; [exact T3_stochastic|]. split; [exact T3_eigenvectors|].
    split; [exact nu3_solution|]. now exists R3', D3, L3'.
  - split; [|split; [|exact HI]].
    + unfold row_stochastic, Example.I2.
      repeat (apply Forall_cons || apply Forall_nil || split);
        cbv [np.sum fold_right kadd k0 float64 length]; try reflexivity; lra.
    + rewrite sorted_eigI. exact nuI_solution.
Qed.

(** ** The two stationary distributions are normalised *)

Lemma sum_cons (x : R) (v : list R) : np.sum (x :: v) = x + np.sum v.
Proof. reflexivity. Qed.

Lemma sum_nil : np.sum (@nil R) = 0.
Proof. reflexivity. Qed.

Lemma sum_nonneg (v : list R) : Forall (fun x => 0 <= x) v -> 0 <= np.sum v.
Proof.
  induction 1 as [|x v Hx _ IH]; [rewrite sum_nil|rewrite sum_cons]; lra.
Qed.

Lemma sum_pos (v : list R) :
  Forall (fun x => 0 <= x) v -> Exists (fun x => x <> 0) v -> 0 < np.sum v.
Proof.
  intros Hall Hex. induction Hex as [x v Hx|x v _ IH];
    inversion Hall as [|? ? H0 Hv]; subst;
    pose proof (sum_nonneg Hv) as Hs; rewrite sum_cons.
  - lra.
  - specialize (IH Hv). lra.
Qed.

Section EigenvectorPath.

Context {K : Type} {SK : Scalar K}.
Variable eig_left : list (list R) -> list complex * list (list K).

(** X2. The vector of [stationary_distribution_from_eigenvector] has no
    negative entry and sums to one, when the eigenvector it comes from has an
    entry whose absolute value is not zero. *)
Lemma stationary_distribution_from_eigenvector_probability (T : list (list R)) :
  (forall x : K, 0 <= kabs x) ->
  Exists (fun x => kabs x <> 0) (leading_left_eigenvector eig_left T) ->
  let mu := stationary_distribution_from_eigenvector eig_left T in
  Forall (fun x => 0 <= x) mu /\ np.sum mu = 1.
Proof.
  intros Habs Hex mu.
  assert (Hmu : mu = let nu := map kabs (leading_left_eigenvector eig_left T) in
                     np.divide nu (np.sum nu)).
  { unfold mu, stationary_distribution_from_eigenvector, leading_left_eigenvector.
    now destruct (eig_left T). }
  rewrite Hmu. cbv zeta.
  set (nu := map kabs (leading_left_eigenvector eig_left T)).
  assert (Hnn : Forall (fun x => 0 <= x) nu).
  { apply Forall_forall. intros x Hx. apply in_map_iff in Hx.
    destruct Hx as (z & <- & _). apply Habs. }
  assert (Hpos : 0 < np.sum nu).
  { apply sum_pos; [assumption|]. apply Exists_exists in Hex.
    destruct Hex as (z & Hz & Hne). apply Exists_exists.
    exists (kabs z). split; [now apply in_map|assumption]. }
  split.
  - unfold np.divide. apply Forall_forall. intros x Hx. apply in_map_iff in Hx.
    destruct Hx as (z & <- & Hz). rewrite Forall_forall in Hnn.
    cbn [kdiv float64]. apply Rmult_le_pos; [now apply Hnn|].
    apply Rlt_le. now apply Rinv_0_lt_compat.
  - apply sum_divide_one. lra.
Qed.

End EigenvectorPath.

(** ** The backward iteration on a transition matrix

    The columns of [P^T - (1 - eps) I] sum to [eps] when the rows of [P] sum
    to one, so the solution [x] of the first solve has the sum of the
    iterate divided by [eps]; its norm is then at least [1 / eps], and the
    loop ends at its first test. *)

Lemma sum_map_plus {A : Type} (f g : A -> R) (l : list A) :
  np.sum (map (fun i => f i + g i) l) = np.sum (map f l) + np.sum (map g l).
Proof.
  induction l as [|i l IH]; cbn [map]; rewrite ?sum_nil, ?sum_cons; [lra|].
  rewrite IH. lra.
Qed.

Lemma sum_map_minus {A : Type} (f g : A -> R) (l : list A) :
  np.sum (map (fun i => f i - g i) l) = np.sum (map f l) - np.sum (map g l).
Proof.
  induction l as [|i l IH]; cbn [map]; rewrite ?sum_nil, ?sum_cons; [lra|].
  rewrite IH. lra.
Qed.

Lemma sum_map_scale {A : Type} (c : R) (f : A -> R) (l : list A) :
  np.sum (map (fun i => c * f i) l) = c * np.sum (map f l).
Proof.
  induction l as [|i l IH]; cbn [map]; rewrite ?sum_nil, ?sum_cons; [lra|].
  rewrite IH. lra.
Qed.

Lemma sum_map_zero {A : Type} (l : list A) : np.sum (map (fun _ => 0) l) = 0.
Proof.
  induction l as [|i l IH]; cbn [map]; rewrite ?sum_nil, ?sum_cons; lra.
Qed.

Lemma sum_delta (c : nat -> R) (i : nat) (l : list nat) :
  NoDup l ->
  np.sum (map (fun j => if Nat.eqb i j then c j else 0) l)
  = if in_dec Nat.eq_dec i l then c i else 0.
Proof.
  induction 1 as [|j l Hj Hnd IH]; cbn [map]; rewrite ?sum_nil, ?sum_cons.
  - now destruct (in_dec Nat.eq_dec i []).
  - rewrite IH. destruct (Nat.eqb_spec i j) as [->|Hij].
    + destruct (in_dec Nat.eq_dec j l) as [Hin|_]; [contradiction|].
      destruct (in_dec Nat.eq_dec j (j :: l)) as [_|Hn]; [lra|].
      exfalso. apply Hn. now left.
    + destruct (in_dec Nat.eq_dec i l) as [Hin|Hn];
        destruct (in_dec Nat.eq_dec i (j :: l)) as [Hin'|Hn']; try lra.
      * exfalso. apply Hn'. now right.
      * exfalso. destruct Hin' as [E|Hin']; [congruence|contradiction].
Qed.

Lemma map_nth_all (x : list R) :
  map (fun i => nth i x 0) (seq 0 (length x)) = x.
Proof.
  apply nth_ext with (d := 0) (d' := 0).
  - now rewrite length_map, length_seq.
  - intros n Hn. rewrite length_map, length_seq in Hn.
    exact (nth_map_seq (fun i => nth i x 0) 0 Hn).
Qed.

Lemma vdot_nil_l (v : list R) : np.vdot [] v = 0.
Proof. reflexivity. Qed.

Lemma vdot_cons_R (a b : R) (u v : list R) :
  np.vdot (a :: u) (b :: v) = a * b + np.vdot u v.
Proof. reflexivity. Qed.

Lemma vdot_minus (u v x : list R) :
  length u = length v ->
  np.vdot (np.map2 Rminus u v) x = np.vdot u x - np.vdot v x.
Proof.
  revert v x. induction u as [|a u IH]; intros [|b v] [|c x] Hl;
    simpl in Hl; try discriminate; cbn [np.map2].
  - rewrite !vdot_nil_l. lra.
  - rewrite !vdot_nil_l. lra.
  - change (np.vdot (a - b :: np.map2 Rminus u v) []) with 0.
    change (np.vdot (a :: u) []) with 0. change (np.vdot (b :: v) []) with 0. lra.
  - rewrite !vdot_cons_R, IH by congruence. lra.
Qed.

Lemma vdot_as_sum (u x : list R) :
  length u = length x ->
  np.vdot u x = np.sum (map (fun j => nth j u 0 * nth j x 0) (seq 0 (length u))).
Proof.
  revert x. induction u as [|a u IH]; intros [|c x] Hl; simpl in Hl;
    try discriminate; [reflexivity|].
  rewrite vdot_cons_R. cbn [length seq map nth]. rewrite sum_cons.
  rewrite <- seq_shift, map_map. cbn [nth].
  rewrite <- IH by congruence. reflexivity.
Qed.

Lemma vdot_const_one (P : list (list R)) (x : list R) :
  length P = length x -> np.vdot (map (fun _ => 1) P) x = np.sum x.
Proof.
  revert x. induction P as [|row P IH]; intros [|c x] Hl; simpl in Hl;
    try discriminate; [reflexivity|].
  cbn [map]. rewrite vdot_cons_R, sum_cons, IH by congruence. lra.
Qed.

(** The sum over the columns of the products with [x]. *)
Lemma column_products (d : nat) (P : list (list R)) :
  Forall (fun row => length row = d) P ->
  forall x,
    np.sum (map (fun i => np.vdot (np.col i P) x) (seq 0 d))
    = np.vdot (map np.sum P) x.
Proof.
  induction 1 as [|row P Hrow _ IH]; intros x.
  - change (np.vdot (map np.sum []) x) with 0.
    rewrite (map_ext (fun i => np.vdot (np.col i []) x) (fun _ => 0)).
    + apply sum_map_zero.
    + intros i. reflexivity.
  - destruct x as [|a x].
    + change (np.vdot (map np.sum (row :: P)) []) with 0.
      rewrite (map_ext (fun i => np.vdot (np.col i (row :: P)) []) (fun _ => 0)).
      * apply sum_map_zero.
      * intros i. reflexivity.
    + cbn [map]. rewrite vdot_cons_R, <- IH.
      rewrite (map_ext (fun i => np.vdot (np.col i (row :: P)) (a :: x))
                       (fun i => a * nth i row 0 + np.vdot (np.col i P) x)).
      2:{ intros i. change (np.col i (row :: P)) with (nth i row 0 :: np.col i P).
          rewrite vdot_cons_R. lra. }
      rewrite (sum_map_plus (fun i => a * nth i row 0)
                            (fun i => np.vdot (np.col i P) x)).
      rewrite (sum_map_scale a (fun i => nth i row 0)).
      rewrite <- Hrow, map_nth_all. lra.
Qed.

Lemma map2_map_map {A B C D : Type} (f : B -> C -> D) (g : A -> B) (h : A -> C)
  (l : list A) :
  np.map2 f (map g l) (map h l) = map (fun i => f (g i) (h i)) l.
Proof. induction l as [|i l IH]; cbn [map np.map2]; [reflexivity|now rewrite IH]. Qed.

(** The sum of the entries of [(P^T - mu I) x]. *)
Lemma shifted_column_sums (d : nat) (P : list (list R)) (mu : R) (x : list R) :
  (1 <= d)%nat -> length P = d -> row_stochastic P -> length x = d ->
  np.sum (np.matvec (shift_matrix (np.transpose P) mu) x) = (1 - mu) * np.sum x.
Proof.
  intros Hd HP Hst Hx.
  assert (Hrows : Forall (fun row => length row = d) P).
  { eapply Forall_impl; [|exact Hst]. simpl. intros row (Hl & _). congruence. }
  assert (Hnc : np.ncols P = d).
  { eapply ncols_shape; [split; eassumption|assumption]. }
  unfold shift_matrix. rewrite (@length_transpose R float64), Hnc.
  unfold np.transpose, np.eye. rewrite Hnc, map_map, map2_map_map.
  unfold np.matvec. rewrite map_map.
  rewrite (map_ext_in _ (fun i => np.vdot (np.col i P) x - mu * nth i x 0)).
  - rewrite (sum_map_minus (fun i => np.vdot (np.col i P) x)
                           (fun i => mu * nth i x 0)).
    rewrite (column_products Hrows), (sum_map_scale mu (fun i => nth i x 0)).
    rewrite <- Hx, map_nth_all.
    rewrite (map_ext_in np.sum (fun _ => 1)).
    + rewrite vdot_const_one by congruence. lra.
    + intros row Hin. unfold row_stochastic in Hst.
      rewrite Forall_forall in Hst. now destruct (Hst row Hin) as (_ & _ & Hs).
  - intros i Hi. apply in_seq in Hi.
    rewrite vdot_minus.
    2:{ rewrite (@length_col R float64). unfold np.times.
        now rewrite !length_map, length_seq. }
    f_equal.
    rewrite vdot_as_sum.
    2:{ unfold np.times. now rewrite !length_map, length_seq. }
    unfold np.times at 2. rewrite !length_map, length_seq.
    rewrite (map_ext_in _ (fun j => if Nat.eqb i j then mu * nth j x 0 else 0)).
    + rewrite (sum_delta (fun j => mu * nth j x 0) i (seq_NoDup d 0)).
      destruct (in_dec Nat.eq_dec i (seq 0 d)) as [_|Hn]; [reflexivity|].
      exfalso. apply Hn. apply in_seq. lia.
    + intros j Hj. apply in_seq in Hj. unfold np.times.
      rewrite (nth_indep _ 0 ((fun a => kmul mu a) 0))
        by (rewrite !length_map, length_seq; lia).
      rewrite (map_nth (fun a => kmul mu a)).
      rewrite (nth_map_seq (fun j => if Nat.eqb i j then k1 else k0) 0)
        by lia.
      cbn [kmul k0 k1 float64]. destruct (Nat.eqb i j); lra.
Qed.

(** Cauchy and Schwarz: the square of a sum of [n] numbers is at most [n]
    times the sum of their squares. *)
Lemma sum_square_bound (x : list R) :
  np.sum x * np.sum x <= INR (length x) * np.sum (map (fun a => a * a) x).
Proof.
  induction x as [|a x IH].
  - cbn [map length INR]. rewrite !sum_nil. lra.
  - cbn [map]. rewrite !sum_cons.
    change (length (a :: x)) with (S (length x)).
    pose proof (pos_INR (length x)) as Hn.
    assert (Hq : 0 <= np.sum (map (fun a => a * a) x)).
    { apply sum_nonneg. apply Forall_forall. intros y Hy.
      apply in_map_iff in Hy. destruct Hy as (z & <- & _). nra. }
    set (s := np.sum x) in *. set (q := np.sum (map (fun a => a * a) x)) in *.
    set (n := INR (length x)) in *.
    rewrite S_INR. fold n. clearbody s q n.
    assert (H2 : 2 * s * a <= q + n * (a * a)).
    { destruct (Req_dec n 0) as [E|E].
      - rewrite E in *. rewrite Rmult_0_l in IH.
        pose proof (Rle_0_sqr s) as H3. unfold Rsqr in H3.
        assert (Hs : s = 0).
        { apply Rsqr_0_uniq. unfold Rsqr. lra. }
        rewrite Hs. lra.
      - assert (Hpos : 0 < n) by lra.
        pose proof (Rle_0_sqr (s - n * a)) as H3. unfold Rsqr in H3.
        replace ((s - n * a) * (s - n * a))
          with (s * s - n * (2 * s * a) + n * (n * (a * a))) in H3 by ring.
        apply Rmult_le_reg_l with n; [assumption|].
        rewrite Rmult_plus_distr_l. lra. }
    replace ((a + s) * (a + s)) with (a * a + 2 * s * a + s * s) by ring.
    replace ((n + 1) * (a * a + q)) with (n * q + q + n * (a * a) + a * a) by ring.
    lra.
Qed.

Lemma sum_repeat (c : R) (n : nat) : np.sum (repeat c n) = INR n * c.
Proof.
  induction n as [|n IH].
  - cbn [repeat INR]. rewrite sum_nil. lra.
  - cbn [repeat]. rewrite sum_cons, IH, S_INR. lra.
Qed.

(** The iterate the loop starts with, for the vector of ones. *)
Lemma initial_iterate_ones (d : nat) :
  (1 <= d)%nat ->
  let y := fst (initial_state (np.ones d)) in
  length y = d /\ np.sum y = sqrt (INR d).
Proof.
  intros Hd y.
  assert (Hn : 0 < INR d) by (apply lt_0_INR; lia).
  assert (Hs : 0 < sqrt (INR d)) by (now apply sqrt_lt_R0).
  assert (Hy : y = repeat (1 * (1 * (1 / sqrt (INR d)))) d).
  { unfold y, initial_state, np.ones, np.linalg_norm, np.times, np.scale.
    cbn [fst k1 kmul float64]. rewrite !map_repeat, sum_repeat.
    now rewrite !Rmult_1_r. }
  rewrite Hy. split; [apply repeat_length|].
  rewrite sum_repeat. rewrite <- (sqrt_sqrt (INR d)) at 1 by lra.
  field. lra.
Qed.

Section BackwardPath.

Variable LU : Type.
Variable lu_factor : list (list R) -> LU.
Variable lu_solve : LU -> list R -> list R.

(** X1. For a transition matrix and a solver that solves, the backward
    iteration ends at its first test, and the vector returned sums to one:
    it is the solution of the first solve divided by its sum. *)
Lemma stationary_distribution_from_backward_iteration_normalised
  (P : list (list R)) (eps : R) :
  let d := length P in
  let T := shift_matrix (np.transpose P) (1 - eps) in
  (1 <= d)%nat ->
  row_stochastic P ->
  0 < eps <= default_tol ->
  (forall y, length y = d ->
     length (lu_solve (lu_factor T) y) = d /\
     np.matvec T (lu_solve (lu_factor T) y) = y) ->
  let x := lu_solve (lu_factor T) (fst (initial_state (np.ones d))) in
  stationary_distribution_from_backward_iteration lu_factor lu_solve P eps
    = Ok (np.divide x (np.sum x)) /\
  np.sum (np.divide x (np.sum x)) = 1.
Proof.
  intros d T Hd Hst [He Htol] Hsolve x.
  destruct (initial_iterate_ones Hd) as [Hylen Hysum].
  destruct (Hsolve _ Hylen) as [Hxlen Hmv]. fold x in Hxlen, Hmv.
  assert (Hn : 0 < INR d) by (apply lt_0_INR; lia).
  assert (Hs : 0 < sqrt (INR d)) by (now apply sqrt_lt_R0).
  assert (Hss : sqrt (INR d) * sqrt (INR d) = INR d) by (apply sqrt_sqrt; lra).
  assert (Hsum : eps * np.sum x = sqrt (INR d)).
  { rewrite <- Hysum, <- Hmv. unfold T.
    rewrite (@shifted_column_sums d P (1 - eps) x Hd eq_refl Hst Hxlen). lra. }
  assert (Hsx : 0 < np.sum x).
  { apply Rmult_lt_reg_l with eps; [assumption|]. rewrite Hsum. lra. }
  pose proof (sum_square_bound x) as Hcs. rewrite Hxlen in Hcs.
  set (q := np.sum (map (fun a => a * a) x)) in *.
  assert (Hq : / eps * / eps <= q).
  { assert (Hie : 0 < / eps) by (now apply Rinv_0_lt_compat).
    assert (Hx : np.sum x = sqrt (INR d) * / eps).
    { rewrite <- Hsum. field. lra. }
    rewrite Hx in Hcs.
    replace (sqrt (INR d) * / eps * (sqrt (INR d) * / eps))
      with (INR d * (/ eps * / eps)) in Hcs by (rewrite <- Hss at 1; ring).
    now apply Rmult_le_reg_l with (INR d). }
  assert (Hnorm : / eps <= np.linalg_norm x).
  { unfold np.linalg_norm. fold q.
    rewrite <- (sqrt_square (/ eps)) by (apply Rlt_le; now apply Rinv_0_lt_compat).
    now apply sqrt_le_1_alt. }
  assert (Hnp : 0 < np.linalg_norm x).
  { eapply Rlt_le_trans; [|exact Hnorm]. now apply Rinv_0_lt_compat. }
  assert (Hr : 1 / np.linalg_norm x <= default_tol).
  { apply Rle_trans with eps; [|assumption].
    unfold Rdiv. rewrite Rmult_1_l.
    rewrite <- (Rinv_inv eps). apply Rinv_le_contravar; [|assumption].
    now apply Rinv_0_lt_compat. }
  assert (Hrpos : 1 / np.linalg_norm x <> 0).
  { apply Rgt_not_eq. apply Rdiv_lt_0_compat; lra. }
  assert (Hres : stationary_distribution_from_backward_iteration lu_factor lu_solve P eps
                 = Ok (np.divide x (np.sum x))).
  { unfold stationary_distribution_from_backward_iteration.
    change default_maxiter with (S 99).
    rewrite (@backward_iteration_first LU lu_factor lu_solve
               (np.transpose P) (1 - eps) (np.ones (length P)) default_tol 99).
    - cbn [bind]. f_equal. fold d. fold T. fold x. now apply divide_scale.
    - exact Hr. }
  split; [exact Hres|]. apply sum_divide_one. lra.
Qed.

End BackwardPath.

(** ** The eigenvectors of a reversible chain are orthogonal

    When [T] is in detailed balance with the weights [mu], eigenvectors of
    [T] for two eigenvalues that differ are orthogonal for these weights:
    the hypothesis of the norm 'reversible' on the overlaps holds for a
    reversible chain whose eigenvalues are distinct. *)

Lemma sum_swap {A B : Type} (f : A -> B -> R) (l : list A) (l' : list B) :
  np.sum (map (fun a => np.sum (map (fun b => f a b) l')) l)
  = np.sum (map (fun b => np.sum (map (fun a => f a b) l)) l').
Proof.
  induction l as [|a l IH]; cbn [map].
  - rewrite sum_nil. symmetry. apply sum_map_zero.
  - rewrite sum_cons, IH.
    rewrite <- (sum_map_plus (fun b => f a b)
                             (fun b => np.sum (map (fun a => f a b) l))).
    reflexivity.
Qed.

Lemma sum_map_ext_in {A : Type} (f g : A -> R) (l : list A) :
  (forall a, In a l -> f a = g a) -> np.sum (map f l) = np.sum (map g l).
Proof. intros H. f_equal. now apply map_ext_in. Qed.

Lemma sum_map_scale_r {A : Type} (c : R) (f : A -> R) (l : list A) :
  np.sum (map (fun i => f i * c) l) = np.sum (map f l) * c.
Proof.
  rewrite (sum_map_ext_in (fun i => f i * c) (fun i => c * f i)) by (intros; ring).
  rewrite sum_map_scale. ring.
Qed.

(** The entry [a] of [T u], as a sum. *)
Lemma matvec_entry (d : nat) (T : list (list R)) (u : list R) (a : nat) :
  shape d d T -> length u = d -> (a < d)%nat ->
  nth a (np.matvec T u) 0
  = np.sum (map (fun b => np.entry T a b * nth b u 0) (seq 0 d)).
Proof.
  intros [Hn Hrows] Hu Ha. unfold np.matvec.
  rewrite (nth_indep _ 0 ((fun row => np.vdot row u) [])) by (rewrite length_map; lia).
  rewrite (map_nth (fun row => np.vdot row u)).
  assert (Hrow : length (nth a T []) = d).
  { rewrite Forall_forall in Hrows. apply Hrows, nth_In. lia. }
  rewrite vdot_as_sum by congruence. rewrite Hrow. reflexivity.
Qed.

Lemma weighted_orthogonal (d : nat) (T : list (list R)) (mu u v : list R)
  (lu lv : R) :
  shape d d T -> length mu = d -> length u = d -> length v = d ->
  np.matvec T u = np.scale u lu ->
  np.matvec T v = np.scale v lv ->
  (forall a b, (a < d)%nat -> (b < d)%nat ->
     nth a mu 0 * np.entry T a b = nth b mu 0 * np.entry T b a) ->
  lu <> lv ->
  np.vdot (np.map2 Rmult mu u) v = 0.
Proof.
  intros HT Hmu Hu Hv Eu Ev Hdb Hne.
  set (W := np.sum (map (fun a => nth a mu 0 * nth a u 0 * nth a v 0) (seq 0 d))).
  assert (HW : np.vdot (np.map2 Rmult mu u) v = W).
  { rewrite vdot_as_sum by (rewrite length_map2; lia).
    rewrite length_map2, Hmu, Hu, Nat.min_id. unfold W.
    apply sum_map_ext_in. intros a Ha. apply in_seq in Ha.
    now rewrite (nth_map2 Rmult mu u 0 0 0) by lia. }
  assert (Hscale : forall (x : list R) (c : R) a, (a < length x)%nat ->
            nth a (np.scale x c) 0 = nth a x 0 * c).
  { intros x c a Ha. unfold np.scale.
    rewrite (nth_indep _ 0 ((fun y => kmul y c) 0)) by (now rewrite length_map).
    now rewrite (map_nth (fun y => kmul y c)). }
  assert (Tu : forall a, (a < d)%nat ->
            np.sum (map (fun b => np.entry T a b * nth b u 0) (seq 0 d))
            = nth a u 0 * lu).
  { intros a Ha. rewrite <- (@matvec_entry d T u a HT Hu Ha), Eu. apply Hscale. lia. }
  assert (Tv : forall a, (a < d)%nat ->
            np.sum (map (fun b => np.entry T a b * nth b v 0) (seq 0 d))
            = nth a v 0 * lv).
  { intros a Ha. rewrite <- (@matvec_entry d T v a HT Hv Ha), Ev. apply Hscale. lia. }
  set (S1 := np.sum (map (fun a => np.sum (map (fun b =>
                nth a mu 0 * np.entry T a b * nth a u 0 * nth b v 0)
                (seq 0 d))) (seq 0 d))).
  assert (H1 : S1 = W * lv).
  { unfold S1, W. rewrite <- sum_map_scale_r. apply sum_map_ext_in.
    intros a Ha. apply in_seq in Ha.
    rewrite (sum_map_ext_in _ (fun b => (nth a mu 0 * nth a u 0)
                                        * (np.entry T a b * nth b v 0)))
      by (intros; ring).
    rewrite sum_map_scale, Tv by lia. ring. }
  assert (H2 : S1 = W * lu).
  { unfold S1. rewrite sum_swap. unfold W. rewrite <- sum_map_scale_r.
    apply sum_map_ext_in. intros b Hb. apply in_seq in Hb.
    rewrite (sum_map_ext_in _ (fun a => (nth b mu 0 * nth b v 0)
                                        * (np.entry T b a * nth a u 0))).
    - rewrite sum_map_scale, Tu by lia. ring.
    - intros a Ha. apply in_seq in Ha. rewrite (Hdb a b) by lia. ring. }
  rewrite HW.
  assert (H : W * (lu - lv) = 0) by lra.
  apply Rmult_integral in H. destruct H as [H|H]; [assumption|lra].
Qed.

Lemma col_weighted (d : nat) (mu : list R) (R1 : list (list R)) (i : nat) :
  length mu = d -> shape d d R1 ->
  np.col i (weighted mu R1) = np.map2 Rmult mu (np.col i R1).
Proof.
  intros _ _. unfold weighted, np.col.
  revert mu. induction R1 as [|row R1 IH]; intros [|m mu]; cbn [np.map2 map];
    try reflexivity.
  f_equal; [|apply IH].
  unfold np.times.
  destruct (Nat.lt_ge_cases i (length row)) as [Hi|Hi].
  - rewrite (nth_indep _ 0 ((fun x => kmul m x) 0)) by (now rewrite length_map).
    now rewrite (map_nth (fun x => kmul m x)).
  - rewrite !nth_overflow by (rewrite ?length_map; lia).
    cbn [k0 float64]. ring.
Qed.

(** For a chain in detailed balance with [mu] whose eigenvalues differ, the
    overlaps of different columns of eigenvectors are zero. *)
Lemma reversible_chain_orthogonal (d : nat) (T R1 : list (list R))
  (mu lam : list R) :
  shape d d T -> shape d d R1 -> length mu = d ->
  (forall j, (j < d)%nat ->
     np.matvec T (np.col j R1) = np.scale (np.col j R1) (nth j lam 0)) ->
  (forall a b, (a < d)%nat -> (b < d)%nat ->
     nth a mu 0 * np.entry T a b = nth b mu 0 * np.entry T b a) ->
  (forall i j, (i < d)%nat -> (j < d)%nat -> i <> j -> nth i lam 0 <> nth j lam 0) ->
  forall i j, (i < d)%nat -> (j < d)%nat -> i <> j -> overlap mu R1 i j = 0.
Proof.
  intros HT HR Hmu Heig Hdb Hdist i j Hi Hj Hij.
  unfold overlap. rewrite (@col_weighted d mu R1 i Hmu HR).
  assert (Hlen : forall c, length (np.col c R1) = d).
  { intros c. rewrite (@length_col R float64). now destruct HR. }
  apply (@weighted_orthogonal d T mu (np.col i R1) (np.col j R1)
           (nth i lam 0) (nth j lam 0)); auto.
Qed.

(** * Further properties of the module *)

(** ** The stationary distribution of the chain of two states *)

Lemma stationary_distribution_from_backward_iteration_normalised_witness :
  let x := Example.lu_solve2
             (Example.lu_factor2
                (shift_matrix (np.transpose Example.T2) (1 - default_eps)))
             (fst (initial_state (np.ones 2))) in
  stationary_distribution_from_backward_iteration
    Example.lu_factor2 Example.lu_solve2 Example.T2 default_eps
    = Ok (np.divide x (np.sum x)) /\
  np.sum (np.divide x (np.sum x)) = 1.
Proof.
  pose proof default_eps_pos as He. pose proof default_eps_tol as Htol.
  apply (@stationary_distribution_from_backward_iteration_normalised
           _ Example.lu_factor2 Example.lu_solve2 Example.T2 default_eps).
  - simpl. lia.
  - apply T2_stochastic.
  - lra.
  - intros y Hy. destruct y as [|y1 [|y2 [|y3 y]]]; simpl in Hy; try lia.
    set (e := default_eps) in *.
    assert (He1 : e < 1 / 4).
    { unfold e, default_eps.
      assert (H : 1 / 10 ^ 15 <= 1 / 10 ^ 1).
      { unfold Rdiv. rewrite !Rmult_1_l.
        apply Rinv_le_contravar; [lra|]. apply Rle_pow; [lra|lia]. }
      simpl in H. lra. }
    cbv [shift_matrix Example.lu_factor2 np.transpose Example.T2 np.ncols
         np.col hd length seq map nth np.eye np.times np.map2 Nat.eqb
         kmul k0 k1 float64].
    split; [reflexivity|].
    apply lu_solve2_correct. nra.
Defined.

Lemma leading_left_eigenvector2 :
  leading_left_eigenvector Example.eig_left2 Example.T2 = [1 / sqrt 5; 2 / sqrt 5].
Proof.
  unfold leading_left_eigenvector, Example.eig_left2, Example.w2, np.argsort,
    np.enumerate.
  cbn [map length seq combine fold_right np.insert fst].
  assert (E : np.Cleb (RtoC 1) (RtoC (1 / 4)) = false).
  { unfold np.Cleb, RtoC. cbn [re im].
    destruct (Rlt_dec 1 (1 / 4)) as [H|_]; [lra|].
    destruct (Rlt_dec (1 / 4) 1) as [_|H]; [reflexivity|lra]. }
  rewrite E. reflexivity.
Qed.

Lemma stationary_distribution_from_eigenvector_probability_witness :
  Forall (fun x => 0 <= x)
    (stationary_distribution_from_eigenvector Example.eig_left2 Example.T2) /\
  np.sum (stationary_distribution_from_eigenvector Example.eig_left2 Example.T2) = 1.
Proof.
  apply (@stationary_distribution_from_eigenvector_probability
           R float64 Example.eig_left2 Example.T2).
  - intros x. apply Rabs_pos.
  - rewrite leading_left_eigenvector2. apply Exists_cons_hd.
    cbn [kabs float64]. apply Rabs_no_R0.
    assert (0 < sqrt 5) by (apply sqrt_lt_R0; lra).
    apply Rgt_not_eq. apply Rdiv_lt_0_compat; lra.
Defined.

Lemma rdl_reversible_first_entry_positive_witness :
  exists R' D L',
    rdl_decomposition Example.eig2 Example.solve0 Example.solve_vector2
      Example.is_reversible0 Example.T2 None "reversible" = Ok (R', D, L') /\
    0 < np.entry R' 0 0.
Proof.
  destruct overlaps2 as (H00 & _).
  apply (@rdl_reversible_first_entry_positive Example.eig2 Example.solve0
           Example.solve_vector2 Example.is_reversible0
           Example.T2 None Example.w2 Example.R2 Example.nu2).
  - simpl. lia.
  - apply sorted_eig2.
  - split; [reflexivity|repeat constructor].
  - reflexivity.
  - reflexivity.
  - simpl. lia.
  - cbn [np.entry nth Example.R2].
    apply Rgt_not_eq. apply Rinv_0_lt_compat, sqrt_lt_R0. lra.
  - rewrite mu2, sign_fixed_R2, H00. lra.
Defined.

(** ** The sort keeps what it sorts *)

Lemma take_permutation {A : Type} (a : list A) (ind ind' : list nat) :
  Permutation ind ind' -> Permutation (np.take a ind) (np.take a ind').
Proof. intros H. unfold np.take. now apply Permutation_flat_map. Qed.

Lemma sorted_desc_permutation {A : Type} (f : A -> R) (a : list A) :
  Permutation (sorted_desc f a) a.
Proof.
  unfold sorted_desc.
  apply Permutation_trans with (np.take a (seq 0 (length a))).
  - apply take_permutation. rewrite <- Permutation_rev. apply argsort_perm.
  - now rewrite take_all.
Qed.

Lemma nth_take {A : Type} (a : list A) (ind : list nat) (i : nat) (d : A) :
  Forall (fun j => (j < length a)%nat) ind -> (i < length ind)%nat ->
  nth i (np.take a ind) d = nth (nth i ind 0%nat) a d.
Proof.
  intros Hall. revert i. induction Hall as [|j ind Hj _ IH]; intros i Hi;
    simpl in Hi; [lia|].
  unfold np.take. cbn [flat_map]. fold (np.take a ind).
  destruct (nth_error a j) as [x|] eqn:E.
  - destruct i as [|i]; simpl.
    + symmetry. now apply nth_error_nth.
    + apply IH. lia.
  - apply nth_error_None in E. lia.
Qed.

Lemma argsort_indices (keys : list R) :
  Forall (fun j => (j < length keys)%nat) (rev (np.argsort np.Rleb keys)) /\
  length (rev (np.argsort np.Rleb keys)) = length keys.
Proof.
  pose proof (argsort_perm (fun x : R => x) keys) as Hp.
  rewrite map_id in Hp. split.
  - apply Forall_forall. intros j Hj. rewrite <- in_rev in Hj.
    apply (Permutation_in _ Hp) in Hj. apply in_seq in Hj. lia.
  - rewrite length_rev, (Permutation_length Hp). apply length_seq.
Qed.

(** Two lists in decreasing order with the same elements are equal. *)
Lemma decreasing_unique (l l' : list R) :
  StronglySorted (fun x y => y <= x) l ->
  StronglySorted (fun x y => y <= x) l' ->
  Permutation l l' -> l = l'.
Proof.
  intros Hl. revert l'. induction Hl as [|x l Hs IH Hall]; intros l' Hl' Hp.
  - apply Permutation_nil in Hp. now subst.
  - destruct l' as [|y l'].
    + apply Permutation_sym, Permutation_nil in Hp. discriminate.
    + inversion Hl' as [|? ? Hs' Hall']; subst.
      assert (Exy : x = y).
      { assert (Hx : In x (y :: l')) by (apply (Permutation_in _ Hp); now left).
        assert (Hy : In y (x :: l))
          by (apply (Permutation_in _ (Permutation_sym Hp)); now left).
        rewrite Forall_forall in Hall, Hall'.
        destruct Hx as [Hx|Hx]; [now subst|].
        destruct Hy as [Hy|Hy]; [now subst|].
        apply Hall in Hy. apply Hall' in Hx. lra. }
      subst y. f_equal. apply IH; [assumption|].
      now apply Permutation_cons_inv in Hp.
Qed.

(** Sorting again changes no magnitude. *)
Lemma sorted_desc_keys_again {A : Type} (f : A -> R) (a : list A) :
  StronglySorted (fun x y => y <= x) (map f a) ->
  map f (sorted_desc f a) = map f a.
Proof.
  intros Hs. apply decreasing_unique;
    [apply sorted_desc_keys|assumption|].
  apply Permutation_map, sorted_desc_permutation.
Qed.

(** ** More on eigenvalues and timescales *)

Section EigenvaluesMore.

Variable LU : Type.
Variable lu_factor : list (list R) -> LU.
Variable lu_solve : LU -> list R -> list R.
Variable eigvals : list (list R) -> list complex.
Variable eigvalsh : list (list R) -> list R.

Local Abbreviation eigenvalues_ := (eigenvalues lu_factor lu_solve eigvals eigvalsh).
Local Abbreviation raw_ := (raw_eigenvalues lu_factor lu_solve eigvals eigvalsh).



Lemma backward_iteration_error (A : list (list R)) (m : R) (x0 : list R)
  (tol : R) (maxiter : nat) (e : exn) :
  backward_iteration lu_factor lu_solve A m x0 tol maxiter = Raise e ->
  exists r, e = RuntimeError maxiter r.
Proof.
  unfold backward_iteration.
  destruct (backward_loop _ _ _ _ _ _) as [y|r]; [discriminate|].
  intros H. injection H as <-. now exists r.
Qed.

Lemma stationary_distribution_error (P : list (list R)) (eps : R) (e : exn) :
  stationary_distribution_from_backward_iteration lu_factor lu_solve P eps = Raise e ->
  exists r, e = RuntimeError default_maxiter r.
Proof.
  unfold stationary_distribution_from_backward_iteration.
  destruct (backward_iteration _ _ _ _ _ _ _) as [y|e'] eqn:E; [discriminate|].
  cbn [bind]. intros H. injection H as <-.
  exact (backward_iteration_error _ _ _ _ _ E).
Qed.

(** X5. For a square matrix and, with [reversible] set, a vector [mu]
    (given, or found by the backward iteration) of its size and of positive
    entries, so that the square roots and the divisions of the symmetrized
    matrix are those of the floats, the only exceptions of [eigenvalues] are
    the RuntimeError of the backward iteration, which needs [reversible] set
    and [mu] absent and comes before any look at [k], and the ValueError of
    a collection of indices with an index out of range. *)
Theorem eigenvalues_exceptions :
  forall (T : list (list R)) (k : selector) (reversible : bool)
         (mu : option (list R)) (d : nat),
    shape d d T ->
    (reversible = true ->
     forall m,
       mu = Some m \/
       (mu = None /\
        stationary_distribution_from_backward_iteration lu_factor lu_solve T default_eps
          = Ok m) ->
       length m = d /\ Forall (fun x => 0 < x) m) ->
    match eigenvalues_ T k reversible mu with
    | Ok _ => True
    | Raise e =>
        (reversible = true /\ mu = None /\
         stationary_distribution_from_backward_iteration lu_factor lu_solve T default_eps
           = Raise e /\
         exists r, e = RuntimeError default_maxiter r) \/
        (exists ks raw,
           k = KList ks /\ e = ValueError_indices ks /\
           raw_ T reversible mu = Ok raw /\
           forallb (Py.index_ok (length raw)) ks = false)
    end.
Proof.
  intros T k reversible mu d _ _. rewrite eigenvalues_unfold.
  destruct (raw_ T reversible mu) as [raw|e] eqn:Eraw.
  - cbn [bind]. destruct k as [|k|ks]; cbn [select]; try exact I.
    rewrite (getitems_spec _ ks (RtoC 0)), sorted_desc_length.
    destruct (forallb (Py.index_ok (length raw)) ks) eqn:Ek; [exact I|].
    right. exists ks, raw. repeat split; assumption.
  - cbn [bind]. left. unfold raw_eigenvalues in Eraw.
    destruct reversible; [|discriminate].
    destruct mu as [mu|]; [discriminate|].
    destruct (stationary_distribution_from_backward_iteration _ _ _ _) as [pi|e']
      eqn:Esd; [discriminate|].
    cbn [bind] in Eraw. injection Eraw as <-.
    repeat split. exact (stationary_distribution_error _ _ Esd).
Qed.

Lemma slice_to_map {A B : Type} (f : A -> B) (k : Z) (l : list A) :
  map f (Py.slice_to k l) = Py.slice_to k (map f l).
Proof. unfold Py.slice_to. now rewrite firstn_map, length_map. Qed.

Lemma timescales_values_by_magnitude (evals evals' : list complex) (tau : R) :
  map Cabs evals = map Cabs evals' ->
  fst (timescales_from_eigenvalues evals tau)
  = fst (timescales_from_eigenvalues evals' tau).
Proof.
  intros H. rewrite !timescales_from_eigenvalues_map.
  rewrite <- !(map_map Cabs (fun a => if np.isclose a 1 0 (1 / 10 ^ 14) then Inf
                                      else Finite (((-1) * tau) / ln a))).
  now rewrite H.
Qed.

(** X6. [timescales] is [timescales_from_eigenvalues] of the leading
    eigenvalues of [eigenvalues]: the second sort of [timescales] changes no
    timescale, and an exception of [eigenvalues] is the only exception. *)
Theorem timescales_of_eigenvalues :
  forall (T : list (list R)) (tau : R) (k : option Z) (reversible : bool)
         (mu : option (list R)),
    match eigenvalues_ T KNone reversible mu with
    | Ok vals =>
        exists r,
          timescales lu_factor lu_solve eigvals eigvalsh T tau k reversible mu = Ok r /\
          fst r = fst (timescales_from_eigenvalues
                         match k with
                         | None => vals
                         | Some k => Py.slice_to k vals
                         end tau)
    | Raise e =>
        timescales lu_factor lu_solve eigvals eigvalsh T tau k reversible mu = Raise e
    end.
Proof.
  intros T tau k reversible mu. unfold timescales.
  destruct (eigenvalues_ T KNone reversible mu) as [vals|e] eqn:E; cbn [bind];
    [|reflexivity].
  eexists. split; [reflexivity|].
  apply timescales_values_by_magnitude.
  assert (Hs : StronglySorted (fun x y => y <= x) (map Cabs vals)).
  { rewrite eigenvalues_unfold in E.
    destruct (raw_ T reversible mu) as [raw|e']; cbn [bind select] in E;
      [|discriminate].
    injection E as <-. apply sorted_desc_keys. }
  change (np.take vals (rev (np.argsort np.Rleb (map Cabs vals))))
    with (sorted_desc Cabs vals).
  destruct k as [k|].
  - now rewrite !slice_to_map, (@sorted_desc_keys_again _ Cabs vals Hs).
  - exact (@sorted_desc_keys_again _ Cabs vals Hs).
Qed.

End EigenvaluesMore.

Lemma eigenvalues_exceptions_witness :
  match
    eigenvalues Example.lu_factor0 Example.lu_solve0 Example.eigvals3
      Example.eigvalsh2 Example.T2 (KList [5]%Z) true (Some [1 / 3; 2 / 3])
  with
  | Ok _ => True
  | Raise e =>
      (true = true /\ Some [1 / 3; 2 / 3] = None /\
       stationary_distribution_from_backward_iteration Example.lu_factor0
         Example.lu_solve0 Example.T2 default_eps = Raise e /\
       exists r, e = RuntimeError default_maxiter r) \/
      (exists ks raw,
         KList [5]%Z = KList ks /\ e = ValueError_indices ks /\
         raw_eigenvalues Example.lu_factor0 Example.lu_solve0 Example.eigvals3
           Example.eigvalsh2 Example.T2 true (Some [1 / 3; 2 / 3]) = Ok raw /\
         forallb (Py.index_ok (length raw)) ks = false)
  end.
Proof.
  apply (@eigenvalues_exceptions unit Example.lu_factor0 Example.lu_solve0
           Example.eigvals3 Example.eigvalsh2 Example.T2 (KList [5]%Z) true
           (Some [1 / 3; 2 / 3]) 2%nat).
  - split; [reflexivity|repeat constructor].
  - intros _ m [Hm|[Hm _]]; [|discriminate Hm].
    injection Hm as <-. split; [reflexivity|].
    repeat (apply Forall_cons || apply Forall_nil); lra.
Defined.

(** ** The warnings and the order of the timescales *)

Lemma filter_nonempty {A : Type} (p : A -> bool) (d : A) (l : list A) :
  (0 < length (filter p l))%nat <->
  exists i, (i < length l)%nat /\ p (nth i l d) = true.
Proof.
  induction l as [|x l IH]; cbn [filter length].
  - split; [lia|]. intros (i & Hi & _). lia.
  - split.
    + destruct (p x) eqn:E.
      * intros _. exists 0%nat. split; [lia|exact E].
      * intros H. apply IH in H. destruct H as (i & Hi & Hp).
        exists (S i). split; [lia|exact Hp].
    + intros (i & Hi & Hp). destruct i as [|i]; cbn [nth] in Hp.
      * rewrite Hp. cbn [length]. lia.
      * assert (H : (0 < length (filter p l))%nat).
        { apply IH. exists i. split; [lia|exact Hp]. }
        destruct (p x); cbn [length]; lia.
Qed.

Lemma filter_two {A : Type} (p : A -> bool) (d : A) (l : list A) :
  (1 < length (filter p l))%nat <->
  exists i j, (i < j < length l)%nat /\
              p (nth i l d) = true /\ p (nth j l d) = true.
Proof.
  induction l as [|x l IH]; cbn [filter length].
  - split; [lia|]. intros (i & j & Hij & _). lia.
  - split.
    + destruct (p x) eqn:E; cbn [length].
      * intros H. assert (H' : (0 < length (filter p l))%nat) by lia.
        apply (filter_nonempty p d) in H'. destruct H' as (j & Hj & Hp).
        exists 0%nat, (S j). repeat split; try lia; assumption.
      * intros H. apply IH in H. destruct H as (i & j & Hij & Hi & Hj).
        exists (S i), (S j). repeat split; try lia; assumption.
    + intros (i & j & Hij & Hi & Hj).
      destruct j as [|j]; [lia|]. cbn [nth] in Hj.
      destruct i as [|i]; cbn [nth] in Hi.
      * rewrite Hi. cbn [length].
        assert (H : (0 < length (filter p l))%nat).
        { apply (filter_nonempty p d). exists j. split; [lia|exact Hj]. }
        lia.
      * assert (H : (1 < length (filter p l))%nat).
        { apply IH. exists i, j. repeat split; try lia; assumption. }
        destruct (p x); cbn [length]; lia.
Qed.

Lemma filter_id_map {A : Type} (p : A -> bool) (l : list A) :
  length (filter (fun b : bool => b) (map p l)) = length (filter p l).
Proof.
  induction l as [|x l IH]; cbn [map filter]; [reflexivity|].
  destruct (p x); cbn [length]; now rewrite IH.
Qed.

Lemma allclose_zero (a : list R) :
  np.allclose a 0 = false <-> Exists (fun x => 1 / 10 ^ 8 < Rabs x) a.
Proof.
  unfold np.allclose. induction a as [|x a IH]; cbn [forallb].
  - split; [discriminate|]. intros H. inversion H.
  - destruct (np.isclose x 0 (1 / 10 ^ 5) (1 / 10 ^ 8)) eqn:E; cbn [andb].
    + unfold np.isclose in E. apply Rleb_true in E.
      rewrite Rabs_R0, Rmult_0_r, Rplus_0_r, Rminus_0_r in E.
      rewrite IH. split; [now apply Exists_cons_tl|].
      intros H. inversion H; subst; [lra|assumption].
    + unfold np.isclose in E. apply Rleb_false in E.
      rewrite Rabs_R0, Rmult_0_r, Rplus_0_r, Rminus_0_r in E.
      split; [|reflexivity]. intros _. now apply Exists_cons_hd.
Qed.

(** X7. [timescales_from_eigenvalues] warns of imaginary parts exactly when
    some eigenvalue has an imaginary part of magnitude above 1e-8, and of
    the spectrum exactly when two entries of [evals] have a magnitude within
    1e-14 of one; the lag time has no part in it, and the imaginary warning
    comes first. *)
Theorem timescales_from_eigenvalues_warnings :
  forall (evals : list complex) (tau : R),
    let ws := snd (timescales_from_eigenvalues evals tau) in
    (In ImaginaryEigenValueWarning ws <->
     Exists (fun z => 1 / 10 ^ 8 < Rabs (im z)) evals) /\
    (In SpectralWarning ws <->
     exists i j, (i < j < length evals)%nat /\
       Rabs (Cabs (nth i evals (RtoC 0)) - 1) <= 1 / 10 ^ 14 /\
       Rabs (Cabs (nth j evals (RtoC 0)) - 1) <= 1 / 10 ^ 14) /\
    (ws = [] \/ ws = [ImaginaryEigenValueWarning] \/ ws = [SpectralWarning] \/
     ws = [ImaginaryEigenValueWarning; SpectralWarning]).
Proof.
  intros evals tau ws. unfold ws, timescales_from_eigenvalues. cbn [snd].
  rewrite map_map, filter_id_map.
  set (p := fun z => np.isclose (Cabs z) 1 0 (1 / 10 ^ 14)).
  assert (Him : np.allclose (map im evals) 0 = false <->
                Exists (fun z => 1 / 10 ^ 8 < Rabs (im z)) evals).
  { rewrite allclose_zero, Exists_map. reflexivity. }
  assert (Hsp : (1 <? length (filter p evals))%nat = true <->
                exists i j, (i < j < length evals)%nat /\
                  Rabs (Cabs (nth i evals (RtoC 0)) - 1) <= 1 / 10 ^ 14 /\
                  Rabs (Cabs (nth j evals (RtoC 0)) - 1) <= 1 / 10 ^ 14).
  { rewrite Nat.ltb_lt, (filter_two p (RtoC 0)). unfold p.
    split; intros (i & j & Hij & Hi & Hj); exists i, j;
      (split; [exact Hij|]); split; now apply isclose_abs. }
  destruct (np.allclose (map im evals) 0) eqn:Ea;
    destruct (1 <? length (filter p evals))%nat eqn:Es; cbn [negb app].
  - repeat split.
    + intros [H|[]]. discriminate.
    + intros H. apply Him in H. discriminate.
    + intros _. now apply Hsp.
    + intros _. now left.
    + tauto.
  - repeat split.
    + intros [].
    + intros H. apply Him in H. discriminate.
    + intros [].
    + intros H. apply Hsp in H. discriminate.
    + tauto.
  - repeat split.
    + intros _. now apply Him.
    + intros _. now left.
    + intros _. now apply Hsp.
    + intros _. right. now left.
    + tauto.
  - repeat split.
    + intros _. now apply Him.
    + intros _. now left.
    + intros [H|[]]. discriminate.
    + intros H. apply Hsp in H. discriminate.
    + tauto.
Qed.

Lemma timescale_entry (evals : list complex) (tau : R) (i : nat) :
  (i < length evals)%nat ->
  nth i (fst (timescales_from_eigenvalues evals tau)) (Finite 0)
  = let a := Cabs (nth i evals (RtoC 0)) in
    if np.isclose a 1 0 (1 / 10 ^ 14) then Inf
    else Finite (((-1) * tau) / ln a).
Proof.
  intros Hi. rewrite timescales_from_eigenvalues_map.
  set (h := fun z => if np.isclose (Cabs z) 1 0 (1 / 10 ^ 14) then Inf
                     else Finite (((-1) * tau) / ln (Cabs z))).
  rewrite (nth_indep _ (Finite 0) (h (RtoC 0))) by (now rewrite length_map).
  now rewrite map_nth.
Qed.

Lemma ln_neg (a : R) : 0 < a -> a < 1 -> ln a < 0.
Proof. intros H0 H1. rewrite <- ln_1. now apply ln_increasing. Qed.

(** X8. For a lag time that is not negative and eigenvalues of a magnitude
    in (0, 1], no timescale is negative, and of two eigenvalues the one of
    the greater magnitude has the greater timescale ([inf] counting as the
    greatest): eigenvalues in the order of [eigenvalues] give timescales
    that do not increase. *)
Theorem timescales_from_eigenvalues_monotone :
  forall (evals : list complex) (tau : R),
    0 <= tau ->
    (forall z, In z evals -> 0 < Cabs z <= 1) ->
    let ts := fst (timescales_from_eigenvalues evals tau) in
    (forall i, (i < length evals)%nat ->
       timescale_le (Finite 0) (nth i ts (Finite 0))) /\
    (forall i j, (i < length evals)%nat -> (j < length evals)%nat ->
       Cabs (nth j evals (RtoC 0)) <= Cabs (nth i evals (RtoC 0)) ->
       timescale_le (nth j ts (Finite 0)) (nth i ts (Finite 0))).
Proof.
  intros evals tau Htau Hmag ts. unfold ts.
  assert (Hone : 0 < 1 / 10 ^ 14) by (apply Rdiv_pos_pos; [lra|apply pow_lt; lra]).
  assert (Hfin : forall a, 0 < a <= 1 ->
            np.isclose a 1 0 (1 / 10 ^ 14) = false ->
            a < 1 /\ ln a < 0 /\ 0 <= ((-1) * tau) / ln a).
  { intros a Ha E.
    assert (Hnc : ~ Rabs (a - 1) <= 1 / 10 ^ 14).
    { intros H. apply isclose_abs in H. congruence. }
    assert (Ha1 : a < 1).
    { destruct (Rlt_dec a 1) as [H|H]; [exact H|].
      exfalso. apply Hnc. replace a with 1 by lra.
      rewrite Rminus_diag, Rabs_R0. lra. }
    pose proof (ln_neg (proj1 Ha) Ha1) as Hln.
    repeat split; try assumption.
    replace (((-1) * tau) / ln a) with (tau / (- ln a)) by (field; lra).
    unfold Rdiv. apply Rmult_le_pos; [lra|].
    left. apply Rinv_0_lt_compat. lra. }
  split.
  - intros i Hi. rewrite (timescale_entry evals tau Hi). cbv zeta.
    assert (Ha := Hmag _ (nth_In evals (RtoC 0) Hi)).
    destruct (np.isclose _ 1 0 _) eqn:E; [exact I|].
    cbn [timescale_le]. now apply Hfin.
  - intros i j Hi Hj Hle.
    rewrite (timescale_entry evals tau Hi), (timescale_entry evals tau Hj).
    cbv zeta.
    assert (Ha := Hmag _ (nth_In evals (RtoC 0) Hi)).
    assert (Hb := Hmag _ (nth_In evals (RtoC 0) Hj)).
    set (a := Cabs (nth i evals (RtoC 0))) in *.
    set (b := Cabs (nth j evals (RtoC 0))) in *.
    destruct (np.isclose a 1 0 _) eqn:Ea.
    + destruct (np.isclose b 1 0 _); exact I.
    + destruct (Hfin a Ha Ea) as (Ha1 & Hlna & _).
      destruct (np.isclose b 1 0 _) eqn:Eb.
      * exfalso. apply isclose_abs in Eb.
        assert (Hnc : ~ Rabs (a - 1) <= 1 / 10 ^ 14).
        { intros H. apply isclose_abs in H. congruence. }
        apply Hnc. rewrite Rabs_left1 by lra.
        rewrite Rabs_left1 in Eb by lra. lra.
      * destruct (Hfin b Hb Eb) as (Hb1 & Hlnb & _).
        cbn [timescale_le].
        assert (Hln : ln b <= ln a).
        { destruct Hle as [Hlt|Heq]; [|rewrite Heq; lra].
          left. apply ln_increasing; lra. }
        replace (((-1) * tau) / ln b) with (tau * / (- ln b)) by (field; lra).
        replace (((-1) * tau) / ln a) with (tau * / (- ln a)) by (field; lra).
        apply Rmult_le_compat_l; [exact Htau|].
        apply Rinv_le_contravar; lra.
Qed.

Lemma Cabs_half : Cabs (RtoC (1 / 2)) = 1 / 2.
Proof. rewrite Cabs_RtoC. apply Rabs_pos_eq. lra. Qed.

Lemma Cabs_one : Cabs (RtoC 1) = 1.
Proof. rewrite Cabs_RtoC. apply Rabs_R1. Qed.

Lemma timescales_from_eigenvalues_monotone_witness :
  0 <= 1 /\
  (forall z, In z [RtoC 1; RtoC (1 / 2)] -> 0 < Cabs z <= 1) /\
  timescale_le
    (nth 1 (fst (timescales_from_eigenvalues [RtoC 1; RtoC (1 / 2)] 1)) (Finite 0))
    (nth 0 (fst (timescales_from_eigenvalues [RtoC 1; RtoC (1 / 2)] 1)) (Finite 0)).
Proof.
  assert (H1 : 0 <= 1) by lra.
  assert (H2 : forall z, In z [RtoC 1; RtoC (1 / 2)] -> 0 < Cabs z <= 1).
  { intros z [<-|[<-|[]]]; [rewrite Cabs_one|rewrite Cabs_half]; lra. }
  split; [exact H1|]. split; [exact H2|].
  apply (proj2 (timescales_from_eigenvalues_monotone [RtoC 1; RtoC (1 / 2)] H1 H2)
           0%nat 1%nat).
  - cbn [length]. lia.
  - cbn [length]. lia.
  - cbn [nth]. rewrite Cabs_one, Cabs_half. lra.
Defined.

(** ** The norm of the iterate returned *)

Lemma sum_squares_nonneg (x : list R) : 0 <= np.sum (map (fun a => a * a) x).
Proof.
  apply sum_nonneg. apply Forall_forall. intros y Hy.
  apply in_map_iff in Hy. destruct Hy as (a & <- & _). apply Rle_0_sqr.
Qed.

Lemma linalg_norm_nonneg (x : list R) : 0 <= np.linalg_norm x.
Proof. apply sqrt_pos. Qed.

Lemma linalg_norm_scale (x : list R) (c : R) :
  0 <= c -> np.linalg_norm (np.scale x c) = c * np.linalg_norm x.
Proof.
  intros Hc. unfold np.linalg_norm, np.scale. cbn [kmul float64].
  rewrite map_map.
  rewrite (sum_map_ext_in (fun a => a * c * (a * c)) (fun a => (c * c) * (a * a)))
    by (intros; ring).
  rewrite sum_map_scale, sqrt_mult; [|nra|apply sum_squares_nonneg].
  now rewrite sqrt_square.
Qed.

Lemma linalg_norm_zero (x : list R) :
  np.linalg_norm x = 0 -> Forall (fun a => a = 0) x.
Proof.
  unfold np.linalg_norm. intros H.
  apply sqrt_eq_0 in H; [|apply sum_squares_nonneg].
  induction x as [|a x IH]; [constructor|].
  cbn [map] in H. rewrite sum_cons in H.
  pose proof (sum_squares_nonneg x) as Hx.
  pose proof (Rle_0_sqr a) as Ha. unfold Rsqr in Ha.
  constructor; [nra|]. apply IH. lra.
Qed.

Lemma scale_nonzero (x : list R) (c : R) :
  Exists (fun a => a <> 0) (np.scale x c) ->
  Exists (fun a => a <> 0) x /\ c <> 0.
Proof.
  unfold np.scale. cbn [kmul float64]. rewrite Exists_map.
  intros H. split.
  - eapply Exists_impl; [|exact H]. cbv beta. intros a Ha Ha0.
    apply Ha. rewrite Ha0. ring.
  - intros Hc. apply Exists_exists in H. destruct H as (a & _ & Ha).
    apply Ha. rewrite Hc. ring.
Qed.

Section UnitNorm.

Variable LU : Type.
Variable lu_factor : list (list R) -> LU.
Variable lu_solve : LU -> list R -> list R.

Lemma backward_loop_unit (lupiv : LU) (tol : R) (n : nat) :
  forall y r y',
    backward_loop lu_solve lupiv tol n y r = inl y' ->
    Exists (fun a => a <> 0) y' ->
    np.linalg_norm y' = 1 /\ 0 < tol.
Proof.
  induction n as [|n IH]; intros y r y'; cbn [backward_loop]; [discriminate|].
  set (x := lu_solve lupiv y).
  destruct (np.Rleb (1 / np.linalg_norm x) tol) eqn:E.
  - intros H Hnz. injection H as <-.
    apply Rleb_true in E.
    apply scale_nonzero in Hnz. destruct Hnz as (Hx & _).
    assert (Hn : 0 < np.linalg_norm x).
    { destruct (linalg_norm_nonneg x) as [Hlt|Heq]; [exact Hlt|].
      exfalso. symmetry in Heq. apply linalg_norm_zero in Heq.
      apply Exists_exists in Hx. destruct Hx as (a & Ha & Hne).
      rewrite Forall_forall in Heq. exact (Hne (Heq a Ha)). }
    assert (Hr : 0 < 1 / np.linalg_norm x) by (apply Rdiv_pos_pos; lra).
    split; [|lra].
    rewrite linalg_norm_scale by lra. field. lra.
  - apply IH.
Qed.

(** X9. An iterate [backward_iteration] returns that is not the zero
    vector has the Euclidean norm one, and none is returned unless [tol] is
    positive. *)
Theorem backward_iteration_unit_norm :
  forall (A : list (list R)) (mu : R) (x0 : list R) (tol : R) (maxiter : nat)
         (y : list R),
    backward_iteration lu_factor lu_solve A mu x0 tol maxiter = Ok y ->
    Exists (fun a => a <> 0) y ->
    np.linalg_norm y = 1 /\ 0 < tol.
Proof.
  intros A mu x0 tol maxiter y. unfold backward_iteration.
  destruct (backward_loop _ _ _ _ _ _) as [y'|r] eqn:E; [|discriminate].
  intros H. injection H as <-. exact (backward_loop_unit _ _ _ _ _ E).
Qed.

End UnitNorm.

Lemma linalg_norm_one : np.linalg_norm [1] = 1.
Proof.
  unfold np.linalg_norm. cbn [map]. rewrite sum_cons, sum_nil.
  replace (1 * 1 + 0) with 1 by ring. apply sqrt_1.
Qed.

Lemma backward_iteration_identity_solver :
  backward_iteration Example.lu_factor0 Example.lu_solve0 [[2]] 1 [1] 1 1 = Ok [1].
Proof.
  unfold backward_iteration. cbn [backward_loop].
  unfold Example.lu_solve0, np.times, np.scale. cbn [map kmul float64].
  rewrite linalg_norm_one.
  replace (1 * (1 * (1 / 1))) with 1 by field.
  rewrite linalg_norm_one.
  replace (np.Rleb (1 / 1) 1) with true
    by (symmetry; apply Rleb_true; lra).
  f_equal. f_equal. field.
Qed.

Lemma backward_iteration_unit_norm_witness :
  backward_iteration Example.lu_factor0 Example.lu_solve0 [[2]] 1 [1] 1 1 = Ok [1] /\
  Exists (fun a => a <> 0) [1] /\
  np.linalg_norm [1] = 1 /\ 0 < 1.
Proof.
  assert (H : Exists (fun a => a <> 0) [1]) by (apply Exists_cons_hd; lra).
  split; [exact backward_iteration_identity_solver|]. split; [exact H|].
  exact (backward_iteration_unit_norm Example.lu_factor0 Example.lu_solve0
           [[2]] 1 [1] 1 1 backward_iteration_identity_solver H).
Defined.

(** ** When the backward iteration raises *)

Lemma times_one (v : list R) : np.times 1 v = v.
Proof.
  unfold np.times. rewrite <- (map_id v) at 2. apply map_ext. intros x.
  cbn [kmul float64]. ring.
Qed.

Lemma linalg_norm_normalised (x : list R) :
  np.linalg_norm x <> 0 ->
  0 < 1 / np.linalg_norm x /\
  np.linalg_norm (np.scale x (1 / np.linalg_norm x)) = 1.
Proof.
  intros Hx.
  assert (Hn : 0 < np.linalg_norm x).
  { destruct (linalg_norm_nonneg x) as [H|H]; [exact H|]. congruence. }
  assert (Hr : 0 < 1 / np.linalg_norm x) by (apply Rdiv_pos_pos; lra).
  split; [exact Hr|]. rewrite linalg_norm_scale by lra. field. lra.
Qed.

Section BackwardIterationRaises.

Variable LU : Type.
Variable lu_factor : list (list R) -> LU.
Variable lu_solve : LU -> list R -> list R.

(** With an initial guess and solves of norm other than zero, every
    reciprocal norm of the iteration is positive and every iterate has the
    norm one: no division of the loop is a division by zero. *)
Lemma iterates_normalised (lupiv : LU) (x0 : list R) :
  np.linalg_norm x0 <> 0 ->
  (forall y, np.linalg_norm y <> 0 -> np.linalg_norm (lu_solve lupiv y) <> 0) ->
  forall n,
    0 < snd (iterate lu_solve lupiv (initial_state x0) n) /\
    np.linalg_norm (fst (iterate lu_solve lupiv (initial_state x0) n)) = 1.
Proof.
  intros Hx0 Hsolve. induction n as [|n [IHr IHy]].
  - unfold iterate, initial_state. cbn [Nat.iter]. cbv zeta. cbn [fst snd].
    destruct (@linalg_norm_normalised x0 Hx0) as [Hr Hy].
    rewrite times_one. split; [|exact Hy].
    rewrite Rmult_1_l. exact Hr.
  - unfold iterate in *. cbn [Nat.iter].
    set (s := Nat.iter n (iteration_step lu_solve lupiv) (initial_state x0)) in *.
    assert (Hs : np.linalg_norm (fst s) <> 0) by (rewrite IHy; lra).
    unfold iteration_step. cbv zeta. cbn [fst snd].
    exact (@linalg_norm_normalised (lu_solve lupiv (fst s)) (Hsolve (fst s) Hs)).
Qed.

(** C6. For an initial guess of norm other than zero and a solver that
    answers a vector of norm other than zero with one (so that every [r] is
    the reciprocal of a norm that is not zero, as the floats have it),
    [backward_iteration] raises exactly when [r] stays above [tol] in every
    one of the [maxiter] iterations; the error then carries [maxiter] and
    the last [r]; otherwise the iterate of the first iteration with
    [r <= tol] is returned, and it has the norm one. *)
Theorem backward_iteration_raises_iff_no_convergence :
  forall (A : list (list R)) (mu : R) (x0 : list R) (tol : R) (maxiter : nat),
    np.linalg_norm x0 <> 0 ->
    (forall y, np.linalg_norm y <> 0 ->
       np.linalg_norm (lu_solve (shifted lu_factor A mu) y) <> 0) ->
    let state := iterate lu_solve (shifted lu_factor A mu) (initial_state x0) in
    let res := backward_iteration lu_factor lu_solve A mu x0 tol maxiter in
    ((exists e, res = Raise e) <->
     (forall n, (1 <= n <= maxiter)%nat -> tol < snd (state n))) /\
    (forall e, res = Raise e -> e = RuntimeError maxiter (snd (state maxiter))) /\
    (forall n, (1 <= n <= maxiter)%nat ->
       snd (state n) <= tol ->
       (forall j, (1 <= j < n)%nat -> tol < snd (state j)) ->
       res = Ok (fst (state n))) /\
    (forall n, 0 < snd (state n) /\ np.linalg_norm (fst (state n)) = 1).
Proof.
  intros A mu x0 tol maxiter Hx0 Hsolve state res.
  pose proof (@backward_loop_spec LU lu_solve (shifted lu_factor A mu) tol maxiter
                (fst (initial_state x0)) (snd (initial_state x0))) as H.
  assert (Hres : res =
            match backward_loop lu_solve (shifted lu_factor A mu) tol maxiter
                    (fst (initial_state x0)) (snd (initial_state x0)) with
            | inl y => Ok y
            | inr r => Raise (RuntimeError maxiter r)
            end) by reflexivity.
  replace (fst (initial_state x0), snd (initial_state x0)) with (initial_state x0) in H
    by reflexivity.
  fold state in H.
  assert (Hnorm : forall n, 0 < snd (state n) /\ np.linalg_norm (fst (state n)) = 1)
    by (exact (@iterates_normalised (shifted lu_factor A mu) x0 Hx0 Hsolve)).
  destruct (backward_loop lu_solve (shifted lu_factor A mu) tol maxiter _ _) as [y'|r'].
  - destruct H as (m & Hm & Hle & Hlt & Hy).
    split; [split|split; [|split]]; try exact Hnorm.
    + intros [e He]. rewrite Hres in He. discriminate.
    + intros Hall. specialize (Hall m Hm). lra.
    + intros e He. rewrite Hres in He. discriminate.
    + intros n Hn Hnle Hbefore. rewrite Hres. f_equal. rewrite Hy.
      destruct (Nat.lt_trichotomy n m) as [Hlt'|[Heq|Hgt]].
      * specialize (Hlt n (conj (proj1 Hn) Hlt')). lra.
      * now subst.
      * specialize (Hbefore m (conj (proj1 Hm) Hgt)). lra.
  - destruct H as (Hall & Hr).
    split; [split|split; [|split]]; try exact Hnorm.
    + intros _. exact Hall.
    + intros _. eexists. exact Hres.
    + intros e He. rewrite Hres in He. inversion He. now subst.
    + intros n Hn Hnle _. specialize (Hall n Hn). lra.
Qed.

End BackwardIterationRaises.

Lemma backward_iteration_raises_iff_no_convergence_witness :
  let state := iterate Example.lu_solve0
                 (shifted Example.lu_factor0 [[2]] 1) (initial_state [1]) in
  let res := backward_iteration Example.lu_factor0 Example.lu_solve0
               [[2]] 1 [1] 1 1 in
  ((exists e, res = Raise e) <->
   (forall n, (1 <= n <= 1)%nat -> 1 < snd (state n))) /\
  (forall e, res = Raise e -> e = RuntimeError 1 (snd (state 1%nat))) /\
  (forall n, (1 <= n <= 1)%nat ->
     snd (state n) <= 1 ->
     (forall j, (1 <= j < n)%nat -> 1 < snd (state j)) ->
     res = Ok (fst (state n))) /\
  (forall n, 0 < snd (state n) /\ np.linalg_norm (fst (state n)) = 1).
Proof.
  assert (H1 : np.linalg_norm [1] <> 0) by (rewrite linalg_norm_one; lra).
  assert (H2 : forall y, np.linalg_norm y <> 0 ->
            np.linalg_norm
              (Example.lu_solve0 (shifted Example.lu_factor0 [[2]] 1) y) <> 0)
    by (intros y Hy; exact Hy).
  exact (@backward_iteration_raises_iff_no_convergence unit Example.lu_factor0
           Example.lu_solve0 [[2]] 1 [1] 1 1%nat H1 H2).
Defined.

(** ** Eigenvalues and eigenvectors of one selector *)

Lemma take_cons {A : Type} (a : list A) (i : nat) (ind : list nat) :
  np.take a (i :: ind)
  = match nth_error a i with Some x => [x] | None => [] end ++ np.take a ind.
Proof. reflexivity. Qed.

Lemma nth_error_take {A : Type} (a : list A) (ind : list nat) (i : nat) :
  Forall (fun j => (j < length a)%nat) ind -> (i < length ind)%nat ->
  nth_error (np.take a ind) i = nth_error a (nth i ind 0%nat).
Proof.
  intros Hall. revert i.
  induction Hall as [|j ind Hj _ IH]; intros i Hi; [simpl in Hi; lia|].
  unfold np.take. cbn [flat_map].
  destruct (nth_error a j) as [x|] eqn:E.
  2:{ apply nth_error_None in E. lia. }
  destruct i as [|i]; cbn [app nth_error nth]; [now rewrite E|].
  apply IH. simpl in Hi. lia.
Qed.

Lemma length_take {A : Type} (a : list A) (ind : list nat) :
  Forall (fun j => (j < length a)%nat) ind ->
  length (np.take a ind) = length ind.
Proof.
  induction 1 as [|j ind Hj _ IH]; [reflexivity|].
  unfold np.take. cbn [flat_map].
  destruct (nth_error a j) as [x|] eqn:E.
  2:{ apply nth_error_None in E. lia. }
  cbn [app length]. f_equal. exact IH.
Qed.

Lemma take_map_nth {A : Type} (a : list A) (ind : list nat) (d : A) :
  Forall (fun j => (j < length a)%nat) ind ->
  np.take a ind = map (fun i => nth i a d) ind.
Proof.
  induction 1 as [|j ind Hj _ IH]; [reflexivity|].
  unfold np.take. cbn [flat_map map].
  rewrite (nth_error_nth' a d Hj). cbn [app]. f_equal. exact IH.
Qed.

Lemma take_take {A : Type} (a : list A) (ind idx : list nat) :
  Forall (fun j => (j < length a)%nat) ind ->
  Forall (fun i => (i < length ind)%nat) idx ->
  np.take (np.take a ind) idx = np.take a (map (fun i => nth i ind 0%nat) idx).
Proof.
  intros Hind. induction 1 as [|i idx Hi _ IH]; [reflexivity|].
  cbn [map]. rewrite !take_cons, (@nth_error_take A a ind i Hind Hi).
  f_equal. exact IH.
Qed.

Lemma firstn_take {A : Type} (a : list A) (ind : list nat) (n : nat) :
  Forall (fun j => (j < length a)%nat) ind ->
  firstn n (np.take a ind) = np.take a (firstn n ind).
Proof.
  intros Hall. revert n.
  induction Hall as [|j ind Hj _ IH]; intros n; [now destruct n|].
  destruct n as [|n]; [reflexivity|].
  unfold np.take. cbn [flat_map firstn].
  destruct (nth_error a j) as [x|] eqn:E.
  2:{ apply nth_error_None in E. lia. }
  cbn [app firstn]. f_equal. apply IH.
Qed.

Lemma Forall_firstn_keep {A : Type} (P : A -> Prop) (n : nat) (l : list A) :
  Forall P l -> Forall P (firstn n l).
Proof.
  intros H. revert n. induction H as [|x l Hx _ IH]; intros [|n]; cbn [firstn];
    constructor; auto.
Qed.

Lemma position_lt (len : nat) (n : Z) :
  Py.index_ok len n = true -> (Py.position len n < len)%nat.
Proof.
  unfold Py.index_ok, Py.position. intros H.
  apply andb_true_iff in H. destruct H as [H1 H2].
  apply Z.leb_le in H1. apply Z.ltb_lt in H2.
  destruct (0 <=? n)%Z eqn:E; [apply Z.leb_le in E|apply Z.leb_gt in E]; lia.
Qed.

Lemma positions_valid (len : nat) (ks : list Z) (perm : list nat) (bound : nat) :
  forallb (Py.index_ok len) ks = true ->
  length perm = len ->
  Forall (fun j => (j < bound)%nat) perm ->
  Forall (fun i => (i < length perm)%nat) (map (Py.position len) ks) /\
  Forall (fun j => (j < bound)%nat)
    (map (fun i => nth i perm 0%nat) (map (Py.position len) ks)).
Proof.
  intros Hok Hl Hv. rewrite forallb_forall in Hok. rewrite Forall_forall in Hv.
  split; apply Forall_forall; intros x Hx.
  - apply in_map_iff in Hx. destruct Hx as (n & <- & Hn).
    rewrite Hl. apply position_lt. now apply Hok.
  - apply in_map_iff in Hx. destruct Hx as (i & <- & Hi).
    apply in_map_iff in Hi. destruct Hi as (n & <- & Hn).
    apply Hv, nth_In. rewrite Hl. apply position_lt. now apply Hok.
Qed.

Section Eigenpairs.

Context {K : Type} {SK : Scalar K}.
Variable LU : Type.
Variable lu_factor : list (list R) -> LU.
Variable lu_solve : LU -> list R -> list R.
Variable eigvals : list (list R) -> list complex.
Variable eigvalsh : list (list R) -> list R.
Variable eig : list (list R) -> list complex * list (list K).
Variable eig_left : list (list R) -> list complex * list (list K).

Local Abbreviation eigenvalues_ := (eigenvalues lu_factor lu_solve eigvals eigvalsh).

Lemma sorted_selection (T : list (list R)) (k : selector) (mu : option (list R))
  (w : list complex) (V : list (list K)) :
  eig T = (w, V) ->
  eigvals T = w ->
  Forall (fun row => length row = length w) V ->
  let perm := rev (np.argsort np.Rleb (map Cabs w)) in
  eigenvalues_ T k false mu = select k (np.take w perm) /\
  eigenvectors eig eig_left T k true = select_columns k (np.take_cols V perm) /\
  Forall (fun j => (j < length w)%nat) perm /\ length perm = length w /\
  length (np.take w perm) = length w /\
  (V <> [] -> np.ncols (np.take_cols V perm) = length w).
Proof.
  intros Heig Hw HV perm.
  destruct (argsort_indices (map Cabs w)) as [Hv Hl]. fold perm in Hv, Hl.
  rewrite length_map in Hl.
  assert (Hv' : Forall (fun j => (j < length w)%nat) perm).
  { eapply Forall_impl; [|exact Hv]. cbv beta. intros j Hj.
    now rewrite length_map in Hj. }
  split; [|split; [|split; [|split; [|split]]]]; try assumption.
  - rewrite eigenvalues_unfold, raw_eigenvalues_general, Hw. reflexivity.
  - unfold eigenvectors. rewrite Heig. reflexivity.
  - rewrite (@length_take _ w perm Hv'). exact Hl.
  - intros Hne. destruct V as [|row V]; [congruence|].
    unfold np.ncols, np.take_cols. cbn [map hd].
    inversion HV as [|? ? Hrow _]; subst.
    rewrite length_take; [exact Hl|]. now rewrite Hrow.
Qed.

(** X10. When [eigvals] gives the eigenvalues [eig] gives, [eigenvalues] and
    [eigenvectors] called with one selector return the same eigenpairs in
    the same order: there are positions in the arrays of [eig], all in
    range, at which the eigenvalues returned are its eigenvalues and the
    columns returned are its columns. *)
Theorem eigenvalues_eigenvectors_same_pairs :
  forall (T : list (list R)) (k : selector) (mu : option (list R))
         (w vals : list complex) (V vecs : list (list K)),
    eig T = (w, V) ->
    eigvals T = w ->
    Forall (fun row => length row = length w) V ->
    eigenvalues_ T k false mu = Ok vals ->
    eigenvectors eig eig_left T k true = Ok vecs ->
    exists idx : list nat,
      Forall (fun j => (j < length w)%nat) idx /\
      vals = np.take w idx /\
      vecs = np.take_cols V idx.
Proof.
  intros T k mu w vals V vecs Heig Hw HV Hvals Hvecs.
  destruct (@sorted_selection T k mu w V Heig Hw HV)
    as (Hvals' & Hvecs' & Hv & Hl & Hlt & Hnc).
  rewrite Hvals' in Hvals. rewrite Hvecs' in Hvecs. clear Hvals' Hvecs'.
  set (perm := rev (np.argsort np.Rleb (map Cabs w))) in *.
  assert (Hrows : forall row, In row V ->
            Forall (fun j => (j < length row)%nat) perm).
  { intros row Hin. rewrite Forall_forall in HV. now rewrite (HV row Hin). }
  destruct k as [|k|ks].
  - cbn [select] in Hvals. cbn [select_columns] in Hvecs.
    injection Hvals as <-. injection Hvecs as <-.
    exists perm. now repeat split.
  - cbn [select] in Hvals. cbn [select_columns] in Hvecs.
    injection Hvals as <-. injection Hvecs as <-.
    exists (firstn (Py.stop (length w) k) perm).
    split; [now apply Forall_firstn_keep|]. split.
    + unfold Py.slice_to. rewrite Hlt. now apply firstn_take.
    + unfold np.take_cols. rewrite map_map. apply map_ext_in. intros row Hin.
      unfold Py.slice_to. rewrite (@length_take _ row perm (Hrows row Hin)), Hl.
      apply firstn_take. now apply Hrows.
  - cbn [select] in Hvals.
    rewrite (getitems_spec _ ks (RtoC 0)), Hlt in Hvals.
    destruct (forallb (Py.index_ok (length w)) ks) eqn:Hok; [|discriminate].
    injection Hvals as <-.
    destruct ks as [|n ks]; [discriminate|].
    cbn [select_columns] in Hvecs.
    destruct V as [|row0 V'] eqn:EV.
    { unfold np.take_cols, np.ncols in Hvecs. cbn [map hd length forallb] in Hvecs.
      replace (Py.index_ok 0 n) with false in Hvecs; [discriminate|].
      unfold Py.index_ok. cbn [Z.of_nat]. symmetry. apply andb_false_iff.
      destruct (n <? 0)%Z eqn:E; [left|now right].
      apply Z.ltb_lt in E. apply Z.leb_gt. lia. }
    rewrite <- EV in *.
    assert (Hne : V <> []) by (rewrite EV; discriminate).
    rewrite (Hnc Hne), Hok in Hvecs. injection Hvecs as <-.
    destruct (@positions_valid (length w) (n :: ks) perm (length w) Hok Hl Hv) as [Hpos Hidx].
    exists (map (fun i => nth i perm 0%nat) (map (Py.position (length w)) (n :: ks))).
    split; [exact Hidx|]. split.
    + rewrite <- (@take_take _ w perm _ Hv Hpos).
      rewrite (@take_map_nth _ (np.take w perm) _ (RtoC 0)).
      * now rewrite map_map.
      * now rewrite (@length_take _ w perm Hv).
    + unfold np.take_cols. rewrite map_map. apply map_ext_in. intros row Hin.
      apply take_take; [now apply Hrows|exact Hpos].
Qed.

(** X11. Under the same agreement of the solvers, an integer or absent [k]
    makes neither function raise; a collection with an index out of range
    makes [eigenvalues] raise the ValueError and [eigenvectors] an
    IndexError; the empty collection gives no eigenvalues but an IndexError
    of [eigenvectors]; and a collection of valid indices makes neither
    raise. *)
Theorem selector_exceptions :
  forall (T : list (list R)) (k : selector) (mu : option (list R))
         (w : list complex) (V : list (list K)),
    eig T = (w, V) ->
    eigvals T = w ->
    shape (length w) (length w) V ->
    let vals := eigenvalues_ T k false mu in
    let vecs := eigenvectors eig eig_left T k true in
    match k with
    | KNone | KInt _ => (exists a, vals = Ok a) /\ (exists b, vecs = Ok b)
    | KList [] => vals = Ok [] /\ vecs = Raise IndexError
    | KList ks =>
        if forallb (Py.index_ok (length w)) ks
        then (exists a, vals = Ok a) /\ (exists b, vecs = Ok b)
        else vals = Raise (ValueError_indices ks) /\ vecs = Raise IndexError
    end.
Proof.
  intros T k mu w V Heig Hw [HVl HV] vals vecs.
  destruct (@sorted_selection T k mu w V Heig Hw HV)
    as (Hvals & Hvecs & Hv & Hl & Hlt & Hnc).
  unfold vals, vecs. rewrite Hvals, Hvecs. clear Hvals Hvecs vals vecs.
  destruct k as [|k|ks]; cbn [select select_columns].
  - split; eexists; reflexivity.
  - split; eexists; reflexivity.
  - destruct ks as [|n ks]; [split; reflexivity|].
    rewrite (getitems_spec _ (n :: ks) (RtoC 0)), Hlt.
    destruct V as [|row0 V'] eqn:EV.
    + cbn [length] in HVl. rewrite <- HVl.
      assert (Hn : Py.index_ok 0 n = false).
      { unfold Py.index_ok. cbn [Z.of_nat]. apply andb_false_iff.
        destruct (n <? 0)%Z eqn:E; [left|now right].
        apply Z.ltb_lt in E. apply Z.leb_gt. lia. }
      unfold np.take_cols, np.ncols. cbn [map hd length forallb].
      rewrite Hn. cbn [andb]. split; reflexivity.
    + rewrite <- EV in *.
      assert (Hne : V <> []) by (rewrite EV; discriminate).
      rewrite (Hnc Hne).
      destruct (forallb (Py.index_ok (length w)) (n :: ks)).
      * split; eexists; reflexivity.
      * split; reflexivity.
Qed.

End Eigenpairs.

Lemma argsort3 : rev (np.argsort np.Rleb (map Cabs Example.w3)) = [0; 1; 2]%nat.
Proof. exact (argsort_decreasing w3_decreasing). Qed.

Lemma eigenvalues3_first_and_last :
  eigenvalues Example.lu_factor0 Example.lu_solve0 Example.eigvals3 Example.eigvalsh0
    Example.T3 (KList [0; -1]%Z) false None
  = Ok [RtoC 1; RtoC (1 / 4)].
Proof.
  unfold eigenvalues, Example.eigvals3. cbn [bind]. rewrite argsort3. reflexivity.
Qed.

Lemma eigenvectors3_first_and_last :
  eigenvectors Example.eig3 Example.eig3 Example.T3 (KList [0; -1]%Z) true
  = Ok [[/ sqrt 3; 0]; [/ sqrt 3; / sqrt 2]; [/ sqrt 3; - / sqrt 2]].
Proof.
  unfold eigenvectors, Example.eig3. rewrite argsort3. reflexivity.
Qed.

Lemma eigenvalues_eigenvectors_same_pairs_witness :
  exists idx : list nat,
    Forall (fun j => (j < 3)%nat) idx /\
    [RtoC 1; RtoC (1 / 4)] = np.take Example.w3 idx /\
    [[/ sqrt 3; 0]; [/ sqrt 3; / sqrt 2]; [/ sqrt 3; - / sqrt 2]]
    = np.take_cols Example.R3 idx.
Proof.
  apply (@eigenvalues_eigenvectors_same_pairs R unit Example.lu_factor0
           Example.lu_solve0 Example.eigvals3 Example.eigvalsh0 Example.eig3
           Example.eig3 Example.T3 (KList [0; -1]%Z) None Example.w3
           [RtoC 1; RtoC (1 / 4)] Example.R3
           [[/ sqrt 3; 0]; [/ sqrt 3; / sqrt 2]; [/ sqrt 3; - / sqrt 2]]).
  - reflexivity.
  - reflexivity.
  - repeat constructor.
  - exact eigenvalues3_first_and_last.
  - exact eigenvectors3_first_and_last.
Defined.

Lemma selector_exceptions_witness :
  eigenvalues Example.lu_factor0 Example.lu_solve0 Example.eigvals3 Example.eigvalsh0
    Example.T3 (KList [0; 99]%Z) false None
  = Raise (ValueError_indices [0; 99]%Z) /\
  eigenvectors Example.eig3 Example.eig3 Example.T3 (KList [0; 99]%Z) true
  = Raise IndexError.
Proof.
  apply (@selector_exceptions R unit Example.lu_factor0 Example.lu_solve0
           Example.eigvals3 Example.eigvalsh0 Example.eig3 Example.eig3
           Example.T3 (KList [0; 99]%Z) None Example.w3 Example.R3).
  - reflexivity.
  - reflexivity.
  - split; [reflexivity|repeat constructor].
Defined.

(** ** The triple of rdl_decomposition *)

Section Triple.

Context {K : Type} {SK : Scalar K}.
Variable eig : list (list R) -> list complex * list (list K).
Variable solve : list (list K) -> list (list K) -> option (list (list K)).
Variable solve_vector : list (list K) -> list K -> option (list K).
Variable is_reversible : list (list R) -> bool.

Local Abbreviation rdl := (rdl_decomposition eig solve solve_vector is_reversible).

(** Whatever [k] is, [rdl_decomposition] raises the same exception, or it
    truncates the same pair of normalised matrices. *)
Lemma rdl_cases (T : list (list R)) (norm : string) :
  let w := fst (sorted_eig eig T) in
  let R0 := snd (sorted_eig eig T) in
  (exists e, forall k, rdl T k norm = Raise e) \/
  (exists RL,
     (forall k, rdl T k norm = Ok (truncated k w RL)) /\
     ((exists L, solve (np.transpose R0) (np.eye (length T)) = Some L /\
                 RL = standard_normalised R0 L) \/
      (exists nu, solve_vector (np.transpose R0) (unit_vector (length T)) = Some nu /\
                  RL = reversible_normalised R0 nu))).
Proof.
  unfold sorted_eig, rdl_decomposition. destruct (eig T) as [w0 V0]. cbn [fst snd].
  set (perm := rev (np.argsort np.Rleb (map Cabs w0))).
  set (w := np.take w0 perm). set (R0 := np.take_cols V0 perm).
  assert (Hstd :
    (exists e, forall k : option Z,
       match solve (np.transpose R0) (np.eye (length T)) with
       | None => Raise LinAlgError
       | Some L =>
           match k with
           | None => Ok (fst (standard_normalised R0 L), np.diag (RtoC 0) w,
                         np.transpose (snd (standard_normalised R0 L)))
           | Some k =>
               Ok (map (Py.slice_to k) (fst (standard_normalised R0 L)),
                   map (Py.slice_to k) (Py.slice_to k (np.diag (RtoC 0) w)),
                   np.transpose (map (Py.slice_to k) (snd (standard_normalised R0 L))))
           end
       end = Raise e) \/
    (exists RL,
       (forall k : option Z,
          match solve (np.transpose R0) (np.eye (length T)) with
          | None => Raise LinAlgError
          | Some L =>
              match k with
              | None => Ok (fst (standard_normalised R0 L), np.diag (RtoC 0) w,
                            np.transpose (snd (standard_normalised R0 L)))
              | Some k =>
                  Ok (map (Py.slice_to k) (fst (standard_normalised R0 L)),
                      map (Py.slice_to k) (Py.slice_to k (np.diag (RtoC 0) w)),
                      np.transpose (map (Py.slice_to k) (snd (standard_normalised R0 L))))
              end
          end = Ok (truncated k w RL)) /\
       ((exists L, solve (np.transpose R0) (np.eye (length T)) = Some L /\
                   RL = standard_normalised R0 L) \/
        (exists nu, solve_vector (np.transpose R0) (unit_vector (length T)) = Some nu /\
                    RL = reversible_normalised R0 nu)))).
  { destruct (solve (np.transpose R0) (np.eye (length T))) as [L|].
    - right. exists (standard_normalised R0 L). split.
      + intros [k|]; reflexivity.
      + left. now exists L.
    - left. exists LinAlgError. reflexivity. }
  assert (Hrev :
    (exists e, forall k : option Z,
       match solve_vector (np.transpose R0) (unit_vector (length T)) with
       | None => Raise LinAlgError
       | Some nu =>
           match k with
           | None => Ok (fst (reversible_normalised R0 nu), np.diag (RtoC 0) w,
                         np.transpose (snd (reversible_normalised R0 nu)))
           | Some k =>
               Ok (map (Py.slice_to k) (fst (reversible_normalised R0 nu)),
                   map (Py.slice_to k) (Py.slice_to k (np.diag (RtoC 0) w)),
                   np.transpose (map (Py.slice_to k) (snd (reversible_normalised R0 nu))))
           end
       end = Raise e) \/
    (exists RL,
       (forall k : option Z,
          match solve_vector (np.transpose R0) (unit_vector (length T)) with
          | None => Raise LinAlgError
          | Some nu =>
              match k with
              | None => Ok (fst (reversible_normalised R0 nu), np.diag (RtoC 0) w,
                            np.transpose (snd (reversible_normalised R0 nu)))
              | Some k =>
                  Ok (map (Py.slice_to k) (fst (reversible_normalised R0 nu)),
                      map (Py.slice_to k) (Py.slice_to k (np.diag (RtoC 0) w)),
                      np.transpose (map (Py.slice_to k) (snd (reversible_normalised R0 nu))))
              end
          end = Ok (truncated k w RL)) /\
       ((exists L, solve (np.transpose R0) (np.eye (length T)) = Some L /\
                   RL = standard_normalised R0 L) \/
        (exists nu, solve_vector (np.transpose R0) (unit_vector (length T)) = Some nu /\
                    RL = reversible_normalised R0 nu)))).
  { destruct (solve_vector (np.transpose R0) (unit_vector (length T))) as [nu|].
    - right. exists (reversible_normalised R0 nu). split.
      + intros [k|]; reflexivity.
      + right. now exists nu.
    - left. exists LinAlgError. reflexivity. }
  destruct (String.eqb norm "auto").
  - destruct (is_reversible T); cbn [String.eqb Ascii.eqb Bool.eqb andb].
    + exact Hrev.
    + exact Hstd.
  - destruct (String.eqb norm "standard"); [exact Hstd|].
    destruct (String.eqb norm "reversible"); [exact Hrev|].
    left. exists ValueError_norm. reflexivity.
Qed.

End Triple.

(** ** The diagonal matrix of the eigenvalues *)

Lemma firstn_seq_min (m s n : nat) : firstn m (seq s n) = seq s (Nat.min m n).
Proof.
  revert s n. induction m as [|m IH]; intros s [|n]; cbn [firstn seq Nat.min];
    try reflexivity.
  f_equal. apply IH.
Qed.

Lemma shape_diag {A : Type} (z : A) (w : list A) :
  shape (length w) (length w) (np.diag z w).
Proof.
  unfold np.diag. split.
  - now rewrite length_map, length_seq.
  - apply Forall_forall. intros row Hrow. apply in_map_iff in Hrow.
    destruct Hrow as (i & <- & _). now rewrite length_map, length_seq.
Qed.

Lemma entry_diag {A : Type} (z : A) (w : list A) (i j : nat) :
  nth j (nth i (np.diag z w) []) z = if Nat.eqb i j then nth i w z else z.
Proof.
  unfold np.diag.
  destruct (Nat.lt_ge_cases i (length w)) as [Hi|Hi].
  - rewrite (nth_map_seq _ [] Hi).
    destruct (Nat.lt_ge_cases j (length w)) as [Hj|Hj].
    + now rewrite (nth_map_seq _ z Hj).
    + rewrite nth_overflow by (now rewrite length_map, length_seq).
      destruct (Nat.eqb_spec i j); [lia|reflexivity].
  - rewrite (nth_overflow (map _ _)) by (now rewrite length_map, length_seq).
    destruct j; cbn [nth]; rewrite (nth_overflow w) by assumption;
      now destruct (Nat.eqb i _).
Qed.

Lemma entry_truncated_diag {A : Type} (z : A) (w : list A) (m i j : nat) :
  nth j (nth i (map (firstn m) (firstn m (np.diag z w))) []) z
  = if (i <? m)%nat && (j <? m)%nat && Nat.eqb i j then nth i w z else z.
Proof.
  replace (nth i (map (firstn m) (firstn m (np.diag z w))) [])
    with (firstn m (nth i (firstn m (np.diag z w)) [])).
  2:{ rewrite <- (map_nth (firstn m)). now rewrite firstn_nil. }
  rewrite !nth_firstn.
  destruct (i <? m)%nat, (j <? m)%nat; cbn [andb]; try reflexivity.
  - apply entry_diag.
  - now destruct j.
Qed.

Lemma In_firstn_keep {A : Type} (x : A) (n : nat) (l : list A) :
  In x (firstn n l) -> In x l.
Proof.
  revert n. induction l as [|y l IH]; intros [|n]; cbn [firstn In]; try tauto.
  intros [H|H]; [now left|right; eauto].
Qed.

Lemma slices_of_square {A : Type} (n : nat) (k : Z) (M : list (list A)) :
  shape n n M ->
  map (Py.slice_to k) (Py.slice_to k M)
  = map (firstn (Py.stop n k)) (firstn (Py.stop n k) M).
Proof.
  intros [Hn Hrows]. unfold Py.slice_to at 2. rewrite Hn.
  apply map_ext_in. intros row Hin. unfold Py.slice_to.
  rewrite Forall_forall in Hrows.
  now rewrite (Hrows row (In_firstn_keep _ _ _ Hin)).
Qed.

Lemma diagonal_truncated_diag (w : list complex) (m : nat) :
  (m <= length w)%nat ->
  np.diagonal (map (firstn m) (firstn m (np.diag (RtoC 0) w))) = firstn m w.
Proof.
  intros Hm. destruct (shape_diag (RtoC 0) w) as [Hn Hrows].
  set (D' := map (firstn m) (firstn m (np.diag (RtoC 0) w))).
  assert (Hlen : length D' = m).
  { unfold D'. rewrite length_map, length_firstn, Hn. lia. }
  assert (Hnc : np.ncols D' = m).
  { unfold np.ncols, D'.
    destruct (np.diag (RtoC 0) w) as [|row D] eqn:E.
    - cbn [length] in Hn. rewrite firstn_nil. cbn [map hd length]. lia.
    - destruct m as [|m]; [reflexivity|].
      rewrite firstn_cons. cbn [map hd]. rewrite length_firstn.
      inversion Hrows as [|? ? Hrow _]; subst. rewrite Hrow. lia. }
  unfold np.diagonal. rewrite Hlen, Hnc, Nat.min_id.
  apply nth_ext with (d := RtoC 0) (d' := RtoC 0).
  - rewrite length_map, length_seq, length_firstn. lia.
  - intros i Hi. rewrite length_map, length_seq in Hi.
    rewrite (nth_map_seq _ (RtoC 0) Hi). unfold D'.
    change (@k0 complex complex128) with (RtoC 0).
    rewrite entry_truncated_diag, nth_firstn, Nat.eqb_refl.
    apply Nat.ltb_lt in Hi. now rewrite Hi.
Qed.

Section TripleDiagonal.

Context {K : Type} {SK : Scalar K}.
Variable LU : Type.
Variable lu_factor : list (list R) -> LU.
Variable lu_solve : LU -> list R -> list R.
Variable eigvals : list (list R) -> list complex.
Variable eigvalsh : list (list R) -> list R.
Variable eig : list (list R) -> list complex * list (list K).
Variable solve : list (list K) -> list (list K) -> option (list (list K)).
Variable solve_vector : list (list K) -> list K -> option (list K).
Variable is_reversible : list (list R) -> bool.

(** X12. Whatever the norm, the matrix [D] of a triple [rdl_decomposition]
    returns is zero off its diagonal, and when [eigvals] gives the
    eigenvalues [eig] gives, its diagonal is what [eigenvalues] returns for
    the same [k]. *)
Theorem rdl_diagonal_is_eigenvalues :
  forall (T : list (list R)) (k : option Z) (norm : string)
         (mu : option (list R))
         (R' : list (list K)) (D : list (list complex)) (L' : list (list K)),
    eigvals T = fst (eig T) ->
    rdl_decomposition eig solve solve_vector is_reversible T k norm = Ok (R', D, L') ->
    eigenvalues lu_factor lu_solve eigvals eigvalsh T
      match k with None => KNone | Some k => KInt k end false mu
    = Ok (np.diagonal D) /\
    (forall i j, i <> j -> np.entry D i j = RtoC 0).
Proof.
  intros T k norm mu R' D L' Hw Hres.
  destruct (rdl_cases eig solve solve_vector is_reversible T norm)
    as [(e & He) | (RL & Hok & _)].
  { rewrite He in Hres. discriminate. }
  rewrite Hok in Hres. clear Hok.
  set (w := fst (sorted_eig eig T)) in *.
  assert (Hsorted : sorted_desc Cabs (eigvals T) = w).
  { unfold w, sorted_eig, sorted_desc. rewrite Hw. now destruct (eig T). }
  pose proof (shape_diag (RtoC 0) w) as Hshape.
  assert (HD : D = map (firstn (kept (length w) k))
                       (firstn (kept (length w) k) (np.diag (RtoC 0) w))).
  { destruct k as [k|]; cbn [truncated kept] in Hres |- *; injection Hres as _ <- _.
    - apply (slices_of_square k Hshape).
    - destruct Hshape as [Hn Hrows].
      rewrite <- Hn at 2. rewrite firstn_all.
      symmetry. rewrite <- (map_id (np.diag (RtoC 0) w)) at 2.
      apply map_ext_in. intros row Hin. rewrite Forall_forall in Hrows.
      rewrite <- (Hrows row Hin). apply firstn_all. }
  assert (Hm : (kept (length w) k <= length w)%nat).
  { destruct k as [k|]; cbn [kept]; [apply stop_le|lia]. }
  split.
  - rewrite HD, (diagonal_truncated_diag w Hm).
    rewrite eigenvalues_unfold, raw_eigenvalues_general. cbn [bind].
    rewrite Hsorted. destruct k as [k|]; cbn [select kept].
    + reflexivity.
    + now rewrite firstn_all.
  - intros i j Hij. rewrite HD. unfold np.entry.
    change (@k0 complex complex128) with (RtoC 0).
    rewrite entry_truncated_diag.
    destruct (Nat.eqb_spec i j); [contradiction|].
    now rewrite andb_false_r.
Qed.

End TripleDiagonal.

Lemma rdl3_standard (k : option Z) :
  rdl_decomposition Example.eig3 Example.solve3 Example.solve_vector0
    Example.is_reversible0 Example.T3 k "standard"
  = Ok (truncated k Example.w3 (standard_normalised Example.R3 Example.L3)).
Proof.
  rewrite (@rdl_standard_unfold R float64 Example.eig3 Example.solve3
             Example.solve_vector0 Example.is_reversible0 Example.T3 k
             Example.w3 Example.R3 Example.L3 sorted_eig3 eq_refl).
  now destruct k.
Qed.

Lemma rdl_diagonal_is_eigenvalues_witness :
  let D := map (Py.slice_to 2) (Py.slice_to 2 (np.diag (RtoC 0) Example.w3)) in
  eigenvalues Example.lu_factor0 Example.lu_solve0 Example.eigvals3 Example.eigvalsh0
    Example.T3 (KInt 2) false None
  = Ok (np.diagonal D) /\
  (forall i j, i <> j -> np.entry D i j = RtoC 0).
Proof.
  exact (@rdl_diagonal_is_eigenvalues R float64 unit Example.lu_factor0
           Example.lu_solve0 Example.eigvals3 Example.eigvalsh0 Example.eig3
           Example.solve3 Example.solve_vector0 Example.is_reversible0
           Example.T3 (Some 2%Z) "standard" None
           (map (Py.slice_to 2) (fst (standard_normalised Example.R3 Example.L3)))
           (map (Py.slice_to 2) (Py.slice_to 2 (np.diag (RtoC 0) Example.w3)))
           (np.transpose
              (map (Py.slice_to 2) (snd (standard_normalised Example.R3 Example.L3))))
           eq_refl (rdl3_standard (Some 2%Z))).
Defined.

(** ** The leading pairs of the full decomposition *)

Section Truncation.

Context {K : Type} {SK : Scalar K}.
Variable eig : list (list R) -> list complex * list (list K).
Variable solve : list (list K) -> list (list K) -> option (list (list K)).
Variable solve_vector : list (list K) -> list K -> option (list K).
Variable is_reversible : list (list R) -> bool.

Lemma transpose_slice (n d : nat) (k : Z) (M : list (list K)) :
  (1 <= n)%nat -> shape n d M ->
  np.transpose (map (Py.slice_to k) M) = Py.slice_to k (np.transpose M).
Proof.
  intros Hn HM.
  assert (Hm : (Py.stop d k <= d)%nat) by apply stop_le.
  rewrite (slice_rows k HM).
  unfold Py.slice_to. rewrite (@length_transpose K SK), (ncols_shape HM Hn).
  unfold np.transpose.
  rewrite (ncols_shape (shape_firstn HM Hm) Hn), (ncols_shape HM Hn).
  rewrite firstn_map, firstn_seq_min, Nat.min_l by exact Hm.
  apply map_ext_in. intros j Hj. apply in_seq in Hj.
  apply (@col_firstn K SK). lia.
Qed.

Lemma normalised_shapes (d : nat) (R0 : list (list K)) :
  (1 <= d)%nat -> shape d d R0 ->
  (forall L, shape d d L ->
     shape d d (fst (standard_normalised R0 L)) /\
     shape d d (snd (standard_normalised R0 L))) /\
  (forall nu, length nu = d ->
     shape d d (fst (reversible_normalised R0 nu)) /\
     shape d d (snd (reversible_normalised R0 nu))).
Proof.
  intros Hd HR. split.
  - intros L HL. unfold standard_normalised. cbn [fst snd].
    split; now apply shape_set_col.
  - intros nu Hnu. unfold reversible_normalised. cbn [fst snd].
    set (mu := np.divide nu (np.sum nu)).
    assert (Hmu : length mu = d) by (unfold mu, np.divide; now rewrite length_map).
    assert (HR1 : shape d d (sign_fixed R0)) by (now apply shape_set_col).
    destruct (diagonal_overlap mu Hd Hmu HR1) as [Hs _].
    assert (Hq : length (map ksqrt
                           (np.diagonal (np.dot (np.transpose (weighted mu (sign_fixed R0)))
                                                (sign_fixed R0)))) = d)
      by (now rewrite length_map).
    split; apply shape_divide_columns; try assumption.
    now apply shape_weighted.
Qed.

(** X13. The triple for [k] pairs is cut from the triple for all pairs:
    the first [k] columns of [R], the leading block of [D] and the first [k]
    rows of [L]; and [rdl_decomposition] raises for [k] what it raises
    without [k].  The solvers are taken to answer with arrays of the shape
    of their right-hand sides. *)
Theorem rdl_decomposition_leading_pairs :
  forall (T : list (list R)) (k : Z) (norm : string),
    let d := length T in
    let R0 := snd (sorted_eig eig T) in
    (1 <= d)%nat ->
    shape d d R0 ->
    (forall L, solve (np.transpose R0) (np.eye d) = Some L -> shape d d L) ->
    (forall nu, solve_vector (np.transpose R0) (unit_vector d) = Some nu ->
                length nu = d) ->
    match rdl_decomposition eig solve solve_vector is_reversible T None norm with
    | Ok (Rf, Df, Lf) =>
        rdl_decomposition eig solve solve_vector is_reversible T (Some k) norm
        = Ok (map (Py.slice_to k) Rf,
              map (Py.slice_to k) (Py.slice_to k Df),
              Py.slice_to k Lf)
    | Raise e =>
        rdl_decomposition eig solve solve_vector is_reversible T (Some k) norm
        = Raise e
    end.
Proof.
  intros T k norm d R0 Hd HR HL Hnu.
  destruct (rdl_cases eig solve solve_vector is_reversible T norm)
    as [(e & He) | (RL & Hok & Horigin)].
  { now rewrite !He. }
  rewrite !Hok. cbn [truncated]. do 2 f_equal.
  destruct (normalised_shapes Hd HR) as [Hstd Hrev].
  assert (Hshape : shape d d (snd RL)).
  { destruct Horigin as [(L & HsL & ->) | (nu & Hsnu & ->)].
    - apply Hstd. now apply HL.
    - apply Hrev. now apply Hnu. }
  exact (transpose_slice k Hd Hshape).
Qed.

End Truncation.

Lemma rdl_decomposition_leading_pairs_witness :
  let RL := standard_normalised Example.R3 Example.L3 in
  rdl_decomposition Example.eig3 Example.solve3 Example.solve_vector0
    Example.is_reversible0 Example.T3 (Some 2%Z) "standard"
  = Ok (map (Py.slice_to 2) (fst RL),
        map (Py.slice_to 2) (Py.slice_to 2 (np.diag (RtoC 0) Example.w3)),
        Py.slice_to 2 (np.transpose (snd RL))).
Proof.
  assert (H1 : (1 <= length Example.T3)%nat) by (cbn [length Example.T3]; lia).
  assert (H2 : shape (length Example.T3) (length Example.T3)
                 (snd (sorted_eig Example.eig3 Example.T3))).
  { rewrite sorted_eig3. split; [reflexivity|repeat constructor]. }
  assert (H3 : forall L,
             Example.solve3
               (np.transpose (snd (sorted_eig Example.eig3 Example.T3)))
               (np.eye (length Example.T3)) = Some L ->
             shape (length Example.T3) (length Example.T3) L).
  { intros L HL. injection HL as <-. split; [reflexivity|repeat constructor]. }
  assert (H4 : forall nu,
             Example.solve_vector0
               (np.transpose (snd (sorted_eig Example.eig3 Example.T3)))
               (unit_vector (length Example.T3)) = Some nu ->
             length nu = length Example.T3).
  { intros nu Hnu. discriminate Hnu. }
  pose proof (@rdl_decomposition_leading_pairs R float64 Example.eig3
                Example.solve3 Example.solve_vector0 Example.is_reversible0
                Example.T3 2%Z "standard" H1 H2 H3 H4) as H.
  rewrite (rdl3_standard None) in H. exact H.
Defined.

(** ** The columns of R are right eigenvectors *)

Lemma matvec_scale (T : list (list R)) (u : list R) (c : R) :
  np.matvec T (np.scale u c) = np.scale (np.matvec T u) c.
Proof.
  unfold np.matvec. unfold np.scale at 2. rewrite map_map.
  apply map_ext. intros row.
  exact (@vdot_scale_r R float64 Rfield row u c).
Qed.

Lemma scale_scale_swap (u : list R) (a b : R) :
  np.scale (np.scale u a) b = np.scale (np.scale u b) a.
Proof.
  unfold np.scale. rewrite !map_map. apply map_ext. intros x.
  cbn [kmul float64]. ring.
Qed.

Lemma divide_as_scale (u : list R) (c : R) : np.divide u c = np.scale u (/ c).
Proof. reflexivity. Qed.

Lemma eigenvector_scale (T : list (list R)) (u : list R) (lam c : R) :
  np.matvec T u = np.scale u lam ->
  np.matvec T (np.scale u c) = np.scale (np.scale u c) lam.
Proof. intros H. now rewrite matvec_scale, H, scale_scale_swap. Qed.

Lemma col_take_cols {K : Type} {SK : Scalar K} (V : list (list K))
  (perm : list nat) (j : nat) :
  Forall (fun row => Forall (fun i => (i < length row)%nat) perm) V ->
  (j < length perm)%nat ->
  np.col j (np.take_cols V perm) = np.col (nth j perm 0%nat) V.
Proof.
  intros HV Hj. unfold np.col, np.take_cols. rewrite map_map.
  apply map_ext_in. intros row Hin. rewrite Forall_forall in HV.
  exact (@nth_take _ row perm j k0 (HV row Hin) Hj).
Qed.

Lemma truncated_leading {K : Type} {SK : Scalar K} (d : nat) (k : option Z)
  (w : list complex) (RL : list (list K) * list (list K)) :
  shape d d (fst RL) -> length w = d ->
  fst (fst (truncated k w RL)) = map (firstn (kept d k)) (fst RL) /\
  snd (fst (truncated k w RL))
  = map (firstn (kept d k)) (firstn (kept d k) (np.diag (RtoC 0) w)).
Proof.
  intros HR Hw. pose proof (shape_diag (RtoC 0) w) as HD. rewrite Hw in HD.
  destruct k as [k|]; cbn [truncated kept fst snd].
  - split; [apply (slice_rows k HR)|apply (slices_of_square k HD)].
  - split; [symmetry; apply (firstn_rows_all HR)|].
    assert (E : firstn d (np.diag (RtoC 0) w) = np.diag (RtoC 0) w).
    { destruct HD as [Hn _]. rewrite <- Hn at 1. apply firstn_all. }
    now rewrite E, (firstn_rows_all HD).
Qed.

Section RightEigenvectors.

Variable eig : list (list R) -> list complex * list (list R).
Variable solve : list (list R) -> list (list R) -> option (list (list R)).
Variable solve_vector : list (list R) -> list R -> option (list R).
Variable is_reversible : list (list R) -> bool.

(** The sort keeps the eigenpairs together. *)
Lemma sorted_eig_pairs (T : list (list R)) (w0 : list complex)
  (V0 : list (list R)) (d : nat) :
  eig T = (w0, V0) -> length w0 = d -> shape d d V0 ->
  (forall j, (j < d)%nat ->
     np.matvec T (np.col j V0) = np.scale (np.col j V0) (re (nth j w0 (RtoC 0)))) ->
  let w := fst (sorted_eig eig T) in
  let R0 := snd (sorted_eig eig T) in
  length w = d /\ shape d d R0 /\
  (forall j, (j < d)%nat ->
     np.matvec T (np.col j R0) = np.scale (np.col j R0) (re (nth j w (RtoC 0)))).
Proof.
  intros Heig Hw [HVn HVrows] Hpairs. unfold sorted_eig. rewrite Heig.
  cbn [fst snd].
  destruct (argsort_indices (map Cabs w0)) as [Hv Hl].
  set (perm := rev (np.argsort np.Rleb (map Cabs w0))) in *.
  rewrite length_map in Hl.
  assert (Hv' : Forall (fun j => (j < d)%nat) perm).
  { eapply Forall_impl; [|exact Hv]. cbv beta. intros j Hj.
    rewrite length_map in Hj. lia. }
  assert (Hrows : Forall (fun row => Forall (fun i => (i < length row)%nat) perm) V0).
  { eapply Forall_impl; [|exact HVrows]. cbv beta. intros row Hrow.
    now rewrite Hrow. }
  assert (Hvw : Forall (fun j => (j < length w0)%nat) perm) by (now rewrite Hw).
  split; [|split].
  - rewrite (@length_take _ w0 perm Hvw). lia.
  - split.
    + unfold np.take_cols. now rewrite length_map.
    + unfold np.take_cols. apply Forall_forall. intros row Hin.
      apply in_map_iff in Hin. destruct Hin as (row0 & <- & Hin0).
      rewrite Forall_forall in Hrows.
      rewrite (@length_take _ row0 perm (Hrows row0 Hin0)). lia.
  - intros j Hj.
    assert (Hjp : (j < length perm)%nat) by lia.
    rewrite (@col_take_cols R float64 V0 perm j Hrows Hjp).
    rewrite (@nth_take _ w0 perm j (RtoC 0) Hvw Hjp).
    apply Hpairs. rewrite Forall_forall in Hv'. apply Hv', nth_In. lia.
Qed.

Lemma normalised_columns (T : list (list R)) (d : nat) (R0 : list (list R))
  (lam : nat -> R) :
  (1 <= d)%nat -> shape d d R0 ->
  (forall j, (j < d)%nat ->
     np.matvec T (np.col j R0) = np.scale (np.col j R0) (lam j)) ->
  (forall L j, (j < d)%nat ->
     let Rn := fst (standard_normalised R0 L) in
     np.matvec T (np.col j Rn) = np.scale (np.col j Rn) (lam j)) /\
  (forall nu j, length nu = d -> (j < d)%nat ->
     let Rn := fst (reversible_normalised R0 nu) in
     np.matvec T (np.col j Rn) = np.scale (np.col j Rn) (lam j)).
Proof.
  intros Hd HR Hpairs.
  assert (Hfirst : forall v,
            length v = d -> np.col 0 (np.set_col 0 v R0) = v).
  { intros v Hv. apply (@col_set_col_same R float64).
    - destruct HR as [Hn _]. congruence.
    - destruct HR as [_ Hrows]. eapply Forall_impl; [|exact Hrows].
      cbv beta. intros row Hrow. lia. }
  assert (Hlen : forall j, length (np.col j R0) = d).
  { intros j. rewrite (@length_col R float64). now destruct HR. }
  split.
  - intros L j Hj Rn. unfold Rn, standard_normalised. cbn [fst].
    destruct j as [|j].
    + rewrite Hfirst by (unfold np.scale; now rewrite length_map).
      apply eigenvector_scale, Hpairs. lia.
    + rewrite (@col_set_col_other R float64) by lia. now apply Hpairs.
  - intros nu j Hnu Hj Rn. unfold Rn, reversible_normalised. cbn [fst].
    set (mu := np.divide nu (np.sum nu)).
    assert (Hmu : length mu = d) by (unfold mu, np.divide; now rewrite length_map).
    assert (HR1 : shape d d (sign_fixed R0)) by (now apply shape_set_col).
    destruct (@diagonal_overlap R float64 d mu (sign_fixed R0) Hd Hmu HR1) as [Hs _].
    set (q := map ksqrt _).
    assert (Hq : length q = d) by (unfold q; now rewrite length_map).
    rewrite (@col_divide_columns R float64 d (sign_fixed R0) q j Hq HR1 Hj), divide_as_scale.
    apply eigenvector_scale.
    unfold sign_fixed. destruct j as [|j].
    + rewrite Hfirst by (unfold np.divide; now rewrite length_map).
      rewrite divide_as_scale. apply eigenvector_scale, Hpairs. lia.
    + rewrite (@col_set_col_other R float64) by lia. now apply Hpairs.
Qed.

(** X14. When the columns of the matrix of [eig] are eigenvectors of [T]
    for its eigenvalues, so are the columns of the matrix [R] that
    [rdl_decomposition] returns, for the eigenvalues on the diagonal of the
    [D] it returns: [dot(T, R[:, j]) = D[j, j] * R[:, j]], for each norm and
    each [k].  Where the norm is 'reversible' the columns of [R] are divided:
    the sum of [nu], the entry [R[0, 0]] before the division by its sign and
    the overlaps [s_j] of the columns kept are taken to be other than zero
    (the overlaps positive), as the divisions of the floats need them. *)
Theorem rdl_right_eigenvectors :
  forall (T : list (list R)) (k : option Z) (norm : string)
         (w0 : list complex) (V0 R' : list (list R)) (D : list (list complex))
         (L' : list (list R)),
    let d := length T in
    (1 <= d)%nat ->
    eig T = (w0, V0) ->
    length w0 = d ->
    shape d d V0 ->
    (forall nu,
       solve_vector (np.transpose (snd (sorted_eig eig T))) (unit_vector d) = Some nu ->
       length nu = d) ->
    (resolved_norm is_reversible T norm = "reversible"%string ->
     forall nu,
       solve_vector (np.transpose (snd (sorted_eig eig T))) (unit_vector d) = Some nu ->
       np.sum nu <> 0 /\
       np.entry (snd (sorted_eig eig T)) 0 0 <> 0 /\
       forall j, (j < kept d k)%nat ->
         0 < overlap (np.divide nu (np.sum nu))
               (sign_fixed (snd (sorted_eig eig T))) j j) ->
    (forall j, (j < d)%nat ->
       np.matvec T (np.col j V0) = np.scale (np.col j V0) (re (nth j w0 (RtoC 0)))) ->
    rdl_decomposition eig solve solve_vector is_reversible T k norm = Ok (R', D, L') ->
    forall j, (j < kept d k)%nat ->
      np.matvec T (np.col j R') = np.scale (np.col j R') (re (np.entry D j j)).
Proof.
  intros T k norm w0 V0 R' D L' d Hd Heig Hw HV Hnu _ Hpairs Hres j Hj.
  destruct (@sorted_eig_pairs T w0 V0 d Heig Hw HV Hpairs) as (Hwl & HR0 & Hsorted).
  destruct (rdl_cases eig solve solve_vector is_reversible T norm)
    as [(e & He) | (RL & Hok & Horigin)].
  { rewrite He in Hres. discriminate. }
  rewrite Hok in Hres. clear Hok.
  set (w := fst (sorted_eig eig T)) in *.
  set (R0 := snd (sorted_eig eig T)) in *.
  assert (Hm : (kept d k <= d)%nat).
  { destruct k as [k|]; cbn [kept]; [apply stop_le|lia]. }
  destruct (@normalised_columns T d R0 (fun j => re (nth j w (RtoC 0))) Hd HR0 Hsorted)
    as [Hstd Hrev].
  destruct (@normalised_shapes R float64 d R0 Hd HR0) as [Sstd Srev].
  assert (HRL : shape d d (fst RL) /\
                np.matvec T (np.col j (fst RL))
                = np.scale (np.col j (fst RL)) (re (nth j w (RtoC 0)))).
  { destruct Horigin as [(L & HsL & ->) | (nu & Hsnu & ->)].
    - split; [now apply shape_set_col|]. apply Hstd. lia.
    - split; [apply Srev; now apply Hnu|]. apply Hrev; [now apply Hnu|lia]. }
  destruct HRL as [HRLshape HRLeig].
  destruct (@truncated_leading R float64 d k w RL HRLshape Hwl) as [ER ED].
  injection Hres as Hres. rewrite Hres in ER, ED. cbn [fst snd] in ER, ED.
  rewrite ER, ED, (@col_firstn R float64 _ _ (fst RL) Hj).
  unfold np.entry. change (@k0 complex complex128) with (RtoC 0).
  rewrite entry_truncated_diag, Nat.eqb_refl.
  apply Nat.ltb_lt in Hj. rewrite Hj. cbn [andb]. exact HRLeig.
Qed.

End RightEigenvectors.

Lemma eig3_pairs (j : nat) :
  (j < 3)%nat ->
  np.matvec Example.T3 (np.col j Example.R3)
  = np.scale (np.col j Example.R3) (re (nth j Example.w3 (RtoC 0))).
Proof.
  intros Hj. destruct T3_eigenvectors as (H0 & H1 & H2).
  destruct j as [|[|[|j]]]; [exact H0|exact H1|exact H2|lia].
Qed.

Lemma eig2_pairs (j : nat) :
  (j < 2)%nat ->
  np.matvec Example.T2 (np.col j Example.R2)
  = np.scale (np.col j Example.R2) (re (nth j Example.w2 (RtoC 0))).
Proof.
  intros Hj. destruct T2_eigenvectors as (H0 & H1).
  destruct j as [|[|j]]; [exact H0|exact H1|lia].
Qed.

Lemma rdl2_reversible (k : option Z) :
  rdl_decomposition Example.eig2 Example.solve0 Example.solve_vector2
    Example.is_reversible0 Example.T2 k "reversible"
  = Ok (truncated k Example.w2 (reversible_normalised Example.R2 Example.nu2)).
Proof.
  rewrite (@rdl_reversible_unfold R float64 Example.eig2 Example.solve0
             Example.solve_vector2 Example.is_reversible0 Example.T2 k
             Example.w2 Example.R2 Example.nu2 sorted_eig2 eq_refl).
  now destruct k.
Qed.

Lemma sum_nu2 : np.sum Example.nu2 = sqrt 2.
Proof. cbv [np.sum Example.nu2 fold_right kadd k0 float64]. field. Qed.

Lemma rdl_right_eigenvectors_witness :
  let R' := fst (reversible_normalised Example.R2 Example.nu2) in
  let D := np.diag (RtoC 0) Example.w2 in
  np.matvec Example.T2 (np.col 1 R') = np.scale (np.col 1 R') (re (np.entry D 1 1)).
Proof.
  assert (H1 : (1 <= length Example.T2)%nat) by (cbn [length Example.T2]; lia).
  assert (H2 : shape (length Example.T2) (length Example.T2) Example.R2)
    by (split; [reflexivity|repeat constructor]).
  assert (H3 : forall nu,
             Example.solve_vector2
               (np.transpose (snd (sorted_eig Example.eig2 Example.T2)))
               (unit_vector (length Example.T2)) = Some nu ->
             length nu = length Example.T2).
  { intros nu Hnu. injection Hnu as <-. reflexivity. }
  assert (H4 : resolved_norm Example.is_reversible0 Example.T2 "reversible"
               = "reversible"%string ->
             forall nu,
               Example.solve_vector2
                 (np.transpose (snd (sorted_eig Example.eig2 Example.T2)))
                 (unit_vector (length Example.T2)) = Some nu ->
               np.sum nu <> 0 /\
               np.entry (snd (sorted_eig Example.eig2 Example.T2)) 0 0 <> 0 /\
               forall j, (j < kept (length Example.T2) None)%nat ->
                 0 < overlap (np.divide nu (np.sum nu))
                       (sign_fixed (snd (sorted_eig Example.eig2 Example.T2))) j j).
  { intros _ nu Hnu. injection Hnu as <-.
    rewrite sorted_eig2. cbn [snd]. rewrite mu2, sign_fixed_R2, sum_nu2.
    destruct overlaps2 as (H00 & H11 & _).
    split; [apply sqrt2_neq_0|]. split.
    - cbv [np.entry nth Example.R2]. apply Rinv_neq_0_compat, sqrt2_neq_0.
    - intros j Hj. cbn [kept length Example.T2] in Hj.
      destruct j as [|[|j]]; [rewrite H00|rewrite H11|lia]; lra. }
  assert (H5 : (1 < kept (length Example.T2) None)%nat)
    by (cbn [kept length Example.T2]; lia).
  exact (@rdl_right_eigenvectors Example.eig2 Example.solve0 Example.solve_vector2
           Example.is_reversible0 Example.T2 None "reversible"
           Example.w2 Example.R2
           (fst (reversible_normalised Example.R2 Example.nu2))
           (np.diag (RtoC 0) Example.w2)
           (np.transpose (snd (reversible_normalised Example.R2 Example.nu2)))
           H1 eq_refl eq_refl H2 H3 H4 eig2_pairs (rdl2_reversible None) 1%nat H5).
Defined.

(** ** The norm 'reversible' on a chain in detailed balance *)

Lemma weighted_square_nonneg (mu u : list R) :
  Forall (fun x => 0 < x) mu -> 0 <= np.vdot (np.map2 Rmult mu u) u.
Proof.
  intros Hmu. revert u. induction Hmu as [|m mu Hm _ IH]; intros [|x u];
    cbn [np.map2]; try (rewrite vdot_nil_l; lra).
  rewrite vdot_cons_R. specialize (IH u).
  pose proof (Rle_0_sqr x) as Hx. unfold Rsqr in Hx. nra.
Qed.

Lemma weighted_square_pos (mu u : list R) :
  length mu = length u ->
  Forall (fun x => 0 < x) mu ->
  Exists (fun x => x <> 0) u ->
  0 < np.vdot (np.map2 Rmult mu u) u.
Proof.
  intros Hl Hmu Hex. revert mu Hl Hmu.
  induction Hex as [x u Hx|x u _ IH]; intros [|m mu] Hl Hmu;
    simpl in Hl; try discriminate;
    inversion Hmu as [|? ? Hm Hmu']; subst;
    cbn [np.map2]; rewrite vdot_cons_R.
  - pose proof (weighted_square_nonneg u Hmu') as Hrest.
    assert (0 < x * x) by nra. nra.
  - assert (Hrest : 0 < np.vdot (np.map2 Rmult mu u) u)
      by (apply IH; [congruence|assumption]).
    pose proof (Rle_0_sqr x) as Hx. unfold Rsqr in Hx. nra.
Qed.

Lemma scale_keeps_nonzero (u : list R) (c : R) :
  c <> 0 -> Exists (fun x => x <> 0) u ->
  Exists (fun x => x <> 0) (np.scale u c).
Proof.
  intros Hc Hex. unfold np.scale. apply Exists_map.
  eapply Exists_impl; [|exact Hex]. cbv beta. intros x Hx.
  cbn [kmul float64]. intros E. apply Rmult_integral in E. tauto.
Qed.

Lemma Rsign_nonzero (x : R) : x <> 0 -> / Rsign x <> 0.
Proof.
  intros Hx. unfold Rsign.
  destruct (Rlt_dec 0 x); [apply Rinv_neq_0_compat; lra|].
  destruct (Rlt_dec x 0); [apply Rinv_neq_0_compat; lra|lra].
Qed.

Section SortedPositions.

Context {K : Type} {SK : Scalar K}.
Variable eig : list (list R) -> list complex * list (list K).

(** The sorted eigenvalues and columns are those of [eig], each once. *)
Lemma sorted_eig_positions (T : list (list R)) (w0 : list complex)
  (V0 : list (list K)) (d : nat) :
  eig T = (w0, V0) -> length w0 = d -> shape d d V0 ->
  let w := fst (sorted_eig eig T) in
  let R0 := snd (sorted_eig eig T) in
  length w = d /\ shape d d R0 /\
  exists perm,
    (forall j, (j < d)%nat -> (nth j perm 0 < d)%nat) /\
    (forall i j, (i < d)%nat -> (j < d)%nat -> i <> j ->
       nth i perm 0%nat <> nth j perm 0%nat) /\
    (forall j, (j < d)%nat ->
       nth j w (RtoC 0) = nth (nth j perm 0%nat) w0 (RtoC 0) /\
       np.col j R0 = np.col (nth j perm 0%nat) V0).
Proof.
  intros Heig Hw [HVn HVrows]. unfold sorted_eig. rewrite Heig.
  cbn [fst snd].
  destruct (argsort_indices (map Cabs w0)) as [Hv Hl].
  pose proof (argsort_perm Cabs w0) as Hperm.
  set (perm := rev (np.argsort np.Rleb (map Cabs w0))) in *.
  rewrite length_map in Hl.
  assert (Hv' : Forall (fun j => (j < d)%nat) perm).
  { eapply Forall_impl; [|exact Hv]. cbv beta. intros j Hj.
    rewrite length_map in Hj. lia. }
  assert (Hnd : NoDup perm).
  { unfold perm. apply (Permutation_NoDup (l := seq 0 (length w0))).
    - apply Permutation_sym. eapply Permutation_trans; [|exact Hperm].
      apply Permutation_sym, Permutation_rev.
    - apply seq_NoDup. }
  assert (Hrows : Forall (fun row => Forall (fun i => (i < length row)%nat) perm) V0).
  { eapply Forall_impl; [|exact HVrows]. cbv beta. intros row Hrow.
    now rewrite Hrow. }
  assert (Hvw : Forall (fun j => (j < length w0)%nat) perm) by (now rewrite Hw).
  split; [|split].
  - rewrite (@length_take _ w0 perm Hvw). lia.
  - split.
    + unfold np.take_cols. now rewrite length_map.
    + unfold np.take_cols. apply Forall_forall. intros row Hin.
      apply in_map_iff in Hin. destruct Hin as (row0 & <- & Hin0).
      rewrite Forall_forall in Hrows.
      rewrite (@length_take _ row0 perm (Hrows row0 Hin0)). lia.
  - exists perm. split; [|split].
    + intros j Hj. rewrite Forall_forall in Hv'. apply Hv', nth_In. lia.
    + intros i j Hi Hj Hij E.
      apply Hij. apply (proj1 (NoDup_nth perm 0%nat) Hnd); [lia|lia|exact E].
    + intros j Hj. assert (Hjp : (j < length perm)%nat) by lia. split.
      * exact (@nth_take _ w0 perm j (RtoC 0) Hvw Hjp).
      * exact (@col_take_cols K SK V0 perm j Hrows Hjp).
Qed.

End SortedPositions.

Section ReversibleChain.

Variable eig : list (list R) -> list complex * list (list R).
Variable solve : list (list R) -> list (list R) -> option (list (list R)).
Variable solve_vector : list (list R) -> list R -> option (list R).
Variable is_reversible : list (list R) -> bool.

(** X15. For a chain in detailed balance with the positive weights [mu]
    that the norm 'reversible' computes, whose eigenvalues are real and
    differ and whose leading eigenvector does not start with zero, the
    triple has [L = diag(mu) R] and [L R] the identity: the eigenvectors of
    such a chain are orthogonal for the weights [mu]. *)
Theorem rdl_reversible_chain_orthonormal :
  forall (T : list (list R)) (k : option Z) (w0 : list complex)
         (V0 : list (list R)) (nu : list R),
    let d := length T in
    let R0 := snd (sorted_eig eig T) in
    let mu := np.divide nu (np.sum nu) in
    (1 <= d)%nat ->
    shape d d T ->
    eig T = (w0, V0) ->
    length w0 = d ->
    shape d d V0 ->
    solve_vector (np.transpose R0) (unit_vector d) = Some nu ->
    length nu = d ->
    Forall (fun x => 0 < x) mu ->
    (forall a b, (a < d)%nat -> (b < d)%nat ->
       nth a mu 0 * np.entry T a b = nth b mu 0 * np.entry T b a) ->
    (forall j, (j < d)%nat ->
       np.matvec T (np.col j V0) = np.scale (np.col j V0) (re (nth j w0 (RtoC 0)))) ->
    (forall i j, (i < d)%nat -> (j < d)%nat -> i <> j ->
       re (nth i w0 (RtoC 0)) <> re (nth j w0 (RtoC 0))) ->
    (forall j, (j < d)%nat -> Exists (fun x => x <> 0) (np.col j V0)) ->
    np.entry R0 0 0 <> 0 ->
    exists R' D L',
      rdl_decomposition eig solve solve_vector is_reversible T k "reversible"
        = Ok (R', D, L') /\
      let m := kept d k in
      (forall i a, (i < m)%nat -> (a < d)%nat ->
         np.entry L' i a = nth a mu 0 * np.entry R' a i) /\
      (forall i j, (i < m)%nat -> (j < m)%nat ->
         np.entry (np.dot L' R') i j = if Nat.eqb i j then 1 else 0).
Proof.
  intros T k w0 V0 nu d R0 mu Hd HT Heig Hw HV Hsolve Hnu Hpos Hdb Hpairs
         Hdist Hnz H00.
  destruct (@sorted_eig_positions R float64 eig T w0 V0 d Heig Hw HV)
    as (Hwl & HR0 & perm & Hpv & Hpd & Hpos').
  set (w := fst (sorted_eig eig T)) in *. fold R0 in HR0, Hpos'.
  assert (Hsorted : sorted_eig eig T = (w, R0)) by apply surjective_pairing.
  assert (Hmu : length mu = d) by (unfold mu, np.divide; now rewrite length_map).
  set (R1 := sign_fixed R0).
  assert (HR1 : shape d d R1) by (now apply shape_set_col).
  assert (Hfirst : np.col 0 R1
                   = np.scale (np.col 0 R0) (/ Rsign (np.entry R0 0 0))).
  { unfold R1, sign_fixed. rewrite <- divide_as_scale.
    apply (@col_set_col_same R float64).
    - unfold np.divide. rewrite length_map, (@length_col R float64). reflexivity.
    - destruct HR0 as [_ Hrows]. eapply Forall_impl; [|exact Hrows].
      cbv beta. intros row Hrow. lia. }
  assert (Hother : forall j, np.col (S j) R1 = np.col (S j) R0).
  { intros j. unfold R1, sign_fixed.
    apply (@col_set_col_other R float64). lia. }
  assert (Heq0 : forall j, (j < d)%nat ->
            np.matvec T (np.col j R0)
            = np.scale (np.col j R0) (nth j (map re w) 0) /\
            Exists (fun x => x <> 0) (np.col j R0)).
  { intros j Hj. destruct (Hpos' j Hj) as [Ew Ec].
    change 0 with (re (RtoC 0)). rewrite (map_nth re), Ew, Ec.
    split; [apply Hpairs|apply Hnz]; now apply Hpv. }
  assert (Heq1 : forall j, (j < d)%nat ->
            np.matvec T (np.col j R1)
            = np.scale (np.col j R1) (nth j (map re w) 0) /\
            Exists (fun x => x <> 0) (np.col j R1)).
  { intros j Hj. destruct (Heq0 j Hj) as [He Hx]. destruct j as [|j].
    - rewrite Hfirst. split.
      + now apply eigenvector_scale.
      + apply scale_keeps_nonzero; [now apply Rsign_nonzero|exact Hx].
    - rewrite Hother. now split. }
  assert (Hdist' : forall i j, (i < d)%nat -> (j < d)%nat -> i <> j ->
            nth i (map re w) 0 <> nth j (map re w) 0).
  { intros i j Hi Hj Hij. change 0 with (re (RtoC 0)). rewrite !(map_nth re).
    rewrite (proj1 (Hpos' i Hi)), (proj1 (Hpos' j Hj)).
    apply Hdist; try (now apply Hpv). now apply Hpd. }
  assert (Horth : forall i j, (i < d)%nat -> (j < d)%nat -> i <> j ->
            overlap mu R1 i j = 0).
  { intros i j Hi Hj Hij.
    apply (@reversible_chain_orthogonal d T R1 mu (map re w) HT HR1 Hmu
             (fun j Hj => proj1 (Heq1 j Hj)) Hdb Hdist' i j Hi Hj Hij). }
  assert (Hdiag : forall j, (j < d)%nat -> 0 < overlap mu R1 j j).
  { intros j Hj. unfold overlap. rewrite (@col_weighted d mu R1 j Hmu HR1).
    apply weighted_square_pos.
    - rewrite (@length_col R float64). destruct HR1 as [Hn _]. congruence.
    - exact Hpos.
    - exact (proj2 (Heq1 j Hj)). }
  destruct (@rdl_reversible_general R float64 Rfield eig solve solve_vector
              is_reversible T k w R0 nu Hd Hsorted HR0 Hsolve Hnu)
    as (R' & D & L' & Hres & Hentries & Hprod & _).
  exists R', D, L'. split; [exact Hres|]. cbv zeta.
  assert (Hm : (kept d k <= d)%nat).
  { destruct k as [k'|]; cbn [kept]; [apply stop_le|lia]. }
  split.
  - intros i a Hi Ha. exact (Hentries i a Hi Ha).
  - intros i j Hi Hj. rewrite (Hprod i j Hi Hj). cbn [kdiv ksqrt float64].
    fold mu R1.
    destruct (Nat.eqb_spec i j) as [->|Hij].
    + assert (Ho := Hdiag j ltac:(lia)).
      set (o := overlap mu R1 j j) in *.
      assert (Hq : 0 < sqrt o) by (now apply sqrt_lt_R0).
      rewrite <- (sqrt_sqrt o) at 1 by lra. field. lra.
    + rewrite (Horth i j) by lia. unfold Rdiv. ring.
Qed.

End ReversibleChain.

Lemma inv_sqrt_neq_0 (x : R) : 0 < x -> / sqrt x <> 0.
Proof.
  intros Hx. apply Rinv_neq_0_compat.
  assert (0 < sqrt x) by (now apply sqrt_lt_R0). lra.
Qed.

Lemma rdl_reversible_chain_orthonormal_witness :
  exists R' D L',
    rdl_decomposition Example.eig2 Example.solve0 Example.solve_vector2
      Example.is_reversible0 Example.T2 None "reversible" = Ok (R', D, L') /\
    (forall i a, (i < 2)%nat -> (a < 2)%nat ->
       np.entry L' i a
       = nth a (np.divide Example.nu2 (np.sum Example.nu2)) 0 * np.entry R' a i) /\
    (forall i j, (i < 2)%nat -> (j < 2)%nat ->
       np.entry (np.dot L' R') i j = if Nat.eqb i j then 1 else 0).
Proof.
  apply (@rdl_reversible_chain_orthonormal Example.eig2 Example.solve0
           Example.solve_vector2 Example.is_reversible0 Example.T2 None
           Example.w2 Example.R2 Example.nu2).
  - cbn [length Example.T2]. lia.
  - split; [reflexivity|repeat constructor].
  - reflexivity.
  - reflexivity.
  - split; [reflexivity|repeat constructor].
  - reflexivity.
  - reflexivity.
  - rewrite mu2. repeat (apply Forall_cons || apply Forall_nil); lra.
  - rewrite mu2. intros a b Ha Hb. cbn [length Example.T2] in Ha, Hb.
    destruct a as [|[|a]], b as [|[|b]]; try lia;
      cbv [np.entry nth Example.T2]; lra.
  - intros j Hj. cbn [length Example.T2] in Hj.
    destruct T2_eigenvectors as [H0 H1].
    destruct j as [|[|j]]; [exact H0|exact H1|lia].
  - intros i j Hi Hj Hij. cbn [length Example.T2] in Hi, Hj.
    destruct i as [|[|i]], j as [|[|j]]; try lia;
      cbn [nth Example.w2 re RtoC]; lra.
  - intros j Hj. cbn [length Example.T2] in Hj.
    destruct j as [|[|j]]; [| |lia]; apply Exists_cons_hd;
      cbv [nth Example.R2].
    + apply inv_sqrt_neq_0. lra.
    + pose proof (inv_sqrt_neq_0 (x := 5) ltac:(lra)) as H. unfold Rdiv.
      intros E. apply Rmult_integral in E. destruct E; [lra|contradiction].
  - rewrite sorted_eig2. cbv [snd np.entry nth Example.R2].
    apply inv_sqrt_neq_0. lra.
Defined.

(** ** The matrix given to the symmetric solver *)

Lemma entry_symmetrized (d : nat) (mu : list R) (T : list (list R)) (a b : nat) :
  shape d d T -> length mu = d -> (a < d)%nat -> (b < d)%nat ->
  np.entry (symmetrized mu T) a b
  = sqrt (nth a mu 0) * np.entry T a b / sqrt (nth b mu 0).
Proof.
  intros [HTn HTrows] Hmu Ha Hb. unfold np.entry, symmetrized.
  assert (Hrow : length (nth a T []) = d).
  { rewrite Forall_forall in HTrows. apply HTrows, nth_In. lia. }
  rewrite (@nth_map2 _ _ _ _ (map sqrt mu) T a (sqrt 0) [] [])
    by (rewrite ?length_map; lia).
  rewrite (map_nth sqrt).
  rewrite (@nth_map2 _ _ _ Rdiv _ (map sqrt mu) b 0 (sqrt 0) k0)
    by (unfold np.times; rewrite ?length_map; lia).
  rewrite (map_nth sqrt). unfold np.times.
  rewrite (nth_indep _ 0 ((fun x => kmul (sqrt (nth a mu 0)) x) 0))
    by (rewrite length_map; lia).
  rewrite (map_nth (fun x => kmul (sqrt (nth a mu 0)) x)).
  reflexivity.
Qed.

Section Symmetrized.

Variable LU : Type.
Variable lu_factor : list (list R) -> LU.
Variable lu_solve : LU -> list R -> list R.
Variable eigvals : list (list R) -> list complex.
Variable eigvalsh : list (list R) -> list R.

(** X16. With [reversible] set and a positive [mu] given, [eigenvalues]
    returns the sorted eigenvalues that [eigvalsh] finds for the matrix [S]
    of the entries [sqrt(mu_a) T_ab / sqrt(mu_b)], and [S] is symmetric
    exactly when [T] is in detailed balance with [mu]. *)
Theorem symmetrized_symmetric_iff_detailed_balance :
  forall (d : nat) (T : list (list R)) (mu : list R),
    shape d d T ->
    length mu = d ->
    Forall (fun x => 0 < x) mu ->
    let S := symmetrized mu T in
    eigenvalues lu_factor lu_solve eigvals eigvalsh T KNone true (Some mu)
      = Ok (sorted_desc Cabs (map RtoC (eigvalsh S))) /\
    (forall a b, (a < d)%nat -> (b < d)%nat ->
       np.entry S a b = sqrt (nth a mu 0) * np.entry T a b / sqrt (nth b mu 0)) /\
    ((forall a b, (a < d)%nat -> (b < d)%nat -> np.entry S a b = np.entry S b a) <->
     (forall a b, (a < d)%nat -> (b < d)%nat ->
        nth a mu 0 * np.entry T a b = nth b mu 0 * np.entry T b a)).
Proof.
  intros d T mu HT Hmu Hpos S.
  assert (Hentry : forall a b, (a < d)%nat -> (b < d)%nat ->
            np.entry S a b = sqrt (nth a mu 0) * np.entry T a b / sqrt (nth b mu 0)).
  { intros a b Ha Hb. now apply entry_symmetrized with (d := d). }
  split; [reflexivity|].
  split; [exact Hentry|].
  assert (Hq : forall a, (a < d)%nat ->
            0 < sqrt (nth a mu 0) /\ sqrt (nth a mu 0) * sqrt (nth a mu 0) = nth a mu 0).
  { intros a Ha. rewrite Forall_forall in Hpos.
    assert (H : 0 < nth a mu 0) by (apply Hpos, nth_In; lia).
    split; [now apply sqrt_lt_R0|apply sqrt_sqrt; lra]. }
  split; intros H a b Ha Hb.
  - specialize (H a b Ha Hb). rewrite !Hentry in H by assumption.
    destruct (Hq a Ha) as [Hqa Ea]. destruct (Hq b Hb) as [Hqb Eb].
    rewrite <- Ea, <- Eb.
    set (p := sqrt (nth a mu 0)) in *. set (q := sqrt (nth b mu 0)) in *.
    replace (p * p * np.entry T a b) with (p * np.entry T a b / q * (p * q))
      by (field; lra).
    rewrite H. field. lra.
  - specialize (H a b Ha Hb). rewrite !Hentry by assumption.
    destruct (Hq a Ha) as [Hqa Ea]. destruct (Hq b Hb) as [Hqb Eb].
    rewrite <- Ea, <- Eb in H.
    set (p := sqrt (nth a mu 0)) in *. set (q := sqrt (nth b mu 0)) in *.
    apply (Rmult_eq_reg_r (p * q)); [|nra].
    replace (p * np.entry T a b / q * (p * q)) with (p * p * np.entry T a b)
      by (field; lra).
    replace (q * np.entry T b a / p * (p * q)) with (q * q * np.entry T b a)
      by (field; lra).
    exact H.
Qed.

End Symmetrized.

Lemma symmetrized_symmetric_iff_detailed_balance_witness :
  np.entry (symmetrized [1 / 3; 2 / 3] Example.T2) 0 1
  = np.entry (symmetrized [1 / 3; 2 / 3] Example.T2) 1 0.
Proof.
  assert (H1 : shape 2 2 Example.T2) by (split; [reflexivity|repeat constructor]).
  assert (H2 : length [1 / 3; 2 / 3] = 2%nat) by reflexivity.
  assert (H3 : Forall (fun x => 0 < x) [1 / 3; 2 / 3])
    by (repeat (apply Forall_cons || apply Forall_nil); lra).
  assert (H4 : forall a b, (a < 2)%nat -> (b < 2)%nat ->
            nth a [1 / 3; 2 / 3] 0 * np.entry Example.T2 a b
            = nth b [1 / 3; 2 / 3] 0 * np.entry Example.T2 b a).
  { intros a b Ha Hb.
    destruct a as [|[|a]], b as [|[|b]]; try lia;
      cbv [np.entry nth Example.T2]; lra. }
  apply (proj2 (proj2 (proj2 (@symmetrized_symmetric_iff_detailed_balance
                                unit Example.lu_factor0 Example.lu_solve0
                                Example.eigvals3 Example.eigvalsh0
                                2 Example.T2 [1 / 3; 2 / 3] H1 H2 H3)))
           H4 0%nat 1%nat); lia.
Defined.

(** ** The vector of stationary_distribution_from_eigenvector *)

Lemma map_Rabs_nonneg (l : list R) :
  Forall (fun x => 0 <= x) l -> map Rabs l = l.
Proof.
  induction 1 as [|x l Hx _ IH]; cbn [map]; [reflexivity|].
  now rewrite IH, Rabs_pos_eq.
Qed.

Lemma map_Rabs_nonpos (l : list R) :
  Forall (fun x => x <= 0) l -> map Rabs l = np.scale l (-1).
Proof.
  induction 1 as [|x l Hx _ IH]; cbn [map np.scale]; [reflexivity|].
  fold (np.scale l (-1)). rewrite IH, Rabs_left1 by exact Hx.
  cbn [kmul float64]. f_equal. ring.
Qed.

Lemma sum_nonneg_zero (v : list R) :
  Forall (fun x => 0 <= x) v -> np.sum v = 0 -> Forall (fun x => x = 0) v.
Proof.
  intros Hall Hs. apply Forall_forall. intros x Hx.
  destruct (Req_dec x 0) as [E|E]; [exact E|].
  assert (Hex : Exists (fun y => y <> 0) v) by (apply Exists_exists; eauto).
  pose proof (sum_pos Hall Hex). lra.
Qed.

Section StationaryVector.

Variable eig_left : list (list R) -> list complex * list (list R).

Lemma stationary_distribution_from_eigenvector_unfold (T : list (list R)) :
  stationary_distribution_from_eigenvector eig_left T
  = let nu := map Rabs (leading_left_eigenvector eig_left T) in
    np.divide nu (np.sum nu).
Proof.
  unfold stationary_distribution_from_eigenvector, leading_left_eigenvector.
  now destruct (eig_left T).
Qed.

(** X17. When the left eigenvector that [stationary_distribution_from_eigenvector]
    takes is one of the eigenvalue one, [l^T T = l^T], and its entries have
    one sign, the vector returned is stationary: [mu^T T = mu^T]. *)
Theorem stationary_distribution_from_eigenvector_stationary :
  forall (T : list (list R)),
    let l := leading_left_eigenvector eig_left T in
    np.matvec (np.transpose T) l = l ->
    Forall (fun x => 0 <= x) l \/ Forall (fun x => x <= 0) l ->
    let mu := stationary_distribution_from_eigenvector eig_left T in
    np.matvec (np.transpose T) mu = mu.
Proof.
  intros T l Hl Hsign mu. unfold mu.
  rewrite stationary_distribution_from_eigenvector_unfold. fold l. cbv zeta.
  rewrite divide_as_scale.
  destruct Hsign as [Hpos|Hneg].
  - rewrite (map_Rabs_nonneg Hpos). now rewrite matvec_scale, Hl.
  - rewrite (map_Rabs_nonpos Hneg). now rewrite !matvec_scale, Hl.
Qed.

End StationaryVector.

Lemma left_eigenvector2 :
  np.matvec (np.transpose Example.T2) [1 / sqrt 5; 2 / sqrt 5]
  = [1 / sqrt 5; 2 / sqrt 5].
Proof.
  pose proof sqrt5_neq_0. compute_arrays.
  repeat (f_equal; try (field; assumption)).
Qed.

Lemma stationary_distribution_from_eigenvector_stationary_witness :
  np.matvec (np.transpose Example.T2)
    (stationary_distribution_from_eigenvector Example.eig_left2 Example.T2)
  = stationary_distribution_from_eigenvector Example.eig_left2 Example.T2.
Proof.
  apply (@stationary_distribution_from_eigenvector_stationary
           Example.eig_left2 Example.T2).
  - rewrite leading_left_eigenvector2. exact left_eigenvector2.
  - left. rewrite leading_left_eigenvector2.
    assert (0 < sqrt 5) by (apply sqrt_lt_R0; lra).
    repeat (apply Forall_cons || apply Forall_nil);
      apply Rlt_le, Rdiv_lt_0_compat; lra.
Defined.

Section EigenvectorScale.

Variable eig_left eig_left' : list (list R) -> list complex * list (list R).

(** X18. The result of [stationary_distribution_from_eigenvector] does not
    depend on the lengths and signs the solver gives the eigenvectors: with
    the same eigenvalues and each column divided by a number that is not
    zero, the vector returned is the same. *)
Theorem stationary_distribution_from_eigenvector_scale_invariant :
  forall (T : list (list R)) (val : list complex) (L : list (list R))
         (cs : list R),
    let d := length val in
    (1 <= d)%nat ->
    shape d d L ->
    length cs = d ->
    Forall (fun c => c <> 0) cs ->
    eig_left T = (val, L) ->
    eig_left' T = (val, divide_columns L cs) ->
    stationary_distribution_from_eigenvector eig_left' T
    = stationary_distribution_from_eigenvector eig_left T.
Proof.
  intros T val L cs d Hd HL Hcs Hnz E E'.
  unfold stationary_distribution_from_eigenvector. rewrite E, E'.
  set (perm := rev (np.argsort np.Cleb val)).
  assert (Hperm : (0 < length perm)%nat /\ Forall (fun j => (j < d)%nat) perm).
  { unfold perm, np.argsort. rewrite length_rev, length_map.
    assert (Hp : Permutation (fold_right (np.insert np.Cleb) [] (np.enumerate val))
                   (np.enumerate val)).
    { generalize (np.enumerate val). intros l.
      induction l as [|x l IH]; cbn [fold_right]; [reflexivity|].
      apply Permutation_trans with (x :: fold_right (np.insert np.Cleb) [] l);
        [|now constructor].
      generalize (fold_right (np.insert np.Cleb) [] l). intros s.
      induction s as [|y s IHs]; cbn [np.insert]; [reflexivity|].
      destruct (np.Cleb (fst x) (fst y)); [reflexivity|].
      rewrite IHs. apply perm_swap. }
    split.
    - rewrite (Permutation_length Hp). unfold np.enumerate.
      rewrite length_combine, length_seq, Nat.min_id. exact Hd.
    - apply Forall_forall. intros j Hj. rewrite <- in_rev in Hj.
      apply in_map_iff in Hj. destruct Hj as ((x & i) & <- & Hin).
      apply (Permutation_in _ Hp) in Hin. unfold np.enumerate in Hin.
      apply in_combine_r in Hin. apply in_seq in Hin. cbn [snd]. lia. }
  destruct Hperm as [Hp0 Hpv].
  set (p := nth 0 perm 0%nat).
  assert (Hpd : (p < d)%nat).
  { rewrite Forall_forall in Hpv. apply Hpv, nth_In. exact Hp0. }
  assert (Hrows : forall M : list (list R), shape d d M ->
            Forall (fun row => Forall (fun i => (i < length row)%nat) perm) M).
  { intros M [_ HM]. eapply Forall_impl; [|exact HM]. cbv beta.
    intros row Hrow. now rewrite Hrow. }
  assert (HL' : shape d d (divide_columns L cs))
    by (now apply shape_divide_columns).
  rewrite (@col_take_cols R float64 L perm 0 (Hrows L HL) Hp0).
  rewrite (@col_take_cols R float64 (divide_columns L cs) perm 0 (Hrows _ HL') Hp0).
  fold p. rewrite (@col_divide_columns R float64 d L cs p Hcs HL Hpd).
  set (u := np.col p L). set (c := nth p cs k0).
  assert (Hc : c <> 0).
  { rewrite Forall_forall in Hnz. apply Hnz, nth_In. lia. }
  cbn [kabs float64].
  assert (Habs : map Rabs (np.divide u c) = np.divide (map Rabs u) (Rabs c)).
  { unfold np.divide. rewrite !map_map. apply map_ext. intros x.
    cbn [kdiv float64]. unfold Rdiv. now rewrite Rabs_mult, Rabs_inv. }
  rewrite Habs, (@sum_divide R float64 Rfield).
  set (nu := map Rabs u). set (a := Rabs c).
  assert (Ha : a <> 0) by (now apply Rabs_no_R0).
  assert (Hnu : Forall (fun x => 0 <= x) nu).
  { unfold nu. apply Forall_forall. intros x Hx. apply in_map_iff in Hx.
    destruct Hx as (y & <- & _). apply Rabs_pos. }
  unfold np.divide. rewrite map_map. apply map_ext_in. intros x Hx.
  cbn [kdiv float64].
  destruct (Req_dec (np.sum nu) 0) as [Hs|Hs].
  - pose proof (sum_nonneg_zero Hnu Hs) as Hz. rewrite Forall_forall in Hz.
    rewrite (Hz x Hx). unfold Rdiv. ring.
  - field. split; assumption.
Qed.

End EigenvectorScale.

Lemma stationary_distribution_from_eigenvector_scale_invariant_witness :
  stationary_distribution_from_eigenvector
    (fun _ => (Example.w2, divide_columns Example.Lleft2 [-1; 2])) Example.T2
  = stationary_distribution_from_eigenvector Example.eig_left2 Example.T2.
Proof.
  apply (@stationary_distribution_from_eigenvector_scale_invariant
           Example.eig_left2
           (fun _ => (Example.w2, divide_columns Example.Lleft2 [-1; 2]))
           Example.T2 Example.w2 Example.Lleft2 [-1; 2]).
  - cbn [length Example.w2]. lia.
  - split; [reflexivity|repeat constructor].
  - reflexivity.
  - repeat (apply Forall_cons || apply Forall_nil); lra.
  - reflexivity.
  - reflexivity.
Defined.

(** ** The eigenvalues an integer selects *)

Lemma strongly_sorted_split {A : Type} (Rel : A -> A -> Prop) (l1 l2 : list A) :
  StronglySorted Rel (l1 ++ l2) ->
  forall x y, In x l1 -> In y l2 -> Rel x y.
Proof.
  induction l1 as [|a l1 IH]; intros Hs x y Hx Hy; [destruct Hx|].
  cbn [app] in Hs. inversion Hs as [|? ? Hs' Hall]; subst.
  destruct Hx as [<-|Hx].
  - rewrite Forall_forall in Hall. apply Hall, in_or_app. now right.
  - now apply IH.
Qed.

Section LeadingEigenvalues.

Variable LU : Type.
Variable lu_factor : list (list R) -> LU.
Variable lu_solve : LU -> list R -> list R.
Variable eigvals : list (list R) -> list complex.
Variable eigvalsh : list (list R) -> list R.

(** X19. For an integer [k], [eigenvalues] returns eigenvalues of the
    solver that are at least as large in magnitude as each one it leaves
    out; it returns [min(k, d)] of the [d] eigenvalues for [k >= 0], and
    all but the last [-k] of them for [k < 0]. *)
Theorem eigenvalues_integer_selects_largest :
  forall (T : list (list R)) (k : Z) (mu : option (list R)),
    let d := length (eigvals T) in
    exists res dropped,
      eigenvalues lu_factor lu_solve eigvals eigvalsh T (KInt k) false mu = Ok res /\
      Permutation (res ++ dropped) (eigvals T) /\
      length res = (if (0 <=? k)%Z then Nat.min (Z.to_nat k) d
                    else d - Z.to_nat (- k))%nat /\
      (forall x y, In x res -> In y dropped -> Cabs y <= Cabs x).
Proof.
  intros T k mu d.
  set (s := sorted_desc Cabs (eigvals T)).
  assert (Hlen : length s = d) by apply sorted_desc_length.
  set (n := Py.stop (length s) k).
  exists (firstn n s), (skipn n s). split; [|split; [|split]].
  - rewrite eigenvalues_unfold, raw_eigenvalues_general. reflexivity.
  - rewrite firstn_skipn. apply sorted_desc_permutation.
  - rewrite length_firstn. unfold n, Py.stop. rewrite Hlen.
    destruct (0 <=? k)%Z eqn:E.
    + lia.
    + apply Z.leb_gt in E. lia.
  - intros x y Hx Hy.
    pose proof (sorted_desc_keys Cabs (eigvals T)) as Hs. fold s in Hs.
    rewrite <- (firstn_skipn n s), map_app in Hs.
    apply (strongly_sorted_split _ _ Hs); now apply in_map.
Qed.

End LeadingEigenvalues.

(** ** The eigenvector stationary_distribution_from_eigenvector takes *)

Lemma Cleb_total (x y : complex) : np.Cleb x y = false -> np.Cleb y x = true.
Proof.
  unfold np.Cleb.
  destruct (Rlt_dec (re x) (re y)) as [H1|H1]; [discriminate|].
  destruct (Rlt_dec (re y) (re x)) as [H2|H2]; [reflexivity|].
  intros H. apply Rleb_false in H. apply Rleb_true. lra.
Qed.

Lemma Cleb_refl (x : complex) : np.Cleb x x = true.
Proof.
  unfold np.Cleb. destruct (Rlt_dec (re x) (re x)) as [H|H]; [lra|].
  apply Rleb_true. lra.
Qed.

Lemma Cleb_trans (x y z : complex) :
  np.Cleb x y = true -> np.Cleb y z = true -> np.Cleb x z = true.
Proof.
  unfold np.Cleb.
  destruct (Rlt_dec (re x) (re y)) as [H1|H1];
    destruct (Rlt_dec (re y) (re z)) as [H2|H2];
    destruct (Rlt_dec (re x) (re z)) as [H3|H3]; try reflexivity; try lra;
    try (destruct (Rlt_dec (re y) (re x)); [discriminate|]);
    try (destruct (Rlt_dec (re z) (re y)); [discriminate|]);
    try (destruct (Rlt_dec (re z) (re x)); [lra|]);
    try lra.
  intros Ha Hb. apply Rleb_true in Ha. apply Rleb_true in Hb.
  apply Rleb_true. lra.
Qed.

Lemma Cleb_re (x y : complex) : np.Cleb x y = true -> re x <= re y.
Proof.
  unfold np.Cleb.
  destruct (Rlt_dec (re x) (re y)) as [H1|H1]; [lra|].
  destruct (Rlt_dec (re y) (re x)) as [H2|H2]; [discriminate|lra].
Qed.

Lemma Cinsert_perm (x : complex * nat) (l : list (complex * nat)) :
  Permutation (np.insert np.Cleb x l) (x :: l).
Proof.
  induction l as [|y l IH]; cbn [np.insert]; [reflexivity|].
  destruct (np.Cleb (fst x) (fst y)); [reflexivity|].
  rewrite IH. apply perm_swap.
Qed.

Lemma Csort_perm (l : list (complex * nat)) :
  Permutation (fold_right (np.insert np.Cleb) [] l) l.
Proof.
  induction l as [|x l IH]; cbn [fold_right]; [reflexivity|].
  rewrite Cinsert_perm. now constructor.
Qed.

Lemma Cinsert_sorted (x : complex * nat) (l : list (complex * nat)) :
  StronglySorted (fun p q => np.Cleb (fst p) (fst q) = true) l ->
  StronglySorted (fun p q => np.Cleb (fst p) (fst q) = true) (np.insert np.Cleb x l).
Proof.
  induction l as [|y l IH]; intros Hs; cbn [np.insert].
  - constructor; constructor.
  - destruct (np.Cleb (fst x) (fst y)) eqn:E.
    + constructor; [assumption|].
      inversion Hs as [|? ? Hs' Hall]; subst. constructor; [assumption|].
      eapply Forall_impl; [|exact Hall]. cbv beta. intros q Hq.
      exact (Cleb_trans _ _ _ E Hq).
    + apply Cleb_total in E. inversion Hs as [|? ? Hs' Hall]; subst.
      constructor; [now apply IH|].
      eapply Permutation_Forall; [symmetry; apply Cinsert_perm|].
      constructor; assumption.
Qed.

Lemma Csort_sorted (l : list (complex * nat)) :
  StronglySorted (fun p q => np.Cleb (fst p) (fst q) = true)
    (fold_right (np.insert np.Cleb) [] l).
Proof.
  induction l as [|x l IH]; cbn [fold_right]; [constructor|].
  now apply Cinsert_sorted.
Qed.

Lemma Cargsort_leading (val : list complex) :
  (1 <= length val)%nat ->
  let perm := rev (np.argsort np.Cleb val) in
  let p := nth 0 perm 0%nat in
  (0 < length perm)%nat /\
  Forall (fun j => (j < length val)%nat) perm /\
  (forall j, (j < length val)%nat ->
     np.Cleb (nth j val (RtoC 0)) (nth p val (RtoC 0)) = true).
Proof.
  intros Hd perm p. unfold p, perm, np.argsort. clear p perm.
  pose proof (Csort_perm (np.enumerate val)) as Hp.
  pose proof (Csort_sorted (np.enumerate val)) as Hs.
  set (sorted := fold_right (np.insert np.Cleb) [] (np.enumerate val)) in *.
  assert (Hlen : length sorted = length val).
  { rewrite (Permutation_length Hp). unfold np.enumerate.
    now rewrite length_combine, length_seq, Nat.min_id. }
  assert (Hin : forall q, In q sorted ->
            (snd q < length val)%nat /\ nth (snd q) val (RtoC 0) = fst q).
  { intros [x i] Hq. apply (Permutation_in _ Hp) in Hq.
    unfold np.enumerate in Hq. cbn [fst snd].
    apply (In_nth _ _ (RtoC 0, 0%nat)) in Hq. destruct Hq as (n & Hn & En).
    rewrite length_combine, length_seq, Nat.min_id in Hn.
    rewrite combine_nth in En by (now rewrite length_seq).
    rewrite seq_nth in En by exact Hn. injection En as <- <-.
    split; [exact Hn|reflexivity]. }
  assert (Hall : forall j, (j < length val)%nat ->
            In (nth j val (RtoC 0), j) sorted).
  { intros j Hj. apply (Permutation_in _ (Permutation_sym Hp)).
    unfold np.enumerate.
    assert (Epair : nth j (combine val (seq 0 (length val))) (RtoC 0, 0%nat)
                    = (nth j val (RtoC 0), j)).
    { rewrite combine_nth by (now rewrite length_seq).
      now rewrite seq_nth by exact Hj. }
    rewrite <- Epair.
    apply nth_In. now rewrite length_combine, length_seq, Nat.min_id. }
  destruct (rev sorted) as [|q r] eqn:Er.
  { apply (f_equal (@length _)) in Er. rewrite length_rev in Er.
    cbn [length] in Er. lia. }
  assert (Es : sorted = rev r ++ [q]).
  { rewrite <- (rev_involutive sorted), Er. reflexivity. }
  rewrite <- map_rev, Er. cbn [map nth length].
  split; [lia|]. split.
  - apply Forall_forall. intros j Hj.
    change (In j (map snd (q :: r))) in Hj.
    apply in_map_iff in Hj. destruct Hj as (q' & <- & Hq').
    apply Hin. rewrite in_rev, Er. exact Hq'.
  - intros j Hj.
    assert (Hq : In q sorted) by (rewrite Es; apply in_or_app; right; now left).
    rewrite (proj2 (Hin q Hq)).
    pose proof (Hall j Hj) as Hj'. rewrite Es in Hj'.
    apply in_app_or in Hj'. destruct Hj' as [Hj'|[Eq|[]]].
    + rewrite Es in Hs.
      exact (strongly_sorted_split _ _ Hs _ _ Hj' (or_introl eq_refl)).
    + rewrite Eq. apply Cleb_refl.
Qed.

Section LeadingEigenvector.

Context {K : Type} {SK : Scalar K}.
Variable eig_left : list (list R) -> list complex * list (list K).

(** X20. [stationary_distribution_from_eigenvector] normalises the left
    eigenvector of an eigenvalue with the greatest real part (the sort is
    that of complex numbers, not of magnitudes): for a stochastic matrix,
    whose eigenvalues have a magnitude of at most one, that of the
    eigenvalue one. *)
Theorem stationary_distribution_from_eigenvector_leading :
  forall (T : list (list R)) (val : list complex) (L : list (list K)),
    let d := length val in
    (1 <= d)%nat ->
    shape d d L ->
    eig_left T = (val, L) ->
    exists p,
      (p < d)%nat /\
      (forall j, (j < d)%nat -> re (nth j val (RtoC 0)) <= re (nth p val (RtoC 0))) /\
      stationary_distribution_from_eigenvector eig_left T
      = np.divide (map kabs (np.col p L)) (np.sum (map kabs (np.col p L))).
Proof.
  intros T val L d Hd [HLn HLrows] E.
  destruct (Cargsort_leading val Hd) as (Hp0 & Hpv & Hmax).
  set (perm := rev (np.argsort np.Cleb val)) in *.
  exists (nth 0 perm 0%nat). split; [|split].
  - rewrite Forall_forall in Hpv. apply Hpv, nth_In. exact Hp0.
  - intros j Hj. apply Cleb_re. now apply Hmax.
  - unfold stationary_distribution_from_eigenvector. rewrite E. fold perm.
    assert (Hrows : Forall (fun row => Forall (fun i => (i < length row)%nat) perm) L).
    { eapply Forall_impl; [|exact HLrows]. cbv beta. intros row Hrow.
      now rewrite Hrow. }
    now rewrite (@col_take_cols K SK L perm 0 Hrows Hp0).
Qed.

End LeadingEigenvector.

Lemma stationary_distribution_from_eigenvector_leading_witness :
  exists p,
    (p < 2)%nat /\
    (forall j, (j < 2)%nat ->
       re (nth j Example.w2 (RtoC 0)) <= re (nth p Example.w2 (RtoC 0))) /\
    stationary_distribution_from_eigenvector Example.eig_left2 Example.T2
    = np.divide (map Rabs (np.col p Example.Lleft2))
                (np.sum (map Rabs (np.col p Example.Lleft2))).
Proof.
  apply (@stationary_distribution_from_eigenvector_leading R float64
           Example.eig_left2 Example.T2 Example.w2 Example.Lleft2).
  - cbn [length Example.w2]. lia.
  - split; [reflexivity|repeat constructor].
  - reflexivity.
Defined.

(** ** The shapes of the triple *)

Section TripleShapes.

Context {K : Type} {SK : Scalar K}.
Variable eig : list (list R) -> list complex * list (list K).
Variable solve : list (list K) -> list (list K) -> option (list (list K)).
Variable solve_vector : list (list K) -> list K -> option (list K).
Variable is_reversible : list (list R) -> bool.

(** X21. For a matrix of [d] states of which [m] eigenpairs are kept, the
    triple of [rdl_decomposition] is made of a [d x m] matrix [R], an
    [m x m] matrix [D] and an [m x d] matrix [L], whichever the norm; [m] is
    [d] without [k], [min(k, d)] for [k >= 0]. *)
Theorem rdl_decomposition_shapes :
  forall (T : list (list R)) (k : option Z) (norm : string)
         (R' : list (list K)) (D : list (list complex)) (L' : list (list K)),
    let d := length T in
    let w := fst (sorted_eig eig T) in
    let R0 := snd (sorted_eig eig T) in
    (1 <= d)%nat ->
    length w = d ->
    shape d d R0 ->
    (forall L, solve (np.transpose R0) (np.eye d) = Some L -> shape d d L) ->
    (forall nu, solve_vector (np.transpose R0) (unit_vector d) = Some nu ->
                length nu = d) ->
    rdl_decomposition eig solve solve_vector is_reversible T k norm = Ok (R', D, L') ->
    let m := kept d k in
    (m <= d)%nat /\ shape d m R' /\ shape m m D /\ shape m d L'.
Proof.
  intros T k norm R' D L' d w R0 Hd Hw HR HL Hnu Hres m.
  destruct (rdl_cases eig solve solve_vector is_reversible T norm)
    as [(e & He) | (RL & Hok & Horigin)].
  { rewrite He in Hres. discriminate. }
  rewrite Hok in Hres. injection Hres as Hres. fold w in Hres.
  assert (Hm : (m <= d)%nat).
  { unfold m. destruct k as [k'|]; cbn [kept]; [apply stop_le|lia]. }
  destruct (@normalised_shapes K SK d R0 Hd HR) as [Hstd Hrev].
  assert (Hshapes : shape d d (fst RL) /\ shape d d (snd RL)).
  { destruct Horigin as [(L & HsL & ->) | (nu & Hsnu & ->)].
    - apply Hstd. now apply HL.
    - apply Hrev. now apply Hnu. }
  destruct Hshapes as [HRn HLn].
  destruct (@truncated_leading K SK d k w RL HRn Hw) as [ER ED].
  assert (EL : snd (truncated k w RL) = np.transpose (map (firstn m) (snd RL))).
  { unfold m. destruct k as [k'|]; cbn [truncated kept snd].
    - now rewrite (slice_rows k' HLn).
    - now rewrite (firstn_rows_all HLn). }
  rewrite Hres in ER, ED, EL. cbn [fst snd] in ER, ED, EL. fold m in ER, ED.
  split; [exact Hm|]. split; [|split].
  - rewrite ER. exact (shape_firstn HRn Hm).
  - rewrite ED. pose proof (shape_diag (RtoC 0) w) as [Hn Hrows].
    split.
    + rewrite length_map, length_firstn, Hn, Hw. lia.
    + apply Forall_forall. intros row Hin. apply in_map_iff in Hin.
      destruct Hin as (row0 & <- & Hin0). apply In_firstn_keep in Hin0.
      rewrite Forall_forall in Hrows.
      rewrite length_firstn, (Hrows row0 Hin0), Hw. lia.
  - rewrite EL. pose proof (shape_firstn HLn Hm) as HLm. split.
    + rewrite (@length_transpose K SK). exact (ncols_shape HLm Hd).
    + unfold np.transpose. apply Forall_forall. intros row Hin.
      apply in_map_iff in Hin. destruct Hin as (j & <- & _).
      rewrite (@length_col K SK). now destruct HLm.
Qed.

End TripleShapes.

Lemma rdl_decomposition_shapes_witness :
  let RL := standard_normalised Example.R3 Example.L3 in
  (2 <= 3)%nat /\
  shape 3 2 (map (Py.slice_to 2) (fst RL)) /\
  shape 2 2 (map (Py.slice_to 2) (Py.slice_to 2 (np.diag (RtoC 0) Example.w3))) /\
  shape 2 3 (np.transpose (map (Py.slice_to 2) (snd RL))).
Proof.
  assert (H1 : (1 <= length Example.T3)%nat) by (cbn [length Example.T3]; lia).
  assert (H2 : length (fst (sorted_eig Example.eig3 Example.T3)) = length Example.T3)
    by (now rewrite sorted_eig3).
  assert (H3 : shape (length Example.T3) (length Example.T3)
                 (snd (sorted_eig Example.eig3 Example.T3))).
  { rewrite sorted_eig3. split; [reflexivity|repeat constructor]. }
  assert (H4 : forall L,
             Example.solve3
               (np.transpose (snd (sorted_eig Example.eig3 Example.T3)))
               (np.eye (length Example.T3)) = Some L ->
             shape (length Example.T3) (length Example.T3) L).
  { intros L HL. injection HL as <-. split; [reflexivity|repeat constructor]. }
  assert (H5 : forall nu,
             Example.solve_vector0
               (np.transpose (snd (sorted_eig Example.eig3 Example.T3)))
               (unit_vector (length Example.T3)) = Some nu ->
             length nu = length Example.T3).
  { intros nu Hnu. discriminate Hnu. }
  exact (@rdl_decomposition_shapes R float64 Example.eig3 Example.solve3
           Example.solve_vector0 Example.is_reversible0 Example.T3 (Some 2%Z)
           "standard"
           (map (Py.slice_to 2) (fst (standard_normalised Example.R3 Example.L3)))
           (map (Py.slice_to 2) (Py.slice_to 2 (np.diag (RtoC 0) Example.w3)))
           (np.transpose
              (map (Py.slice_to 2) (snd (standard_normalised Example.R3 Example.L3))))
           H1 H2 H3 H4 H5 (rdl3_standard (Some 2%Z))).
Defined.
